(** * Copua: the Lua binding over the libcoap message engine

    A shallow embedding of [src/copua.c] and [src/common.c].  C integers are
    [Z] with their wrap-around written out, raw bytes are [Z] values in
    [0, 256), C strings and Lua strings are [list Z], the Lua registry is a
    [gmap Z lua_value].  A Lua C function [l_coap_*] becomes a function from
    the object it is bound to and the list of its Lua arguments (the ones
    after [arg_base]) to a [result]. *)

From Stdlib Require Import ZArith List Bool Lia String Ascii DecimalString.
From stdpp Require Import base list strings gmap.

Set Warnings "-register-all".

Local Open Scope Z_scope.

(** ** C integer conversions *)

Definition to_uint8 (z : Z) : Z := z mod 2 ^ 8.
Definition to_uint16 (z : Z) : Z := z mod 2 ^ 16.
Definition to_uint32 (z : Z) : Z := z mod 2 ^ 32.

(** [(int)z] for a 64-bit [lua_Integer]: two's complement on 32 bits. *)
Definition to_int (z : Z) : Z := (z + 2 ^ 31) mod 2 ^ 32 - 2 ^ 31.

(** ** Bytes and strings *)

Definition bytes := list Z.

Definition is_byte (b : Z) : Prop := 0 <= b < 256.

Definition bytes_of_string (s : string) : bytes :=
  map (fun c => Z.of_N (N_of_ascii c)) (list_ascii_of_string s).

(** [isspace] of <ctype.h> in the C locale: space, \t, \n, \v, \f, \r. *)
Definition isspace (c : Z) : bool := (c =? 32) || ((9 <=? c) && (c <=? 13)).

(** ** Lua values, as far as the binding looks at them *)

Inductive lua_type_t :=
| LUA_TNONE | LUA_TNIL | LUA_TBOOLEAN | LUA_TNUMBER | LUA_TSTRING
| LUA_TTABLE | LUA_TFUNCTION | LUA_TUSERDATA.

(** Numbers are Lua integers; a table is the sequence [t[1] .. t[#t]];
    functions and userdata are named by an identifier. *)
Inductive lua_value :=
| LNil
| LBool (b : bool)
| LInt (n : Z)
| LStr (s : bytes)
| LTable (elems : list lua_value)
| LFunc (id : Z)
| LUserdata (id : Z).

Definition lua_type_of (v : lua_value) : lua_type_t :=
  match v with
  | LNil => LUA_TNIL
  | LBool _ => LUA_TBOOLEAN
  | LInt _ => LUA_TNUMBER
  | LStr _ => LUA_TSTRING
  | LTable _ => LUA_TTABLE
  | LFunc _ => LUA_TFUNCTION
  | LUserdata _ => LUA_TUSERDATA
  end.

(** Argument [n] (1-based, counted after [arg_base]) of a call. *)
Definition lua_arg (args : list lua_value) (n : nat) : option lua_value :=
  nth_error args (n - 1).

(** [lua_type(L, arg_base+n)]: [LUA_TNONE] beyond the top of the stack. *)
Definition lua_type (args : list lua_value) (n : nat) : lua_type_t :=
  match lua_arg args n with
  | Some v => lua_type_of v
  | None => LUA_TNONE
  end.

(** [lua_gettop(L) >= arg_base+n]. *)
Definition has_arg (args : list lua_value) (n : nat) : bool :=
  (n <=? length args)%nat.

(** [lua_toboolean]: everything but [nil] and [false] is true. *)
Definition lua_toboolean (v : option lua_value) : bool :=
  match v with
  | None | Some LNil | Some (LBool false) => false
  | Some _ => true
  end.

(** ** Errors raised to the script

    One constructor per [luaL_error] message of the binding, named after
    the error taxonomy of the design. *)
Inductive lua_error :=
| ObjectLocked         (* "Object is locked and can not be accessed anymore" *)
| InvalidMethod        (* "Invalid method %s of object %s" *)
| InvalidArgument      (* luaL_check*, "Invalid argument passed", "... expected" *)
| OptionTooLarge       (* "Invalid argument: array size larger than %d bytes" *)
| OptionOrderViolation (* "coap_add_option() failed; check order of added options" *)
| InvalidToken         (* "Token must be 8 bytes long max" *)
| TokenOrderViolation  (* "coap_add_token() failed; check order of adding the token" *)
| WrongSendPath        (* "Use this routine for messages created by new_msg()" *)
| TooManyFilterArgs    (* "Number of arguments exceeded %d" *)
| InvalidIteratorCall. (* "Invalid iterator call" *)

(** A call returns, raises a Lua error (a [longjmp] out of the C function)
    or trips an [assert], which aborts the process. *)
Inductive result (A : Type) :=
| Ok (a : A)
| Raise (e : lua_error)
| Abort.
Arguments Ok {A} a.
Arguments Raise {A} e.
Arguments Abort {A}.

#[global] Instance result_ret : MRet result := fun A a => Ok a.

#[global] Instance result_fmap : FMap result := fun A B f r =>
  match r with
  | Ok a => Ok (f a)
  | Raise e => Raise e
  | Abort => Abort
  end.

#[global] Instance result_bind : MBind result := fun A B k r =>
  match r with
  | Ok a => k a
  | Raise e => Raise e
  | Abort => Abort
  end.

(** ** Lua's conversion of a string to an integer

    Where Lua wants an integer it takes a string that holds a numeral:
    [luaO_str2num] reads the string as an integer ([l_str2int]) or else as
    a float ([l_str2d], that is [strtod] in the C locale), and a float counts
    when its value is an integer in the range of [lua_Integer]
    ([luaV_tointeger], [lua_numbertointeger]); Lua 5.3.3 and later. *)

Definition lisdigit (c : Z) : bool := (48 <=? c) && (c <=? 57).
Definition lisxdigit (c : Z) : bool :=
  lisdigit c || ((97 <=? c) && (c <=? 102)) || ((65 <=? c) && (c <=? 70)).

(** [luaO_hexavalue] *)
Definition luaO_hexavalue (c : Z) : Z :=
  if lisdigit c then c - 48
  else if 97 <=? c then c - 97 + 10
  else c - 65 + 10.

(** The loops that skip white space ([lisspace]). *)
Fixpoint skip_spaces (s : bytes) : bytes :=
  match s with
  | [] => []
  | c :: s' => if isspace c then skip_spaces s' else s
  end.

(** The longest prefix of bytes of one class, and what follows it. *)
Fixpoint span_class (f : Z -> bool) (s : bytes) : bytes * bytes :=
  match s with
  | [] => ([], [])
  | c :: s' =>
      if f c then let '(ds, rest) := span_class f s' in (c :: ds, rest)
      else ([], s)
  end.

(** [isneg]: an optional sign. *)
Definition isneg (s : bytes) : bool * bytes :=
  match s with
  | c :: s' => if c =? 45 then (true, s') else if c =? 43 then (false, s') else (false, s)
  | [] => (false, s)
  end.

(** Is [s] at the prefix [0x] or [0X]. *)
Definition at_hex_prefix (s : bytes) : bool :=
  match s with
  | c :: x :: _ => (c =? 48) && ((x =? 120) || (x =? 88))
  | _ => false
  end.

Definition digits_value (base : Z) (ds : bytes) : Z :=
  fold_left (fun a c => a * base + luaO_hexavalue c) ds 0.

Definition LUA_MAXINTEGER : Z := 2 ^ 63 - 1.
Definition LUA_MININTEGER : Z := - 2 ^ 63.

(** [l_castU2S]: a [lua_Unsigned] read as a [lua_Integer]. *)
Definition l_castU2S (a : Z) : Z := (a + 2 ^ 63) mod 2 ^ 64 - 2 ^ 63.

(** [l_str2int]: a hexadecimal numeral wraps around, a decimal one that
    does not fit a [lua_Integer] is not accepted as an integer. *)
Definition l_str2int (s : bytes) : option Z :=
  let '(neg, s1) := isneg (skip_spaces s) in
  let hex := at_hex_prefix s1 in
  let '(ds, rest) := if hex then span_class lisxdigit (drop 2 s1)
                     else span_class lisdigit s1 in
  let a := digits_value (if hex then 16 else 10) ds in
  if negb hex && (LUA_MAXINTEGER + (if neg then 1 else 0) <? a) then None
  else
    match ds, skip_spaces rest with
    | _ :: _, [] => Some (l_castU2S (if neg then - a else a))
    | _, _ => None
    end.

(** The numeral [strtod] accepts when it is the whole string: sign,
    digits with an optional point, optional exponent ([e] for a decimal
    numeral, [p] for a hexadecimal one).  The result is the sign, the
    digits read as one number [m], the base [b] and the exponent [e] of
    the value [m * b ^ e]. *)
Definition str2d_numeral (s : bytes) : option (bool * Z * Z * Z) :=
  let '(neg, s1) := isneg (skip_spaces s) in
  let hex := at_hex_prefix s1 in
  let is_digit := if hex then lisxdigit else lisdigit in
  let '(int_part, s2) := span_class is_digit (if hex then drop 2 s1 else s1) in
  let '(frac_part, s3) :=
    match s2 with
    | c :: s2' => if c =? 46 then span_class is_digit s2' else ([], s2)
    | [] => ([], s2)
    end in
  let '(exponent, s4) :=
    match s3 with
    | c :: s3' =>
        if (if hex then (c =? 112) || (c =? 80) else (c =? 101) || (c =? 69)) then
          let '(eneg, s3'') := isneg s3' in
          let '(eds, s4) := span_class lisdigit s3'' in
          match eds with
          | [] => (0, s3)
          | _ => (if eneg then - digits_value 10 eds else digits_value 10 eds, s4)
          end
        else (0, s3)
    | [] => (0, s3)
    end in
  match int_part ++ frac_part, skip_spaces s4 with
  | _ :: _, [] =>
      Some (neg, digits_value (if hex then 16 else 10) (int_part ++ frac_part),
            if hex then 2 else 10,
            exponent - (if hex then 4 else 1) * Z.of_nat (length frac_part))
  | _, _ => None
  end.

(** [n / d] rounded to the nearest integer, ties to even. *)
Definition round_to_even (n d : Z) : Z :=
  let k := n / d in
  let r := n mod d in
  if 2 * r <? d then k
  else if d <? 2 * r then k + 1
  else if Z.even k then k else k + 1.

(** The exponent [e] with [2 ^ e <= num / den < 2 ^ (e + 1)], for
    positive [num] and [den]. *)
Definition floor_log2_ratio (num den : Z) : Z :=
  let e0 := Z.log2 num - Z.log2 den in
  if (if 0 <=? e0 then den * 2 ^ e0 <=? num else den <=? num * 2 ^ (- e0))
  then e0 else e0 - 1.

(** The double nearest to [num / den] (53 bits, exponents from -1074 on),
    when it is an integer: what [strtod] followed by the test [n == floor(n)]
    finds. *)
Definition binary64_integer (num den : Z) : option Z :=
  if num =? 0 then Some 0
  else
    let q := Z.max (floor_log2_ratio num den - 52) (- 1074) in
    if 0 <=? q then Some (round_to_even num (den * 2 ^ q) * 2 ^ q)
    else
      let m := round_to_even (num * 2 ^ (- q)) den in
      if m mod 2 ^ (- q) =? 0 then Some (m / 2 ^ (- q)) else None.

(** [l_str2d] and the conversion of the float to an integer. *)
Definition l_str2d_integer (s : bytes) : option Z :=
  match str2d_numeral s with
  | Some (neg, m, b, e) =>
      match (if 0 <=? e then binary64_integer (m * b ^ e) 1
             else binary64_integer m (b ^ (- e))) with
      | Some n =>
          let f := if neg then - n else n in
          if (LUA_MININTEGER <=? f) && (f <? - LUA_MININTEGER) then Some f else None
      | None => None
      end
  | None => None
  end.

(** The integer a Lua string converts to, if any; a string with a NUL in
    it never converts. *)
Definition lua_str2integer (s : bytes) : option Z :=
  if existsb (Z.eqb 0) s then None
  else match l_str2int s with
       | Some n => Some n
       | None => l_str2d_integer s
       end.

(** [lua_tointeger]: 0 when the value does not convert to an integer. *)
Definition lua_tointeger (v : lua_value) : Z :=
  match v with
  | LInt n => n
  | LStr s => default 0 (lua_str2integer s)
  | _ => 0
  end.

(** [luaL_checkinteger]: an integer, or a string that converts to one. *)
Definition luaL_checkinteger (args : list lua_value) (n : nat) : result Z :=
  match lua_arg args n with
  | Some (LInt z) => Ok z
  | Some (LStr s) =>
      match lua_str2integer s with
      | Some z => Ok z
      | None => Raise InvalidArgument
      end
  | _ => Raise InvalidArgument
  end.

(** The string Lua makes of an integer ([lua_tolstring] on a number). *)
Definition lua_integer_string (n : Z) : bytes :=
  bytes_of_string (NilZero.string_of_int (Z.to_int n)).

(** [luaL_checkstring] with [luaL_len]: a string, or a number, which Lua
    converts to a string in place. *)
Definition luaL_checkstring (args : list lua_value) (n : nat) : result bytes :=
  match lua_arg args n with
  | Some (LStr s) => Ok s
  | Some (LInt z) => Ok (lua_integer_string z)
  | _ => Raise InvalidArgument
  end.

(** ** The CoAP engine (libcoap), as far as the binding relies on it

    libcoap is an external collaborator, not part of this repository; what
    follows is the part of its interface the binding calls. *)

(** Modelled from the spec: libcoap's [coap_pdu_t]: "message type, code,
    numeric message id (16-bit), token (0-8 raw bytes), ordered sequence of
    options (type, raw-byte value), payload (raw bytes)".  The options are
    kept in the order they were added, with their absolute type numbers. *)
Record coap_pdu_t := mk_pdu {
  pdu_type : Z;
  pdu_code : Z;
  pdu_tid : Z;
  pdu_token : bytes;
  pdu_options : list (Z * bytes);
  pdu_data : bytes
}.

Definition set_pdu_type (p : coap_pdu_t) (v : Z) : coap_pdu_t :=
  mk_pdu v (pdu_code p) (pdu_tid p) (pdu_token p) (pdu_options p) (pdu_data p).
Definition set_pdu_code (p : coap_pdu_t) (v : Z) : coap_pdu_t :=
  mk_pdu (pdu_type p) v (pdu_tid p) (pdu_token p) (pdu_options p) (pdu_data p).
Definition set_pdu_tid (p : coap_pdu_t) (v : Z) : coap_pdu_t :=
  mk_pdu (pdu_type p) (pdu_code p) v (pdu_token p) (pdu_options p) (pdu_data p).
Definition set_pdu_token (p : coap_pdu_t) (v : bytes) : coap_pdu_t :=
  mk_pdu (pdu_type p) (pdu_code p) (pdu_tid p) v (pdu_options p) (pdu_data p).
Definition set_pdu_options (p : coap_pdu_t) (v : list (Z * bytes)) : coap_pdu_t :=
  mk_pdu (pdu_type p) (pdu_code p) (pdu_tid p) (pdu_token p) v (pdu_data p).
Definition set_pdu_data (p : coap_pdu_t) (v : bytes) : coap_pdu_t :=
  mk_pdu (pdu_type p) (pdu_code p) (pdu_tid p) (pdu_token p) (pdu_options p) v.

(** Modelled from the spec: the message types and option numbers of
    libcoap's [pdu.h], which "follow the standard CoAP specification"
    (RFC 7252, 7641, 7959, 7967). *)
Definition COAP_MESSAGE_CON : Z := 0.
Definition COAP_MESSAGE_NON : Z := 1.
Definition COAP_MESSAGE_ACK : Z := 2.
Definition COAP_MESSAGE_RST : Z := 3.

Definition COAP_OPTION_IF_MATCH : Z := 1.
Definition COAP_OPTION_URI_HOST : Z := 3.
Definition COAP_OPTION_ETAG : Z := 4.
Definition COAP_OPTION_IF_NONE_MATCH : Z := 5.
Definition COAP_OPTION_OBSERVE : Z := 6.
Definition COAP_OPTION_URI_PORT : Z := 7.
Definition COAP_OPTION_LOCATION_PATH : Z := 8.
Definition COAP_OPTION_URI_PATH : Z := 11.
Definition COAP_OPTION_CONTENT_FORMAT : Z := 12.
Definition COAP_OPTION_MAXAGE : Z := 14.
Definition COAP_OPTION_URI_QUERY : Z := 15.
Definition COAP_OPTION_ACCEPT : Z := 17.
Definition COAP_OPTION_LOCATION_QUERY : Z := 20.
Definition COAP_OPTION_BLOCK2 : Z := 23.
Definition COAP_OPTION_BLOCK1 : Z := 27.
Definition COAP_OPTION_SIZE2 : Z := 28.
Definition COAP_OPTION_PROXY_URI : Z := 35.
Definition COAP_OPTION_PROXY_SCHEME : Z := 39.
Definition COAP_OPTION_SIZE1 : Z := 60.
Definition COAP_OPTION_NORESPONSE : Z := 258.

Definition COAP_INVALID_TID : Z := -1.

(** Modelled from the spec: libcoap's macro [COAP_RESPONSE_CODE(N)],
    [(((N)/100 << 5) | (N)%100)], for the "code (class.detail, e.g. 2.05)",
    as stored in the [uint8_t] code field. *)
Definition COAP_RESPONSE_CODE (n : Z) : Z :=
  to_uint8 (Z.lor (Z.shiftl (Z.quot n 100) 5) (Z.rem n 100)).

(** Modelled from the spec: the type of the option added last
    ([pdu->max_delta] of libcoap). *)
Definition pdu_max_delta (p : coap_pdu_t) : Z :=
  match last (pdu_options p) with
  | Some (t, _) => t
  | None => 0
  end.

(** Modelled from the spec: libcoap's [coap_add_option]: option "types must
    be added in non-decreasing numeric order"; [None] is the 0 it returns
    otherwise.  The size limit of a PDU is left out. *)
Definition coap_add_option (p : coap_pdu_t) (type : Z) (val : bytes)
  : option coap_pdu_t :=
  if type <? pdu_max_delta p then None
  else Some (set_pdu_options p (pdu_options p ++ [(type, val)])).

(** Modelled from the spec: libcoap's [coap_add_data], which sets the
    "payload (raw bytes)"; nothing to do for a zero length. *)
Definition coap_add_data (p : coap_pdu_t) (data : bytes) : coap_pdu_t :=
  match data with
  | [] => p
  | _ => set_pdu_data p data
  end.

(** Modelled from the spec: libcoap's [coap_opt_iterator_t], the "engine
    cursor plus the originally-requested type filter".  [oi_filter] is the
    set of wanted types when [oi_filtered]; [COAP_OPT_ALL] is no filter. *)
Record coap_opt_iterator_t := mk_oi {
  oi_rest : list (Z * bytes);
  oi_bad : bool;
  oi_filtered : bool;
  oi_filter : list Z;
  oi_type : Z
}.

Definition filter_has (filter : list Z) (t : Z) : bool :=
  existsb (Z.eqb t) filter.

(** Modelled from the spec: libcoap's [coap_option_iterator_init]: the
    boolean is false for the NULL it returns on a PDU with neither options
    nor payload; the cursor is then marked bad. *)
Definition coap_option_iterator_init (p : coap_pdu_t) (filter : option (list Z))
  : bool * coap_opt_iterator_t :=
  let empty := match pdu_options p, pdu_data p with
               | [], [] => true
               | _, _ => false
               end in
  (negb empty,
   mk_oi (pdu_options p) empty
         (match filter with Some _ => true | None => false end)
         (match filter with Some f => f | None => [] end)
         0).

(** Modelled from the spec: the loop of libcoap's [coap_option_next],
    which skips to the first option the filter lets through. *)
Fixpoint oi_scan (filtered : bool) (filter : list Z) (rest : list (Z * bytes))
  : option ((Z * bytes) * list (Z * bytes)) :=
  match rest with
  | [] => None
  | o :: rest' =>
      if negb filtered || filter_has filter (fst o) then Some (o, rest')
      else oi_scan filtered filter rest'
  end.

(** Modelled from the spec: libcoap's [coap_option_next]: the next option
    in "the underlying ascending option-type order", or NULL when the
    cursor is bad or the options are used up (running out while skipping
    marks it bad). *)
Definition coap_option_next (oi : coap_opt_iterator_t)
  : option (Z * bytes) * coap_opt_iterator_t :=
  if oi_bad oi then (None, oi)
  else match oi_rest oi with
       | [] => (None, oi)
       | _ =>
           match oi_scan (oi_filtered oi) (oi_filter oi) (oi_rest oi) with
           | Some (o, rest') =>
               (Some o, mk_oi rest' false (oi_filtered oi) (oi_filter oi) (fst o))
           | None =>
               (None, mk_oi [] true (oi_filtered oi) (oi_filter oi) (oi_type oi))
           end
       end.

(** The options successive calls of [coap_option_next] deliver, for the
    loops [for (opt = coap_option_next(&oi); opt; opt = coap_option_next(&oi))]. *)
Fixpoint oi_drain (filtered : bool) (filter : list Z) (rest : list (Z * bytes))
  : list (Z * bytes) :=
  match rest with
  | [] => []
  | o :: rest' =>
      if negb filtered || filter_has filter (fst o)
      then o :: oi_drain filtered filter rest'
      else oi_drain filtered filter rest'
  end.

Definition coap_options_of (oi : coap_opt_iterator_t) : list (Z * bytes) :=
  if oi_bad oi then [] else oi_drain (oi_filtered oi) (oi_filter oi) (oi_rest oi).

(** ** The binding's objects *)

Inductive coap_optval_type_t :=
| OPTVAL_UNKNWN | OPTVAL_UINT | OPTVAL_STRING | OPTVAL_OPAQUE.

Definition ACS_NO_HNDLR : Z := 0.
Definition ACS_REQ_HNDLR : Z := 1.
Definition ACS_RESP_HNDLR : Z := 2.
Definition ACS_NACK_HNDLR : Z := 3.

(** [ud_coap_pdu_t]: the PDU, the session it came with, the default code
    and the access bit-field. *)
Record ud_coap_pdu_t := mk_ud {
  ud_pdu : coap_pdu_t;
  ud_session : option Z;
  ud_def_code : Z;
  access_ro : bool;
  access_lck : bool;
  access_hndlr : Z
}.

Definition MAX_QSTR_PARAMS_ARGS : nat := 10.

(** ** Message id *)

(** [l_coap_pdu_get_msg_id] *)
Definition l_coap_pdu_get_msg_id (p : coap_pdu_t) : list lua_value :=
  [LInt (pdu_tid p)].

(** [l_coap_pdu_set_msg_id]: [int msg_id] then [(uint16_t)msg_id]. *)
Definition l_coap_pdu_set_msg_id (p : coap_pdu_t) (args : list lua_value)
  : result coap_pdu_t :=
  v ← luaL_checkinteger args 1;
  let msg_id := to_int v in
  Ok (set_pdu_tid p (to_uint16 msg_id)).

(** ** Option codec *)

(** [_get_coap_optval_type] *)
Definition _get_coap_optval_type (opt_type : Z) : coap_optval_type_t :=
  if (opt_type =? COAP_OPTION_IF_NONE_MATCH) || (opt_type =? COAP_OPTION_OBSERVE)
     || (opt_type =? COAP_OPTION_URI_PORT) || (opt_type =? COAP_OPTION_CONTENT_FORMAT)
     || (opt_type =? COAP_OPTION_MAXAGE) || (opt_type =? COAP_OPTION_ACCEPT)
     || (opt_type =? COAP_OPTION_BLOCK2) || (opt_type =? COAP_OPTION_BLOCK1)
     || (opt_type =? COAP_OPTION_SIZE2) || (opt_type =? COAP_OPTION_SIZE1)
     || (opt_type =? COAP_OPTION_NORESPONSE)
  then OPTVAL_UINT
  else if (opt_type =? COAP_OPTION_URI_HOST) || (opt_type =? COAP_OPTION_LOCATION_PATH)
     || (opt_type =? COAP_OPTION_URI_PATH) || (opt_type =? COAP_OPTION_URI_QUERY)
     || (opt_type =? COAP_OPTION_LOCATION_QUERY) || (opt_type =? COAP_OPTION_PROXY_URI)
     || (opt_type =? COAP_OPTION_PROXY_SCHEME)
  then OPTVAL_STRING
  else if (opt_type =? COAP_OPTION_IF_MATCH) || (opt_type =? COAP_OPTION_ETAG)
  then OPTVAL_OPAQUE
  else OPTVAL_UNKNWN.

(** The accumulation [v = (v << 8) | opt_val[i]] on a [uint32_t]. *)
Definition decode_uint (opt_val : bytes) : Z :=
  fold_left (fun v b => Z.lor (to_uint32 (Z.shiftl v 8)) b) opt_val 0.

(** [_push_coap_opt_val]: the Lua value pushed for an option's raw value. *)
Definition _push_coap_opt_val (opt_val : bytes) (opt_type : Z) : lua_value :=
  match opt_val with
  | [] => LNil
  | _ =>
      match _get_coap_optval_type opt_type with
      | OPTVAL_UINT => LInt (decode_uint opt_val)
      | OPTVAL_STRING => LStr opt_val
      | OPTVAL_OPAQUE | OPTVAL_UNKNWN => LTable (map LInt opt_val)
      end
  end.

(** "convert to network order": [val_b[j] = (val_i >> (i << 3)) & 0xff] for
    [i] from 3 down to 0. *)
Definition network_order (val_i : Z) : bytes :=
  map (fun i => to_uint8 (Z.land (Z.shiftr val_i (Z.shiftl i 3)) 255)) [3; 2; 1; 0].

(** "cut leading zeroes": [for (; !*opt_val && opt_len > 1; opt_val++, opt_len--)]. *)
Fixpoint cut_leading_zeroes (opt_val : bytes) : bytes :=
  match opt_val with
  | b :: (_ :: _) as rest => if b =? 0 then cut_leading_zeroes rest else opt_val
  | _ => opt_val
  end.

(** The [OPTVAL_UINT] case of [l_coap_pdu_set_option]. *)
Definition encode_uint (v : Z) : bytes :=
  let val_i := to_uint32 v in
  cut_leading_zeroes (network_order val_i).

(** The copy loop of the [OPTVAL_OPAQUE] case: every element has to be a
    number and is narrowed to [uint8_t]. *)
Fixpoint bytes_of_table (elems : list lua_value) : result bytes :=
  match elems with
  | [] => Ok []
  | e :: elems' =>
      match lua_type_of e with
      | LUA_TNUMBER =>
          rest ← bytes_of_table elems';
          Ok (to_uint8 (lua_tointeger e) :: rest)
      | _ => Raise InvalidArgument
      end
  end.

(** The [OPTVAL_OPAQUE] case of [l_coap_pdu_set_option]; [val_b] has 255
    bytes. *)
Definition encode_opaque (args : list lua_value) : result bytes :=
  match lua_arg args 2 with
  | Some (LTable elems) =>
      if (255 <? length elems)%nat then Raise OptionTooLarge
      else bytes_of_table elems
  | _ => Raise InvalidArgument
  end.

(** [l_coap_pdu_set_option].  The engine takes the option type as a
    [uint16_t]: [coap_add_option] gets the [int] narrowed. *)
Definition l_coap_pdu_set_option (p : coap_pdu_t) (args : list lua_value)
  : result coap_pdu_t :=
  v ← luaL_checkinteger args 1;
  let opt_type := to_int v in
  opt_val ←
    (if has_arg args 2 then
       optval_type ←
         match _get_coap_optval_type opt_type with
         | OPTVAL_UNKNWN =>
             match lua_type args 2 with
             | LUA_TNUMBER => Ok OPTVAL_UINT
             | LUA_TSTRING => Ok OPTVAL_STRING
             | LUA_TTABLE => Ok OPTVAL_OPAQUE
             | _ => Raise InvalidArgument
             end
         | t => Ok t
         end;
       match optval_type with
       | OPTVAL_UINT => val ← luaL_checkinteger args 2; Ok (encode_uint val)
       | OPTVAL_STRING => luaL_checkstring args 2
       | OPTVAL_OPAQUE => encode_opaque args
       | OPTVAL_UNKNWN => Ok []
       end
     else Ok []);
  match coap_add_option p (to_uint16 opt_type) opt_val with
  | Some p' => Ok p'
  | None => Raise OptionOrderViolation
  end.

(** [l_coap_pdu_get_option]: the first option of the type, and whether
    there is one.  [coap_option_filter_set] takes the type as a [uint16_t],
    the value is decoded by the [int] the script gave. *)
Definition l_coap_pdu_get_option (p : coap_pdu_t) (args : list lua_value)
  : result (list lua_value) :=
  v ← luaL_checkinteger args 1;
  let opt_type := to_int v in
  let '(ok, oi) := coap_option_iterator_init p (Some [to_uint16 opt_type]) in
  if ok then
    match fst (coap_option_next oi) with
    | Some opt => Ok [_push_coap_opt_val (snd opt) opt_type; LBool true]
    | None => Ok [LNil; LBool false]
    end
  else Ok [LNil; LBool false].

(** ** Whitespace trimming ([src/common.c]) *)

(** [s[i]], and the [l] bytes of [s] from index [b] on. *)
Definition byte_at (s : bytes) (i : Z) : Z := nth (Z.to_nat i) s 0.
Definition sub (b l : Z) (s : bytes) : bytes :=
  take (Z.to_nat l) (drop (Z.to_nat b) s).

(** The [while (s < e)] loop of [strtrim], on indices into the string.
    Every round moves one of the two indices towards the other, so
    [e - s] rounds are enough. *)
Fixpoint strtrim_loop (rounds : nat) (str : bytes) (s e : Z) : Z * Z :=
  match rounds with
  | O => (s, e)
  | S rounds' =>
      if s <? e then
        if isspace (byte_at str s) then strtrim_loop rounds' str (s + 1) e
        else if isspace (byte_at str e) then strtrim_loop rounds' str s (e - 1)
        else (s, e)
      else (s, e)
  end.

(** [strtrim(s, &len)]: the trimmed string, whose length is the new
    [*len]. *)
Definition strtrim (str : bytes) : bytes :=
  let len := Z.of_nat (length str) in
  let '(s, e) := strtrim_loop (length str) str 0 (len - 1) in
  let len' := if s <=? e then e - s + 1 else 0 in
  sub s len' str.

(** ** Query string parameters *)

(** The value of [*name_len] after the search for ['=']. *)
Fixpoint find_eq (qstr : bytes) : nat :=
  match qstr with
  | [] => O
  | c :: qstr' => if c =? 61 then O else S (find_eq qstr')
  end.

(** The parsing part of [_parse_next_coap_qstr_param], for one option
    value: name and value, each trimmed when not empty. *)
Definition parse_qstr (qstr : bytes) : bytes * bytes :=
  let name_len := find_eq qstr in
  let name := take name_len qstr in
  let val := drop (S name_len) qstr in
  (match name with [] => name | _ => strtrim name end,
   match val with [] => val | _ => strtrim val end).

(** [_parse_next_coap_qstr_param]: [None] is the 0 it returns after the
    last option. *)
Definition _parse_next_coap_qstr_param (iter : coap_opt_iterator_t)
  : option (bytes * bytes) * coap_opt_iterator_t :=
  match coap_option_next iter with
  | (Some opt, iter') => (Some (parse_qstr (snd opt)), iter')
  | (None, iter') => (None, iter')
  end.

(** ** The Lua registry *)

(** The registry with its references and the global variables;
    [unref_log] records the calls of [luaL_unref], [next_ref] is the next
    reference [luaL_ref] hands out (the reuse of freed references is left
    out). *)
Record lua_State := mk_L {
  globals : gmap string lua_value;
  registry : gmap Z lua_value;
  next_ref : Z;
  unref_log : list Z
}.

Definition LUA_NOREF : Z := -2.

Definition luaL_ref (L : lua_State) (v : lua_value) : Z * lua_State :=
  (next_ref L,
   mk_L (globals L) (<[next_ref L := v]> (registry L)) (next_ref L + 1)
        (unref_log L)).

Definition luaL_unref (L : lua_State) (ref : Z) : lua_State :=
  mk_L (globals L) (delete ref (registry L)) (next_ref L) (unref_log L ++ [ref]).

(** ** Query string parameter iterator *)

(** [coap_qstr_param_iter_state_t]; [qs_refs] is the array of
    [MAX_QSTR_PARAMS_ARGS] references. *)
Record coap_qstr_param_iter_state_t := mk_qs {
  n_refs : nat;
  qs_refs : list Z;
  qs_iter : coap_opt_iterator_t
}.

(** [_free_coap_qstr_param_iter_state] *)
Definition _free_coap_qstr_param_iter_state
    (L : lua_State) (st : coap_qstr_param_iter_state_t)
  : lua_State * coap_qstr_param_iter_state_t :=
  (fold_left luaL_unref (take (n_refs st) (qs_refs st)) L,
   mk_qs O (qs_refs st) (qs_iter st)).

(** The filter loop: is [name] the string some reference [refs[i]],
    [i < n_refs], stands for.  The references are those of strings as long
    as the state holds them. *)
Definition name_in_filter (L : lua_State) (st : coap_qstr_param_iter_state_t)
    (name : bytes) : bool :=
  existsb (fun ref => match registry L !! ref with
                      | Some (LStr name_f) => bool_decide (name_f = name)
                      | _ => false
                      end)
          (take (n_refs st) (qs_refs st)).

(** The [next_iter:] loop of [_coap_qstr_param_iter].  Each round takes at
    least one option off the cursor; [None] is only for running out of
    rounds. *)
Fixpoint _coap_qstr_param_iter_loop (rounds : nat)
    (L : lua_State) (st : coap_qstr_param_iter_state_t)
  : option (list lua_value * lua_State * coap_qstr_param_iter_state_t) :=
  match rounds with
  | O => None
  | S rounds' =>
      if oi_bad (qs_iter st) then
        let '(L', st') := _free_coap_qstr_param_iter_state L st in
        Some ([LNil], L', st')
      else
        match _parse_next_coap_qstr_param (qs_iter st) with
        | (None, iter') =>
            let '(L', st') :=
              _free_coap_qstr_param_iter_state L (mk_qs (n_refs st) (qs_refs st) iter') in
            Some ([LNil], L', st')
        | (Some (name, val), iter') =>
            let st' := mk_qs (n_refs st) (qs_refs st) iter' in
            match name with
            | [] => _coap_qstr_param_iter_loop rounds' L st'
            | _ =>
                let found := (n_refs st =? 0)%nat || name_in_filter L st name in
                if found then
                  Some ([LStr name; match val with [] => LNil | _ => LStr val end],
                        L, st')
                else _coap_qstr_param_iter_loop rounds' L st'
            end
        end
  end.

(** [_coap_qstr_param_iter]: [None] for the state is a first argument that
    is no userdata. *)
Definition _coap_qstr_param_iter (L : lua_State)
    (state : option coap_qstr_param_iter_state_t)
  : option (result (list lua_value) * lua_State * option coap_qstr_param_iter_state_t) :=
  match state with
  | None => Some (Raise InvalidIteratorCall, L, None)
  | Some st =>
      match _coap_qstr_param_iter_loop (S (length (oi_rest (qs_iter st)))) L st with
      | Some (vals, L', st') => Some (Ok vals, L', Some st')
      | None => None
      end
  end.

(** The loop of [l_coap_pdu_qstr_params] that keeps a reference to a copy of
    each argument. *)
Fixpoint ref_args (i : nat) (names : list lua_value)
    (L : lua_State) (st : coap_qstr_param_iter_state_t)
  : lua_State * coap_qstr_param_iter_state_t :=
  match names with
  | [] => (L, st)
  | v :: names' =>
      let '(ref, L') := luaL_ref L v in
      ref_args (S i) names' L'
               (mk_qs (S (n_refs st)) (<[i := ref]> (qs_refs st)) (qs_iter st))
  end.

(** [luaL_checkstring] on every argument; the arguments as they are on the
    stack afterwards. *)
Fixpoint check_strings (i : nat) (args : list lua_value) (n : nat)
  : result (list lua_value) :=
  match n with
  | O => Ok []
  | S n' =>
      s ← luaL_checkstring args i;
      rest ← check_strings (S i) args n';
      Ok (LStr s :: rest)
  end.

(** [l_coap_pdu_qstr_params] *)
Definition l_coap_pdu_qstr_params (L : lua_State) (p : coap_pdu_t)
    (args : list lua_value)
  : result (lua_State * coap_qstr_param_iter_state_t) :=
  let n_args := length args in
  if (MAX_QSTR_PARAMS_ARGS <? n_args)%nat then Raise TooManyFilterArgs
  else
    names ← check_strings 1 args n_args;
    let st0 := mk_qs O (replicate MAX_QSTR_PARAMS_ARGS 0) (mk_oi [] false false [] 0) in
    let '(L', st) := ref_args O names L st0 in
    let '(_, iter) := coap_option_iterator_init p (Some [COAP_OPTION_URI_QUERY]) in
    Ok (L', mk_qs (n_refs st) (qs_refs st) iter).

(** The [next_iter:] loop of [l_coap_pdu_get_qstr_param], over the options
    its calls of [_parse_next_coap_qstr_param] deliver. *)
Fixpoint get_qstr_param_loop (qstr_param : bytes) (opts : list (Z * bytes))
  : list lua_value :=
  match opts with
  | [] => [LNil; LBool false]
  | opt :: opts' =>
      let '(name, val) := parse_qstr (snd opt) in
      match name with
      | [] => get_qstr_param_loop qstr_param opts'
      | _ =>
          if bool_decide (qstr_param = name) then
            [match val with [] => LNil | _ => LStr val end; LBool true]
          else get_qstr_param_loop qstr_param opts'
      end
  end.

(** [l_coap_pdu_get_qstr_param] *)
Definition l_coap_pdu_get_qstr_param (p : coap_pdu_t) (args : list lua_value)
  : result (list lua_value) :=
  qstr_param ← luaL_checkstring args 1;
  let '(ok, oi) := coap_option_iterator_init p (Some [COAP_OPTION_URI_QUERY]) in
  if ok then Ok (get_qstr_param_loop qstr_param (coap_options_of oi))
  else Ok [LNil; LBool false].

(** ** Option iterator *)

(** [luaL_checkinteger] on every argument, collecting the filter. *)
Fixpoint check_integers (i : nat) (args : list lua_value) (n : nat) : result (list Z) :=
  match n with
  | O => Ok []
  | S n' =>
      v ← luaL_checkinteger args i;
      rest ← check_integers (S i) args n';
      Ok (to_int v :: rest)
  end.

(** [l_coap_pdu_options].  [coap_option_filter_set] takes each type as a
    [uint16_t]; the filter is the set of the narrowed types (that libcoap's
    filter holds no more than 6 types up to 255 and 2 above is left
    out). *)
Definition l_coap_pdu_options (p : coap_pdu_t) (args : list lua_value)
  : result coap_opt_iterator_t :=
  let n_args := length args in
  filter ← check_integers 1 args n_args;
  Ok (snd (coap_option_iterator_init p
             (match n_args with O => None | _ => Some (map to_uint16 filter) end))).

(** [_coap_option_iter] *)
Definition _coap_option_iter (state : option coap_opt_iterator_t)
  : result (list lua_value) * option coap_opt_iterator_t :=
  match state with
  | None => (Raise InvalidIteratorCall, None)
  | Some opt_iter =>
      if oi_bad opt_iter then (Ok [LNil], Some opt_iter)
      else
        match coap_option_next opt_iter with
        | (None, oi') => (Ok [LNil], Some oi')
        | (Some opt, oi') =>
            (Ok [LInt (oi_type oi'); _push_coap_opt_val (snd opt) (oi_type oi')],
             Some oi')
        end
  end.

(** ** URI path *)

(** The string branch of [l_coap_pdu_get_uri_path]: ['/'] and the value of
    every option that has one are appended to [str]. *)
Fixpoint uri_path_str (opts : list (Z * bytes)) : bytes :=
  match opts with
  | [] => []
  | (_, opt_val) :: opts' =>
      match opt_val with
      | [] => uri_path_str opts'
      | _ => (47 :: opt_val) ++ uri_path_str opts'
      end
  end.

(** The array branch: [t[i+1]] is set for the options with a value and not
    set for the others.  The table is given by its values from index 1 up
    to the last index set; an index in between that is not set reads
    [nil]. *)
Fixpoint uri_path_arr (opts : list (Z * bytes)) : list lua_value :=
  match opts with
  | [] => []
  | o :: opts' =>
      match snd o, uri_path_arr opts' with
      | [], [] => []
      | [], rest => LNil :: rest
      | opt_val, rest => LStr opt_val :: rest
      end
  end.

(** [l_coap_pdu_get_uri_path] *)
Definition l_coap_pdu_get_uri_path (p : coap_pdu_t) (args : list lua_value)
  : list lua_value :=
  let '(ok, oi) := coap_option_iterator_init p (Some [COAP_OPTION_URI_PATH]) in
  if ok then
    let as_arr := if has_arg args 1 then lua_toboolean (lua_arg args 1) else false in
    let opts := coap_options_of oi in
    if as_arr then
      match opts with
      | [] => [LNil]
      | _ => [LTable (uri_path_arr opts)]
      end
    else
      match uri_path_str opts with
      | [] => [LNil]
      | str => [LStr str]
      end
  else [LNil].

(** The string branch of [l_coap_pdu_set_uri_path]: the loop over the
    indices [i] of [uri], with the start [b] of the segment being read
    ([-1] for none).  Options added before a failure stay in the PDU. *)
Fixpoint set_uri_path_str (uri : bytes) (len : Z) (idx : list Z) (b : Z)
    (p : coap_pdu_t) : result unit * coap_pdu_t :=
  match idx with
  | [] => (Ok tt, p)
  | i :: idx' =>
      let b := if (b <? 0) && negb (byte_at uri i =? 47) then i else b in
      if 0 <=? b then
        let add l :=
          match coap_add_option p COAP_OPTION_URI_PATH (sub b l uri) with
          | None => (Raise OptionOrderViolation, p)
          | Some p' => set_uri_path_str uri len idx' (-1) p'
          end in
        if byte_at uri i =? 47 then add (i - b)
        else if len <=? i + 1 then add (len - b)
        else set_uri_path_str uri len idx' b p
      else set_uri_path_str uri len idx' b p
  end.

(** The table branch: one option per element, which has to be a string. *)
Fixpoint set_uri_path_arr (elems : list lua_value) (p : coap_pdu_t)
  : result unit * coap_pdu_t :=
  match elems with
  | [] => (Ok tt, p)
  | LStr s :: elems' =>
      match coap_add_option p COAP_OPTION_URI_PATH s with
      | None => (Raise OptionOrderViolation, p)
      | Some p' => set_uri_path_arr elems' p'
      end
  | _ :: _ => (Raise InvalidArgument, p)
  end.

(** [l_coap_pdu_set_uri_path] *)
Definition l_coap_pdu_set_uri_path (p : coap_pdu_t) (args : list lua_value)
  : result unit * coap_pdu_t :=
  match lua_arg args 1 with
  | Some (LStr uri) =>
      set_uri_path_str uri (Z.of_nat (length uri))
                       (map Z.of_nat (seq 0 (length uri))) (-1) p
  | Some (LTable elems) => set_uri_path_arr elems p
  | _ => (Raise InvalidArgument, p)
  end.

(** ** Header fields, token and payload *)

(** [l_coap_pdu_get_type], [l_coap_pdu_set_type] *)
Definition l_coap_pdu_get_type (p : coap_pdu_t) : list lua_value :=
  [LInt (Z.land (pdu_type p) 3)].

Definition l_coap_pdu_set_type (p : coap_pdu_t) (args : list lua_value)
  : result coap_pdu_t :=
  v ← luaL_checkinteger args 1;
  Ok (set_pdu_type p (Z.land v 3)).

(** [l_coap_pdu_get_code], [l_coap_pdu_set_code] *)
Definition l_coap_pdu_get_code (p : coap_pdu_t) : list lua_value :=
  [LInt (100 * Z.shiftr (pdu_code p) 5 + Z.land (pdu_code p) 31)].

Definition l_coap_pdu_set_code (p : coap_pdu_t) (args : list lua_value)
  : result coap_pdu_t :=
  v ← luaL_checkinteger args 1;
  let code := to_int v in
  Ok (set_pdu_code p (COAP_RESPONSE_CODE code)).

(** [l_coap_pdu_get_token] *)
Definition l_coap_pdu_get_token (p : coap_pdu_t) (args : list lua_value)
  : list lua_value :=
  let as_arr := if has_arg args 1 then lua_toboolean (lua_arg args 1) else false in
  match pdu_token p with
  | [] => [LNil]
  | token => if as_arr then [LTable (map LInt token)] else [LStr token]
  end.

(** Modelled from the spec: libcoap's [coap_add_token], which is not in
    this repository; the token "must be set before any option is added to
    the same message". *)
Definition coap_add_token (p : coap_pdu_t) (token : bytes) : option coap_pdu_t :=
  match pdu_token p, pdu_options p, pdu_data p with
  | [], [], [] => Some (set_pdu_token p token)
  | _, _, _ => None
  end.

(** [l_coap_pdu_set_token]; [tkn] has 8 bytes. *)
Definition l_coap_pdu_set_token (p : coap_pdu_t) (args : list lua_value)
  : result coap_pdu_t :=
  token ←
    match lua_arg args 1 with
    | Some (LStr s) => Ok s
    | Some (LTable elems) =>
        if (length elems <=? 8)%nat then bytes_of_table elems
        else Raise InvalidToken
    | Some _ => Raise InvalidArgument
    | None => Ok []
    end;
  if (8 <? length token)%nat then Raise InvalidToken
  else match coap_add_token p token with
       | Some p' => Ok p'
       | None => Raise TokenOrderViolation
       end.

(** [l_coap_pdu_get_payload] *)
Definition l_coap_pdu_get_payload (p : coap_pdu_t) (args : list lua_value)
  : list lua_value :=
  let as_arr := if has_arg args 1 then lua_toboolean (lua_arg args 1) else false in
  match pdu_data p with
  | [] => [LNil]
  | data => if as_arr then [LTable (map LInt data)] else [LStr data]
  end.

(** [_set_payload], for the payload argument [arg] counted after
    [arg_base]. *)
Definition _set_payload (p : coap_pdu_t) (args : list lua_value) (arg : nat)
  : result coap_pdu_t :=
  data ←
    match lua_arg args arg with
    | Some (LStr s) => Ok s
    | Some (LTable elems) => bytes_of_table elems
    | Some _ => Raise InvalidArgument
    | None => Ok []
    end;
  Ok (coap_add_data p data).

(** ** Sending from the request handler *)

Definition set_ud_pdu (ud : ud_coap_pdu_t) (p : coap_pdu_t) : ud_coap_pdu_t :=
  mk_ud p (ud_session ud) (ud_def_code ud) (access_ro ud) (access_lck ud)
        (access_hndlr ud).
Definition set_access_lck (ud : ud_coap_pdu_t) (lck : bool) : ud_coap_pdu_t :=
  mk_ud (ud_pdu ud) (ud_session ud) (ud_def_code ud) (access_ro ud) lck
        (access_hndlr ud).

(** [l_coap_pdu_send_reqh].  The code is written before the payload is
    looked at, so the object comes back changed also when the payload
    argument is refused. *)
Definition l_coap_pdu_send_reqh (ud : ud_coap_pdu_t) (args : list lua_value)
  : result unit * ud_coap_pdu_t :=
  let pdu := ud_pdu ud in
  let '(pdu, arg) :=
    match lua_arg args 1 with
    | Some (LInt n) => (set_pdu_code pdu (COAP_RESPONSE_CODE (to_int n)), 2%nat)
    | _ => (pdu, 1%nat)
    end in
  let pdu :=
    if pdu_code pdu =? 0
    then set_pdu_code pdu (COAP_RESPONSE_CODE (ud_def_code ud))
    else pdu in
  match _set_payload pdu args arg with
  | Ok pdu' => (Ok tt, set_access_lck (set_ud_pdu ud pdu') true)
  | Raise e => (Raise e, set_ud_pdu ud pdu)
  | Abort => (Abort, set_ud_pdu ud pdu)
  end.

(** ** Connections *)

(** Modelled from the spec: libcoap's [coap_session_t] and
    [coap_fixed_point_t], which are not in this repository: the fields the
    binding reads and writes, an [unsigned int] count and a timeout of
    "whole-seconds + millisecond-remainder" in two [uint16_t]. *)
Record coap_session_t := mk_session {
  max_retransmit : Z;
  ack_timeout_integer_part : Z;
  ack_timeout_fractional_part : Z
}.

(** [ud_connection_t] *)
Record ud_connection_t := mk_conn {
  conn_session : option Z;
  conn_gc : bool
}.

(** [l_coap_pdu_get_connection] *)
Definition l_coap_pdu_get_connection (ud : ud_coap_pdu_t) : ud_connection_t :=
  mk_conn (ud_session ud) false.

(** [l_coap_conn_get_max_retransmit], [l_coap_conn_set_max_retransmit] *)
Definition l_coap_conn_get_max_retransmit (s : coap_session_t) : list lua_value :=
  [LInt (max_retransmit s)].

Definition l_coap_conn_set_max_retransmit (s : coap_session_t)
    (args : list lua_value) : result coap_session_t :=
  v ← luaL_checkinteger args 1;
  let max_retransmit := to_uint32 v in
  if 0 <? max_retransmit
  then Ok (mk_session max_retransmit (ack_timeout_integer_part s)
                      (ack_timeout_fractional_part s))
  else Abort.

(** [l_coap_conn_get_ack_timeout], [l_coap_conn_set_ack_timeout] *)
Definition l_coap_conn_get_ack_timeout (s : coap_session_t) : list lua_value :=
  [LInt (1000 * ack_timeout_integer_part s + ack_timeout_fractional_part s)].

Definition l_coap_conn_set_ack_timeout (s : coap_session_t)
    (args : list lua_value) : result coap_session_t :=
  v ← luaL_checkinteger args 1;
  let timeout := to_uint32 v in
  if 0 <? timeout
  then Ok (mk_session (max_retransmit s)
                      (to_uint16 (timeout / 1000)) (to_uint16 (timeout mod 1000)))
  else Abort.

(** What the binding logs and asks of the engine, in order. *)
Inductive event :=
| EvLogPdu (hndlr_name : string) (p : coap_pdu_t) (recv : bool)
| EvLogWarn
| EvLogError
| EvPduInit (type code tid : Z) (ok : bool)
| EvSend (p : coap_pdu_t) (tid : Z).

(** [l_coap_conn_send]: [msg] is the PDU object passed as first argument
    ([None] when the argument is no such object), [args] the arguments from
    the payload on, [send_tid] what the engine's [coap_send] answers.  The
    result comes with the log and with the object as the call leaves it. *)
Definition l_coap_conn_send (send_tid : Z) (msg : option ud_coap_pdu_t)
    (args : list lua_value)
  : result unit * list event * option ud_coap_pdu_t :=
  match msg with
  | None => (Raise InvalidArgument, [], None)
  | Some ud =>
      if negb (access_hndlr ud =? ACS_NO_HNDLR) then (Raise WrongSendPath, [], Some ud)
      else
        match _set_payload (ud_pdu ud) args 1 with
        | Ok pdu =>
            let log :=
              [EvLogPdu "new" pdu false; EvSend pdu send_tid] ++
              (if send_tid =? COAP_INVALID_TID then [EvLogError] else []) in
            (Ok tt, log, Some (set_access_lck (set_ud_pdu ud pdu) true))
        | Raise e => (Raise e, [], Some ud)
        | Abort => (Abort, [], Some ud)
        end
  end.

(** ** The method dispatcher of PDU objects *)

Inductive pdu_method :=
| M_get_type | M_get_code | M_get_msg_id | M_get_token | M_options
| M_get_option | M_get_uri_path | M_qstr_params | M_get_qstr_param
| M_get_payload
| M_set_type | M_set_code | M_set_msg_id | M_set_token | M_set_option
| M_set_uri_path
| M_get_connection
| M_send.

Definition luaL_Reg := list (string * pdu_method).

Definition r_funcs : luaL_Reg :=
  [("get_type", M_get_type); ("get_code", M_get_code);
   ("get_msg_id", M_get_msg_id); ("get_token", M_get_token);
   ("options", M_options); ("get_option", M_get_option);
   ("get_uri_path", M_get_uri_path); ("qstr_params", M_qstr_params);
   ("get_qstr_param", M_get_qstr_param); ("get_payload", M_get_payload)]%string.

Definition w_funcs : luaL_Reg :=
  [("set_type", M_set_type); ("set_code", M_set_code);
   ("set_msg_id", M_set_msg_id); ("set_token", M_set_token);
   ("set_option", M_set_option); ("set_uri_path", M_set_uri_path)]%string.

Definition r_cmnh_funcs : luaL_Reg := [("get_connection", M_get_connection)]%string.
Definition w_reqh_funcs : luaL_Reg := [("send", M_send)]%string.
Definition null_funcs : luaL_Reg := [].

(** The C string a Lua string is read as: its bytes up to the first NUL. *)
Fixpoint c_str (s : bytes) : bytes :=
  match s with
  | [] => []
  | c :: s' => if c =? 0 then [] else c :: c_str s'
  end.

(** [_get_func]: the first entry whose name [strcmp] finds equal. *)
Fixpoint _get_func (fname : bytes) (funcs : luaL_Reg) : option pdu_method :=
  match funcs with
  | [] => None
  | (n, f) :: funcs' =>
      if bool_decide (bytes_of_string n = c_str fname) then Some f
      else _get_func fname funcs'
  end.

Definition is_hndlr (h : Z) : bool :=
  (h =? ACS_REQ_HNDLR) || (h =? ACS_RESP_HNDLR) || (h =? ACS_NACK_HNDLR).

(** [_pdu_obj_dispacher], the [__index] metamethod: [key] is the index the
    script uses on the object. *)
Definition _pdu_obj_dispacher (ud_pdu : ud_coap_pdu_t) (key : lua_value)
  : result pdu_method :=
  fname ← luaL_checkstring [key] 1;
  if access_lck ud_pdu then Raise ObjectLocked
  else
    let check_func_push (f : option pdu_method) :=
      match f with Some m => Ok m | None => Raise InvalidMethod end in
    match _get_func fname r_funcs with
    | Some m => Ok m
    | None =>
        match (if is_hndlr (access_hndlr ud_pdu)
               then _get_func fname r_cmnh_funcs else None) with
        | Some m => Ok m
        | None =>
            if access_ro ud_pdu then check_func_push None
            else
              match _get_func fname w_funcs with
              | Some m => Ok m
              | None =>
                  check_func_push
                    (if access_hndlr ud_pdu =? ACS_REQ_HNDLR
                     then _get_func fname w_reqh_funcs
                     else if (access_hndlr ud_pdu =? ACS_RESP_HNDLR)
                             || (access_hndlr ud_pdu =? ACS_NACK_HNDLR)
                     then _get_func fname null_funcs
                     else None)
              end
        end
    end.

(** What a method leaves on the Lua stack: plain values, or one of the
    userdata the binding creates. *)
Inductive call_ret :=
| RetVals (vals : list lua_value)
| RetOptIter (oi : coap_opt_iterator_t)
| RetQstrIter (st : coap_qstr_param_iter_state_t)
| RetConn (conn : ud_connection_t).

(** The call of the C closure the dispatcher pushed, bound to the object:
    the result, the Lua state and the object afterwards. *)
Definition pdu_call (m : pdu_method) (L : lua_State) (ud : ud_coap_pdu_t)
    (args : list lua_value) : result call_ret * lua_State * ud_coap_pdu_t :=
  let p := ud_pdu ud in
  let getter (vals : list lua_value) := (Ok (RetVals vals), L, ud) in
  let getter_r (r : result (list lua_value)) := (RetVals <$> r, L, ud) in
  let setter (r : result coap_pdu_t) :=
    match r with
    | Ok p' => (Ok (RetVals []), L, set_ud_pdu ud p')
    | Raise e => (Raise e, L, ud)
    | Abort => (Abort, L, ud)
    end in
  match m with
  | M_get_type => getter (l_coap_pdu_get_type p)
  | M_get_code => getter (l_coap_pdu_get_code p)
  | M_get_msg_id => getter (l_coap_pdu_get_msg_id p)
  | M_get_token => getter (l_coap_pdu_get_token p args)
  | M_options => (RetOptIter <$> l_coap_pdu_options p args, L, ud)
  | M_get_option => getter_r (l_coap_pdu_get_option p args)
  | M_get_uri_path => getter (l_coap_pdu_get_uri_path p args)
  | M_qstr_params =>
      match l_coap_pdu_qstr_params L p args with
      | Ok (L', st) => (Ok (RetQstrIter st), L', ud)
      | Raise e => (Raise e, L, ud)
      | Abort => (Abort, L, ud)
      end
  | M_get_qstr_param => getter_r (l_coap_pdu_get_qstr_param p args)
  | M_get_payload => getter (l_coap_pdu_get_payload p args)
  | M_set_type => setter (l_coap_pdu_set_type p args)
  | M_set_code => setter (l_coap_pdu_set_code p args)
  | M_set_msg_id => setter (l_coap_pdu_set_msg_id p args)
  | M_set_token => setter (l_coap_pdu_set_token p args)
  | M_set_option => setter (l_coap_pdu_set_option p args)
  | M_set_uri_path =>
      let '(r, p') := l_coap_pdu_set_uri_path p args in
      ((fun _ => RetVals []) <$> r, L, set_ud_pdu ud p')
  | M_get_connection => (Ok (RetConn (l_coap_pdu_get_connection ud)), L, ud)
  | M_send =>
      let '(r, ud') := l_coap_pdu_send_reqh ud args in
      ((fun _ => RetVals []) <$> r, L, ud')
  end.

(** A method call [obj:key(args)] of a script: the [__index] lookup through
    the dispatcher, then the call of what it found. *)
Definition pdu_invoke (L : lua_State) (ud : ud_coap_pdu_t) (key : lua_value)
    (args : list lua_value) : result call_ret * lua_State * ud_coap_pdu_t :=
  match _pdu_obj_dispacher ud key with
  | Ok m => pdu_call m L ud args
  | Raise e => (Raise e, L, ud)
  | Abort => (Abort, L, ud)
  end.

(** ** Creating messages and the handlers of engine events *)

(** [lib_ctx_t], without the engine's handles. *)
Record lib_ctx_t := mk_ctx {
  cfg_max_pdu_sz : Z;
  ref_reqh : Z;
  ref_resph : Z;
  ref_nackh : Z
}.

Definition REQ_HANDLER : string := "coap_req_handler".
Definition RESP_HANDLER : string := "coap_resp_handler".
Definition NACK_HANDLER : string := "coap_nack_handler".

(** Modelled from the spec: libcoap's [coap_pdu_init], which is not in this
    repository: a message with the given "message type (2-bit)", code and
    "numeric message id (16-bit)" and nothing else. *)
Definition coap_pdu_init (type code tid : Z) : coap_pdu_t :=
  mk_pdu (to_uint8 type) (to_uint8 code) (to_uint16 tid) [] [] [].

(** [l_coap_new_msg], when the engine has the memory for the PDU. *)
Definition l_coap_new_msg (args : list lua_value) : result ud_coap_pdu_t :=
  type ← luaL_checkinteger args 1;
  code ← luaL_checkinteger args 2;
  msg_id ← luaL_checkinteger args 3;
  let pdu := coap_pdu_init (to_int type) (COAP_RESPONSE_CODE (to_int code))
                           (to_int msg_id) in
  Ok (mk_ud pdu None 0 false false ACS_NO_HNDLR).

(** Request codes of libcoap's [pdu.h]. *)
Definition COAP_REQUEST_GET : Z := 1.
Definition COAP_REQUEST_POST : Z := 2.
Definition COAP_REQUEST_PUT : Z := 3.
Definition COAP_REQUEST_DELETE : Z := 4.
Definition COAP_REQUEST_FETCH : Z := 5.
Definition COAP_REQUEST_PATCH : Z := 6.
Definition COAP_REQUEST_IPATCH : Z := 7.

(** [_get_coap_resp_code] *)
Definition _get_coap_resp_code (req_code : Z) : Z :=
  if req_code =? COAP_REQUEST_GET then 205
  else if req_code =? COAP_REQUEST_POST then 204
  else if req_code =? COAP_REQUEST_PUT then 201
  else if req_code =? COAP_REQUEST_DELETE then 202
  else if req_code =? COAP_REQUEST_FETCH then 205
  else if req_code =? COAP_REQUEST_PATCH then 204
  else if req_code =? COAP_REQUEST_IPATCH then 204
  else 0.

(** The two objects [_coap_req_hndlr] hands to the request handler: the
    request, read only, and the response. *)
Definition req_hndlr_request (session : Z) (request : coap_pdu_t) : ud_coap_pdu_t :=
  mk_ud request (Some session) 0 true false ACS_REQ_HNDLR.
Definition req_hndlr_response (session : Z) (request response : coap_pdu_t)
  : ud_coap_pdu_t :=
  mk_ud response (Some session) (_get_coap_resp_code (pdu_code request))
        false false ACS_REQ_HNDLR.

(** The handler [_coap_resp_hndlr] calls: the registered reference, else
    the global function of the default name, else none. *)
Definition resolve_resp_hndlr (L : lua_State) (lib_ctx : lib_ctx_t)
  : option lua_value :=
  if negb (ref_resph lib_ctx =? LUA_NOREF)
  then Some (default LNil (registry L !! ref_resph lib_ctx))
  else match globals L !! RESP_HANDLER with
       | Some (LFunc f) => Some (LFunc f)
       | _ => None
       end.

(** [_coap_resp_hndlr].  [lua_call] is the script: what the called value
    returns for the two objects (or the error it raises); [ack_ok] and
    [send_tid] are the engine's answers to [coap_pdu_init] and
    [coap_send].  The result is the log of what was done. *)
Definition _coap_resp_hndlr
    (lua_call : lua_value -> list ud_coap_pdu_t -> result (list lua_value))
    (L : lua_State) (lib_ctx : lib_ctx_t) (session : Z)
    (sent received : coap_pdu_t) (ack_ok : bool) (send_tid : Z)
  : result unit * list event :=
  let log0 := [EvLogPdu "resph" received true] in
  let called :=
    match resolve_resp_hndlr L lib_ctx with
    | None => Ok (true, [])
    | Some h =>
        let ud_sent := mk_ud sent (Some session) 0 true false ACS_RESP_HNDLR in
        let ud_rcvd := mk_ud received (Some session) 0 true false ACS_RESP_HNDLR in
        rets ← lua_call h [ud_sent; ud_rcvd];
        match hd LNil rets with
        | LBool b => Ok (b, [])
        | LNil => Ok (true, [])
        | _ => Ok (true, [EvLogWarn])
        end
    end in
  match called with
  | Ok (handle_ack, log1) =>
      let log2 :=
        if handle_ack && (pdu_type received =? COAP_MESSAGE_CON) then
          let ack := coap_pdu_init COAP_MESSAGE_ACK 0 (pdu_tid received) in
          [EvPduInit COAP_MESSAGE_ACK 0 (pdu_tid received) ack_ok] ++
          (if ack_ok then [EvLogPdu "resph" ack false; EvSend ack send_tid] else []) ++
          (if negb ack_ok || (send_tid =? COAP_INVALID_TID) then [EvLogError] else [])
        else [] in
      (Ok tt, log0 ++ log1 ++ log2)
  | Raise e => (Raise e, log0)
  | Abort => (Abort, log0)
  end.

(** ** What the design says of paths, for comparison

    The non-empty segments of a slash-delimited path, in order: "leading
    and embedded slashes are treated as segment separators, empty segments
    are skipped".  [cur] is the segment being read. *)
Fixpoint path_segments_from (cur uri : bytes) : list bytes :=
  match uri with
  | [] => match cur with [] => [] | _ => [cur] end
  | c :: uri' =>
      if c =? 47 then
        match cur with
        | [] => path_segments_from [] uri'
        | _ => cur :: path_segments_from [] uri'
        end
      else path_segments_from (cur ++ [c]) uri'
  end.

Definition path_segments (uri : bytes) : list bytes := path_segments_from [] uri.

(** The values of the Uri-Path options of a message, in order. *)
Definition uri_path_values (p : coap_pdu_t) : list bytes :=
  map snd (List.filter (fun o => fst o =? COAP_OPTION_URI_PATH) (pdu_options p)).

(** ["/" + segment] for each segment. *)
Definition join_path (segs : list bytes) : bytes :=
  concat (map (fun seg => 47 :: seg) segs).

Definition non_empty (s : bytes) : bool :=
  match s with [] => false | _ => true end.

(** ** Sample objects *)

Definition L0 : lua_State := mk_L ∅ ∅ 1 [].
Definition p0 : coap_pdu_t := mk_pdu 0 1 7 [] [] [].
Definition session0 : coap_session_t := mk_session 4 2 0.
Definition send_key : lua_value := LStr (bytes_of_string "send").

(** A state with the default response handler defined, and a script whose
    functions all return [false]. *)
Definition L_resp : lua_State := mk_L {[ RESP_HANDLER := LFunc 1 ]} ∅ 1 [].
Definition ctx0 : lib_ctx_t := mk_ctx 1152 LUA_NOREF LUA_NOREF LUA_NOREF.
Definition call_false (h : lua_value) (args : list ud_coap_pdu_t)
  : result (list lua_value) := Ok [LBool false].

(** ** Auxiliary notions of the statements *)

(** The start [b] of the segment being read, when [pre] has been passed
    and [cur] is that segment. *)
Definition seg_start (pre cur : bytes) : Z :=
  match cur with [] => -1 | _ => Z.of_nat (length pre) end.

(** The flag [handle_ack] as the handler's return values decide it. *)
Definition handle_ack_of (rets : list lua_value) : bool :=
  match hd LNil rets with
  | LBool b => b
  | _ => true
  end.

(** Is the first return value neither [nil] nor a boolean. *)
Definition invalid_ret (rets : list lua_value) : bool :=
  match hd LNil rets with
  | LBool _ | LNil => false
  | _ => true
  end.

(** A cursor that is bad or has no option left delivers nothing, now and
    later. *)
Definition oi_finished (oi : coap_opt_iterator_t) : Prop :=
  oi_bad oi = true \/ oi_rest oi = [].

(** * More of the binding *)

(** ** Collecting objects *)

(** [_pdu_obj_gc]: does the collector delete the PDU of the object
    ([coap_delete_pdu]). *)
Definition _pdu_obj_gc (ud : ud_coap_pdu_t) : bool :=
  (access_hndlr ud =? ACS_NO_HNDLR) && negb (access_lck ud).

(** [_conn_obj_gc]: does the collector release the session
    ([coap_session_release]). *)
Definition _conn_obj_gc (ud_conn : ud_connection_t) : bool := conn_gc ud_conn.

(** ** Handler references of the library context *)

Definition string_of_bytes (s : bytes) : string :=
  string_of_list_ascii (map (fun b => ascii_of_N (Z.to_N b)) s).

(** [lua_getglobal(L, name)] for a C string [name]: [nil] when there is
    no such global. *)
Definition lua_getglobal (L : lua_State) (name : bytes) : lua_value :=
  default LNil (globals L !! string_of_bytes (c_str name)).

(** [_set_hndlr_ref]: [args] is the whole stack of a library function,
    [arg] the position of the handler argument. *)
Definition _set_hndlr_ref (L : lua_State) (args : list lua_value) (arg : nat)
    (def : Z) : result Z * lua_State :=
  if has_arg args arg then
    match lua_arg args arg with
    | Some (LFunc f) =>
        let '(ref, L') := luaL_ref L (LFunc f) in (Ok ref, L')
    | Some (LStr hndlr_name) =>
        match lua_getglobal L hndlr_name with
        | LFunc f => let '(ref, L') := luaL_ref L (LFunc f) in (Ok ref, L')
        | _ => (Raise InvalidArgument, L)
        end
    | Some LNil => (Ok LUA_NOREF, L)
    | _ => (Raise InvalidArgument, L)
    end
  else (Ok def, L).

(** What the three setters do with the reference they got: "unref previous
    handler if set" and keep the new one, when it differs. *)
Definition replace_hndlr (L : lua_State) (old new : Z) : Z * lua_State :=
  if negb (new =? old) then
    (new, if negb (old =? LUA_NOREF) then luaL_unref L old else L)
  else (old, L).

(** [l_coap_set_req_handler], [l_coap_set_resp_handler],
    [l_coap_set_nack_handler] *)
Definition l_coap_set_req_handler (L : lua_State) (lib_ctx : lib_ctx_t)
    (args : list lua_value) : result unit * lua_State * lib_ctx_t :=
  match _set_hndlr_ref L args 1 LUA_NOREF with
  | (Ok reqh, L1) =>
      let '(ref, L2) := replace_hndlr L1 (ref_reqh lib_ctx) reqh in
      (Ok tt, L2,
       mk_ctx (cfg_max_pdu_sz lib_ctx) ref (ref_resph lib_ctx) (ref_nackh lib_ctx))
  | (r, L1) => (fmap (fun _ => tt) r, L1, lib_ctx)
  end.

Definition l_coap_set_resp_handler (L : lua_State) (lib_ctx : lib_ctx_t)
    (args : list lua_value) : result unit * lua_State * lib_ctx_t :=
  match _set_hndlr_ref L args 1 LUA_NOREF with
  | (Ok resph, L1) =>
      let '(ref, L2) := replace_hndlr L1 (ref_resph lib_ctx) resph in
      (Ok tt, L2,
       mk_ctx (cfg_max_pdu_sz lib_ctx) (ref_reqh lib_ctx) ref (ref_nackh lib_ctx))
  | (r, L1) => (fmap (fun _ => tt) r, L1, lib_ctx)
  end.

Definition l_coap_set_nack_handler (L : lua_State) (lib_ctx : lib_ctx_t)
    (args : list lua_value) : result unit * lua_State * lib_ctx_t :=
  match _set_hndlr_ref L args 1 LUA_NOREF with
  | (Ok nackh, L1) =>
      let '(ref, L2) := replace_hndlr L1 (ref_nackh lib_ctx) nackh in
      (Ok tt, L2,
       mk_ctx (cfg_max_pdu_sz lib_ctx) (ref_reqh lib_ctx) (ref_resph lib_ctx) ref)
  | (r, L1) => (fmap (fun _ => tt) r, L1, lib_ctx)
  end.

(** What the three getters push for a reference: the registry's value, or
    [nil] for the default handler. *)
Definition push_hndlr (L : lua_State) (ref : Z) : list lua_value :=
  if negb (ref =? LUA_NOREF) then [default LNil (registry L !! ref)] else [LNil].

(** [l_coap_get_req_handler], [l_coap_get_resp_handler],
    [l_coap_get_nack_handler] *)
Definition l_coap_get_req_handler (L : lua_State) (lib_ctx : lib_ctx_t)
  : list lua_value := push_hndlr L (ref_reqh lib_ctx).
Definition l_coap_get_resp_handler (L : lua_State) (lib_ctx : lib_ctx_t)
  : list lua_value := push_hndlr L (ref_resph lib_ctx).
Definition l_coap_get_nack_handler (L : lua_State) (lib_ctx : lib_ctx_t)
  : list lua_value := push_hndlr L (ref_nackh lib_ctx).

(** [_free_lib_ctx], as far as the references go. *)
Definition _free_lib_ctx (L : lua_State) (lib_ctx : lib_ctx_t)
  : lua_State * lib_ctx_t :=
  let L1 := if negb (ref_reqh lib_ctx =? LUA_NOREF)
            then luaL_unref L (ref_reqh lib_ctx) else L in
  let L2 := if negb (ref_resph lib_ctx =? LUA_NOREF)
            then luaL_unref L1 (ref_resph lib_ctx) else L1 in
  let L3 := if negb (ref_nackh lib_ctx =? LUA_NOREF)
            then luaL_unref L2 (ref_nackh lib_ctx) else L2 in
  (L3, mk_ctx (cfg_max_pdu_sz lib_ctx) LUA_NOREF LUA_NOREF LUA_NOREF).

(** The handler [_coap_req_hndlr] calls: the registered reference, else the
    global function of the default name, else none, and the request is
    dropped. *)
Definition resolve_req_hndlr (L : lua_State) (lib_ctx : lib_ctx_t)
  : option lua_value :=
  if negb (ref_reqh lib_ctx =? LUA_NOREF)
  then Some (default LNil (registry L !! ref_reqh lib_ctx))
  else match globals L !! REQ_HANDLER with
       | Some (LFunc f) => Some (LFunc f)
       | _ => None
       end.

(** ** The generic [for] of Lua over the two iterators

    [for ... in msg:options(...) do ... end] calls the iteration function
    with the state until its first value is [nil]; the values of each
    round are collected. *)
Fixpoint option_iter_all (rounds : nat) (oi : coap_opt_iterator_t)
  : list (list lua_value) :=
  match rounds with
  | O => []
  | S rounds' =>
      match _coap_option_iter (Some oi) with
      | (Ok (LNil :: _), _) => []
      | (Ok vals, Some oi') => vals :: option_iter_all rounds' oi'
      | _ => []
      end
  end.

Fixpoint qstr_param_iter_all (rounds : nat) (L : lua_State)
    (st : coap_qstr_param_iter_state_t)
  : list (list lua_value) * lua_State * coap_qstr_param_iter_state_t :=
  match rounds with
  | O => ([], L, st)
  | S rounds' =>
      match _coap_qstr_param_iter L (Some st) with
      | Some (Ok (LNil :: _), L', Some st') => ([], L', st')
      | Some (Ok vals, L', Some st') =>
          let '(rest, L'', st'') := qstr_param_iter_all rounds' L' st' in
          (vals :: rest, L'', st'')
      | _ => ([], L, st)
      end
  end.

(** ** Reference notions for the statements *)

(** Trimming as the header describes it: leading and trailing white
    spaces taken off. *)
Fixpoint drop_ws (s : bytes) : bytes :=
  match s with
  | [] => []
  | c :: s' => if isspace c then drop_ws s' else s
  end.

Definition trim_ref (s : bytes) : bytes := rev (drop_ws (rev (drop_ws s))).

(** The number a byte string stands for, most significant byte first. *)
Definition be_value (bs : bytes) : Z := fold_left (fun v b => v * 256 + b) bs 0.

(** The values of the options of one type, in order. *)
Definition option_values (t : Z) (p : coap_pdu_t) : list bytes :=
  map snd (List.filter (fun o => fst o =? t) (pdu_options p)).

(** The parameters the Uri-Query options of a message stand for: those
    with a name, in order. *)
Definition qstr_params_of (p : coap_pdu_t) : list (bytes * bytes) :=
  List.filter (fun nv => non_empty (fst nv))
    (map parse_qstr (option_values COAP_OPTION_URI_QUERY p)).

(** The second value the query functions push: [nil] for no value. *)
Definition qstr_val (val : bytes) : lua_value :=
  match val with [] => LNil | _ => LStr val end.

(** Which methods the access bits of an object leave to a script. *)
Definition method_allowed (ud : ud_coap_pdu_t) (m : pdu_method) : bool :=
  match m with
  | M_get_type | M_get_code | M_get_msg_id | M_get_token | M_options
  | M_get_option | M_get_uri_path | M_qstr_params | M_get_qstr_param
  | M_get_payload => true
  | M_get_connection => is_hndlr (access_hndlr ud)
  | M_set_type | M_set_code | M_set_msg_id | M_set_token | M_set_option
  | M_set_uri_path => negb (access_ro ud)
  | M_send => negb (access_ro ud) && (access_hndlr ud =? ACS_REQ_HNDLR)
  end.

(** The name a method has in the tables of the dispatcher. *)
Definition method_name (m : pdu_method) : string :=
  match m with
  | M_get_type => "get_type" | M_get_code => "get_code"
  | M_get_msg_id => "get_msg_id" | M_get_token => "get_token"
  | M_options => "options" | M_get_option => "get_option"
  | M_get_uri_path => "get_uri_path" | M_qstr_params => "qstr_params"
  | M_get_qstr_param => "get_qstr_param" | M_get_payload => "get_payload"
  | M_set_type => "set_type" | M_set_code => "set_code"
  | M_set_msg_id => "set_msg_id" | M_set_token => "set_token"
  | M_set_option => "set_option" | M_set_uri_path => "set_uri_path"
  | M_get_connection => "get_connection" | M_send => "send"
  end.

(** No white space at either end. *)
Definition trimmed (s : bytes) : Prop :=
  s = [] \/
  (isspace (byte_at s 0) = false /\
   isspace (byte_at s (Z.of_nat (length s) - 1)) = false).

(** The function a handler argument stands for: the function itself, or
    the global function a string names. *)
Definition hndlr_of_arg (L : lua_State) (v : lua_value) : option Z :=
  match v with
  | LFunc f => Some f
  | LStr hndlr_name =>
      match lua_getglobal L hndlr_name with
      | LFunc f => Some f
      | _ => None
      end
  | _ => None
  end.

(** The references a library context holds, in the order [_free_lib_ctx]
    goes through them. *)
Definition refs_in_use (lib_ctx : lib_ctx_t) : list Z :=
  List.filter (fun ref => negb (ref =? LUA_NOREF))
    [ref_reqh lib_ctx; ref_resph lib_ctx; ref_nackh lib_ctx].

(** The option types the engine is given for the types of a script: each
    is narrowed to [int] and then to [uint16_t]. *)
Definition narrowed_types (ts : list Z) : list Z :=
  map (fun t => to_uint16 (to_int t)) ts.

(** A set of types libcoap's option filter can hold: at most 6 different
    types up to 255 and at most 2 above. *)
Definition filter_fits (ns : list Z) : Prop :=
  (length (remove_dups (List.filter (fun n => Z.leb n 255) ns)) <= 6)%nat /\
  (length (remove_dups (List.filter (fun n => Z.ltb 255 n) ns)) <= 2)%nat.

(** * Properties *)

Arguments coap_add_option : simpl never.
Arguments to_int : simpl never.
Arguments to_uint8 : simpl never.
Arguments to_uint16 : simpl never.
Arguments to_uint32 : simpl never.
Arguments encode_uint : simpl never.
Arguments decode_uint : simpl never.
Arguments sub : simpl never.
Arguments byte_at : simpl never.

(** ** C integer conversions *)

Lemma to_uint16_to_int (m : Z) : to_uint16 (to_int m) = m mod 2 ^ 16.
Proof.
  unfold to_uint16, to_int.
  rewrite Zminus_mod, Z.mod_mod_divide by (exists (2 ^ 16); reflexivity).
  rewrite <- Zminus_mod.
  replace (m + 2 ^ 31 - 2 ^ 31) with m by ring. reflexivity.
Qed.

Lemma to_int_small (z : Z) : - 2 ^ 31 <= z < 2 ^ 31 -> to_int z = z.
Proof. intros H. unfold to_int. rewrite Z.mod_small; lia. Qed.

Lemma to_uint8_byte (b : Z) : is_byte b -> to_uint8 b = b.
Proof. intros H. unfold to_uint8, is_byte in *. apply Z.mod_small. lia. Qed.

Lemma to_uint32_small (v : Z) : 0 <= v < 2 ^ 32 -> to_uint32 v = v.
Proof. intros H. apply Z.mod_small. lia. Qed.

(** Appending a byte to a big-endian accumulator that still has room. *)
Lemma lor_shiftl_byte (v b : Z) :
  0 <= v < 2 ^ 24 -> 0 <= b < 256 ->
  Z.lor (to_uint32 (Z.shiftl v 8)) b = v * 256 + b.
Proof.
  intros Hv Hb. rewrite Z.shiftl_mul_pow2 by lia.
  rewrite to_uint32_small by lia.
  change (2 ^ 8) with 256.
  rewrite <- Z.lxor_lor, <- Z.add_nocarry_lxor; try reflexivity.
  all: apply Z.bits_inj'; intros n Hn; rewrite Z.land_spec, Z.bits_0.
  all: destruct (Z.lt_ge_cases n 8) as [Hlt | Hge].
  all: try (replace (v * 256) with (Z.shiftl v 8)
              by (rewrite Z.shiftl_mul_pow2 by lia; reflexivity);
            rewrite Z.shiftl_spec_low by lia; reflexivity).
  all: rewrite <- (Z.mod_small b (2 ^ 8)) by (change (2 ^ 8) with 256; lia).
  all: rewrite (Z.mod_pow2_bits_high b 8 n) by lia; apply andb_false_r.
Qed.

Lemma network_order_bytes (v : Z) :
  network_order v =
    [(v / 2 ^ 24) mod 256; (v / 2 ^ 16) mod 256; (v / 2 ^ 8) mod 256; v mod 256].
Proof.
  unfold network_order, to_uint8. cbn [map].
  change (Z.shiftl 3 3) with 24. change (Z.shiftl 2 3) with 16.
  change (Z.shiftl 1 3) with 8. change (Z.shiftl 0 3) with 0.
  change 255 with (Z.ones 8).
  rewrite !Z.land_ones, !Z.shiftr_div_pow2 by lia.
  change (2 ^ 8) with 256. rewrite !Z.mod_mod by lia.
  rewrite Z.pow_0_r, Z.div_1_r. reflexivity.
Qed.

Lemma encode_uint_cases (v : Z) :
  0 <= v < 2 ^ 32 ->
  (v < 2 ^ 8 /\ encode_uint v = [v]) \/
  (2 ^ 8 <= v < 2 ^ 16 /\ encode_uint v = [v / 2 ^ 8; v mod 256]) \/
  (2 ^ 16 <= v < 2 ^ 24 /\
     encode_uint v = [v / 2 ^ 16; (v / 2 ^ 8) mod 256; v mod 256]) \/
  (2 ^ 24 <= v /\
     encode_uint v =
       [v / 2 ^ 24; (v / 2 ^ 16) mod 256; (v / 2 ^ 8) mod 256; v mod 256]).
Proof.
  intros Hv. unfold encode_uint. rewrite to_uint32_small by lia.
  rewrite network_order_bytes.
  assert (H24 : 0 <= v / 2 ^ 24 < 256).
  { split; [apply Z.div_pos; lia | apply Z.div_lt_upper_bound; lia]. }
  destruct (Z.lt_ge_cases v (2 ^ 24)) as [L24 | G24].
  2: { right; right; right. split; [lia |].
       rewrite (Z.mod_small (v / 2 ^ 24)) by lia.
       assert (0 < v / 2 ^ 24) by (apply Z.div_str_pos; lia).
       cbn [cut_leading_zeroes]. destruct (Z.eqb_spec (v / 2 ^ 24) 0); [lia | reflexivity]. }
  rewrite (Z.div_small v (2 ^ 24)) by lia.
  change (0 mod 256) with 0. cbn [cut_leading_zeroes]. change (0 =? 0) with true. cbv iota.
  destruct (Z.lt_ge_cases v (2 ^ 16)) as [L16 | G16].
  2: { right; right; left. split; [lia |].
       assert (0 < v / 2 ^ 16 < 256).
       { split; [apply Z.div_str_pos; lia | apply Z.div_lt_upper_bound; lia]. }
       rewrite (Z.mod_small (v / 2 ^ 16)) by lia.
       destruct (Z.eqb_spec (v / 2 ^ 16) 0); [lia | reflexivity]. }
  rewrite (Z.div_small v (2 ^ 16)) by lia.
  change (0 mod 256) with 0. change (0 =? 0) with true. cbv iota.
  destruct (Z.lt_ge_cases v (2 ^ 8)) as [L8 | G8].
  2: { right; left. split; [lia |].
       assert (0 < v / 2 ^ 8 < 256).
       { split; [apply Z.div_str_pos; lia | apply Z.div_lt_upper_bound; lia]. }
       rewrite (Z.mod_small (v / 2 ^ 8)) by lia.
       destruct (Z.eqb_spec (v / 2 ^ 8) 0); [lia | reflexivity]. }
  left. split; [lia |].
  rewrite (Z.div_small v (2 ^ 8)) by lia.
  change (0 mod 256) with 0. change (0 =? 0) with true. cbv iota.
  rewrite Z.mod_small by lia. reflexivity.
Qed.

Lemma decode_encode_uint (v : Z) :
  0 <= v < 2 ^ 32 -> decode_uint (encode_uint v) = v.
Proof.
  intros Hv.
  assert (Hm : forall x, 0 <= x mod 256 < 256) by (intros; apply Z.mod_pos_bound; lia).
  assert (Hd : forall k, 0 <= k -> 0 <= v / 2 ^ k < 2 ^ (32 - k) \/ 32 < k).
  { intros k Hk. destruct (Z.le_gt_cases k 32); [left | right; lia].
    split; [apply Z.div_pos; lia |].
    apply Z.div_lt_upper_bound; [lia |].
    rewrite <- Z.pow_add_r by lia. replace (k + (32 - k)) with 32 by ring. lia. }
  pose proof (Hm v). pose proof (Hm (v / 2 ^ 8)). pose proof (Hm (v / 2 ^ 16)).
  pose proof (Z.div_mod v 256 ltac:(lia)) as E0.
  pose proof (Z.div_mod (v / 2 ^ 8) 256 ltac:(lia)) as E1.
  pose proof (Z.div_mod (v / 2 ^ 16) 256 ltac:(lia)) as E2.
  replace (v / 2 ^ 16 / 256) with (v / 2 ^ 24) in E2
    by (rewrite Z.div_div by lia; reflexivity).
  replace (v / 2 ^ 8 / 256) with (v / 2 ^ 16) in E1
    by (rewrite Z.div_div by lia; reflexivity).
  change (v / 256) with (v / 2 ^ 8) in E0.
  destruct (Hd 8) as [B8 | ?]; [lia | | lia].
  destruct (Hd 16) as [B16 | ?]; [lia | | lia].
  destruct (Hd 24) as [B24 | ?]; [lia | | lia].
  cbn in B8, B16, B24.
  destruct (encode_uint_cases v Hv) as [[R ->] | [[R ->] | [[R ->] | [R ->]]]];
    unfold decode_uint; cbn [fold_left].
  - rewrite (lor_shiftl_byte 0) by lia. lia.
  - rewrite (lor_shiftl_byte 0) by lia.
    rewrite lor_shiftl_byte by lia. lia.
  - rewrite (lor_shiftl_byte 0) by lia.
    rewrite (lor_shiftl_byte (0 * 256 + _)) by lia.
    rewrite lor_shiftl_byte by lia. lia.
  - rewrite (lor_shiftl_byte 0) by lia.
    rewrite (lor_shiftl_byte (0 * 256 + _)) by lia.
    rewrite (lor_shiftl_byte ((0 * 256 + _) * 256 + _)) by lia.
    rewrite lor_shiftl_byte by lia. lia.
Qed.

(** ** Option types *)

Ltac case_eqb :=
  repeat match goal with
         | |- context [Z.eqb ?a ?b] =>
             destruct (Z.eqb_spec a b); [subst; cbn in *; try lia; try discriminate |]
         end.

Lemma optval_type_known_range (t : Z) :
  _get_coap_optval_type t <> OPTVAL_UNKNWN -> 1 <= t <= 258.
Proof.
  unfold _get_coap_optval_type.
  unfold COAP_OPTION_IF_NONE_MATCH, COAP_OPTION_OBSERVE, COAP_OPTION_URI_PORT,
    COAP_OPTION_CONTENT_FORMAT, COAP_OPTION_MAXAGE, COAP_OPTION_ACCEPT,
    COAP_OPTION_BLOCK2, COAP_OPTION_BLOCK1, COAP_OPTION_SIZE2, COAP_OPTION_SIZE1,
    COAP_OPTION_NORESPONSE, COAP_OPTION_URI_HOST, COAP_OPTION_LOCATION_PATH,
    COAP_OPTION_URI_PATH, COAP_OPTION_URI_QUERY, COAP_OPTION_LOCATION_QUERY,
    COAP_OPTION_PROXY_URI, COAP_OPTION_PROXY_SCHEME, COAP_OPTION_IF_MATCH,
    COAP_OPTION_ETAG.
  case_eqb. cbn. congruence.
Qed.

(** ** The engine's options *)

Lemma coap_add_option_ok (p : coap_pdu_t) (t : Z) (val : bytes) :
  pdu_max_delta p <= t ->
  coap_add_option p t val = Some (set_pdu_options p (pdu_options p ++ [(t, val)])).
Proof.
  intros H. unfold coap_add_option.
  destruct (Z.ltb_spec t (pdu_max_delta p)); [lia | reflexivity].
Qed.

Lemma pdu_max_delta_snoc (p : coap_pdu_t) (t : Z) (val : bytes) :
  pdu_max_delta (set_pdu_options p (pdu_options p ++ [(t, val)])) = t.
Proof. unfold pdu_max_delta. cbn. rewrite last_snoc. reflexivity. Qed.

Lemma filter_has_single (t u : Z) : filter_has [t] u = (u =? t).
Proof. unfold filter_has. cbn. apply orb_false_r. Qed.

Lemma oi_scan_first (t : Z) (val : bytes) (opts : list (Z * bytes)) :
  Forall (fun o => fst o <> t) opts ->
  oi_scan true [t] (opts ++ [(t, val)]) = Some ((t, val), []).
Proof.
  induction 1 as [| o opts Ho _ IH]; cbn [app oi_scan negb orb fst].
  - rewrite filter_has_single, Z.eqb_refl. reflexivity.
  - rewrite filter_has_single. destruct (Z.eqb_spec (fst o) t); [contradiction | exact IH].
Qed.

Lemma to_uint16_small (t : Z) : 0 <= t < 2 ^ 16 -> to_uint16 t = t.
Proof. intros H. apply Z.mod_small. exact H. Qed.

(** Reading back the option added last, under the type the engine got. *)
Lemma get_option_added_narrowed (p : coap_pdu_t) (t : Z) (val : bytes) :
  Forall (fun o => fst o <> to_uint16 (to_int t)) (pdu_options p) ->
  l_coap_pdu_get_option
    (set_pdu_options p (pdu_options p ++ [(to_uint16 (to_int t), val)])) [LInt t]
  = Ok [_push_coap_opt_val val (to_int t); LBool true].
Proof.
  intros Hno. unfold l_coap_pdu_get_option. cbn.
  unfold coap_option_iterator_init, coap_option_next. cbn.
  destruct (pdu_options p ++ [(to_uint16 (to_int t), val)]) eqn:E.
  - destruct (pdu_options p); discriminate.
  - rewrite <- E, oi_scan_first by exact Hno. reflexivity.
Qed.

Lemma get_option_added (p : coap_pdu_t) (t : Z) (val : bytes) :
  0 <= t < 2 ^ 16 ->
  Forall (fun o => fst o <> t) (pdu_options p) ->
  l_coap_pdu_get_option (set_pdu_options p (pdu_options p ++ [(t, val)])) [LInt t]
  = Ok [_push_coap_opt_val val t; LBool true].
Proof.
  intros Ht Hno.
  assert (Hi : to_int t = t) by (apply to_int_small; lia).
  pose proof (get_option_added_narrowed p t val) as H.
  rewrite Hi, to_uint16_small in H by exact Ht. apply H. exact Hno.
Qed.

Lemma bytes_of_table_ints (bs : bytes) :
  bytes_of_table (map LInt bs) = Ok (map to_uint8 bs).
Proof. induction bs as [| b bs IH]; cbn; [reflexivity | rewrite IH; reflexivity]. Qed.


(** C10. [set_msg_id(m)] never raises, and [get_msg_id()] then returns
    [m] modulo 2^16: the id is cut to its low 16 bits. *)
Theorem msg_id_set_get (p : coap_pdu_t) (m : Z) :
  exists p',
    l_coap_pdu_set_msg_id p [LInt m] = Ok p' /\
    l_coap_pdu_get_msg_id p' = [LInt (m mod 2 ^ 16)] /\
    0 <= m mod 2 ^ 16 < 2 ^ 16.
Proof.
  eexists. split; [reflexivity |]. split.
  - unfold l_coap_pdu_get_msg_id. cbn. rewrite to_uint16_to_int. reflexivity.
  - apply Z.mod_pos_bound. lia.
Qed.

(** The encoding of an unsigned 32-bit value consists of bytes, and read
    most significant byte first it is the value. *)
Lemma encode_uint_big_endian (v : Z) :
  0 <= v < 2 ^ 32 ->
  Forall is_byte (encode_uint v) /\ be_value (encode_uint v) = v.
Proof.
  intros Hv. unfold is_byte, be_value.
  assert (B8 : 0 <= v mod 256 < 256) by (apply Z.mod_pos_bound; lia).
  assert (B16 : 0 <= (v / 2 ^ 8) mod 256 < 256) by (apply Z.mod_pos_bound; lia).
  assert (B24 : 0 <= (v / 2 ^ 16) mod 256 < 256) by (apply Z.mod_pos_bound; lia).
  assert (D8 : v / 2 ^ 8 = v / 256) by reflexivity.
  assert (D16 : v / 2 ^ 16 = v / 256 / 256)
    by (rewrite Z.div_div by lia; reflexivity).
  assert (D24 : v / 2 ^ 24 = v / 256 / 256 / 256)
    by (rewrite !Z.div_div by lia; reflexivity).
  pose proof (Z.div_mod v 256 ltac:(lia)) as E1.
  pose proof (Z.div_mod (v / 256) 256 ltac:(lia)) as E2.
  pose proof (Z.div_mod (v / 256 / 256) 256 ltac:(lia)) as E3.
  pose proof (Z.mod_pos_bound (v / 256) 256 ltac:(lia)) as M2.
  pose proof (Z.mod_pos_bound (v / 256 / 256) 256 ltac:(lia)) as M3.
  assert (P1 : 0 <= v / 256) by (apply Z.div_pos; lia).
  assert (P2 : 0 <= v / 256 / 256) by (apply Z.div_pos; lia).
  assert (P3 : 0 <= v / 256 / 256 / 256) by (apply Z.div_pos; lia).
  destruct (encode_uint_cases v Hv) as [[R ->] | [[R ->] | [[R ->] | [R ->]]]];
    cbn [fold_left]; rewrite ?D24, ?D16, ?D8 in *.
  - split; [repeat constructor; lia | lia].
  - split; [repeat constructor; lia | lia].
  - split; [repeat constructor; lia | lia].
  - split; [repeat constructor; lia | lia].
Qed.

(** C2. An unsigned 32-bit [v] set as the value of a UInt-classified option
    is read back as [v]; its encoding is big-endian (bytes that, read most
    significant first, give [v]), 1 to 4 bytes long, the single byte 0 for
    [v = 0] and without a leading zero byte otherwise. *)
Theorem uint_option_roundtrip (p : coap_pdu_t) (t v : Z) :
  _get_coap_optval_type t = OPTVAL_UINT ->
  0 <= v < 2 ^ 32 ->
  pdu_max_delta p <= t ->
  Forall (fun o => fst o <> t) (pdu_options p) ->
  let e := encode_uint v in
  let p' := set_pdu_options p (pdu_options p ++ [(t, e)]) in
  l_coap_pdu_set_option p [LInt t; LInt v] = Ok p' /\
  l_coap_pdu_get_option p' [LInt t] = Ok [LInt v; LBool true] /\
  _push_coap_opt_val e t = LInt v /\
  decode_uint e = v /\
  Forall is_byte e /\
  be_value e = v /\
  (1 <= length e <= 4)%nat /\
  (v = 0 -> e = [0]) /\
  (v <> 0 -> hd 0 e <> 0).
Proof.
  intros Ht Hv Hmax Hno e p'.
  destruct (encode_uint_big_endian v Hv) as [Hbytes Hbe].
  assert (Hr : 1 <= t <= 258) by (apply optval_type_known_range; congruence).
  assert (Hdec : decode_uint e = v) by (apply decode_encode_uint; exact Hv).
  assert (Hlen : (1 <= length e <= 4)%nat /\ (v = 0 -> e = [0]) /\ (v <> 0 -> hd 0 e <> 0)).
  { subst e.
    destruct (encode_uint_cases v Hv) as [[R ->] | [[R ->] | [[R ->] | [R ->]]]];
      cbn [length hd]; (split; [lia |]); (split; [try lia | intros ?]).
    - intros ->. reflexivity.
    - lia.
    - assert (0 < v / 2 ^ 8) by (apply Z.div_str_pos; lia). lia.
    - assert (0 < v / 2 ^ 16) by (apply Z.div_str_pos; lia). lia.
    - assert (0 < v / 2 ^ 24) by (apply Z.div_str_pos; lia). lia. }
  assert (Hpush : _push_coap_opt_val e t = LInt v).
  { unfold _push_coap_opt_val. rewrite Ht, Hdec.
    destruct e; [apply proj1 in Hlen; cbn in Hlen; lia | reflexivity]. }
  split; [| split; [| split; [| split; [| split; [| split]]]]]; try assumption.
  - unfold l_coap_pdu_set_option. cbn.
    rewrite to_int_small by lia. rewrite to_uint16_small by lia. rewrite Ht. cbn.
    fold e. rewrite coap_add_option_ok by exact Hmax. reflexivity.
  - subst p'. rewrite get_option_added by (try assumption; lia).
    rewrite Hpush. reflexivity.
Qed.

Lemma uint_option_roundtrip_witness :
  l_coap_pdu_get_option
    (set_pdu_options (mk_pdu 0 1 7 [] [] [])
       ([] ++ [(COAP_OPTION_CONTENT_FORMAT, encode_uint 65537)]))
    [LInt COAP_OPTION_CONTENT_FORMAT] = Ok [LInt 65537; LBool true] /\
  Forall is_byte (encode_uint 65537) /\
  be_value (encode_uint 65537) = 65537 /\
  encode_uint 65537 = [1; 0; 1].
Proof.
  refine ((fun H => conj (proj1 (proj2 H))
             (conj (proj1 (proj2 (proj2 (proj2 (proj2 H)))))
                (conj (proj1 (proj2 (proj2 (proj2 (proj2 (proj2 H)))))) eq_refl)))
            (uint_option_roundtrip (mk_pdu 0 1 7 [] [] [])
               COAP_OPTION_CONTENT_FORMAT 65537 _ _ _ _)).
  - reflexivity.
  - lia.
  - cbn. unfold COAP_OPTION_CONTENT_FORMAT. lia.
  - constructor.
Defined.

(** ** Opaque option values *)




(** The shape of [l_coap_pdu_set_option] for a known option type and a
    value argument. *)
Lemma set_option_known (p : coap_pdu_t) (t : Z) (val : lua_value) :
  _get_coap_optval_type t <> OPTVAL_UNKNWN ->
  l_coap_pdu_set_option p [LInt t; val] =
    (opt_val ←
       match _get_coap_optval_type t with
       | OPTVAL_UINT => v ← luaL_checkinteger [LInt t; val] 2; Ok (encode_uint v)
       | OPTVAL_STRING => luaL_checkstring [LInt t; val] 2
       | OPTVAL_OPAQUE => encode_opaque [LInt t; val]
       | OPTVAL_UNKNWN => Ok []
       end;
     match coap_add_option p t opt_val with
     | Some p' => Ok p'
     | None => Raise OptionOrderViolation
     end).
Proof.
  intros Ht. pose proof (optval_type_known_range t Ht) as Hr.
  unfold l_coap_pdu_set_option.
  change (luaL_checkinteger [LInt t; val] 1) with (Ok (A:=Z) t).
  change (has_arg [LInt t; val] 2) with true.
  cbn [mbind result_bind]. rewrite to_int_small by lia.
  rewrite to_uint16_small by lia.
  destruct (_get_coap_optval_type t); [congruence | reflexivity ..].
Qed.



(** ** Trimming and query parameters *)

Lemma byte_at_middle (l1 l2 : bytes) (c : Z) :
  byte_at (l1 ++ c :: l2) (Z.of_nat (length l1)) = c.
Proof. unfold byte_at. rewrite Nat2Z.id. apply nth_middle. Qed.

Lemma sub_middle (l1 l2 l3 : bytes) :
  sub (Z.of_nat (length l1)) (Z.of_nat (length l2)) (l1 ++ l2 ++ l3) = l2.
Proof.
  unfold sub. rewrite !Nat2Z.id, drop_app_length, take_app_length. reflexivity.
Qed.

Example parse_qstr_name_val :
  parse_qstr (bytes_of_string " name = val ")
  = (bytes_of_string "name", bytes_of_string "val").
Proof. reflexivity. Qed.

Example parse_qstr_flag :
  parse_qstr (bytes_of_string "flag") = (bytes_of_string "flag", []).
Proof. reflexivity. Qed.

(** The rounds given to the loop of [strtrim] are enough: it ends because
    its condition fails or because both ends are no whitespace. *)
Lemma strtrim_loop_done (str : bytes) (rounds : nat) :
  forall s e : Z,
    (Z.to_nat (e - s) <= rounds)%nat ->
    let '(s', e') := strtrim_loop rounds str s e in
    (s' <? e') = false \/
    (isspace (byte_at str s') = false /\ isspace (byte_at str e') = false).
Proof.
  induction rounds as [| rounds IH]; intros s e Hr; cbn [strtrim_loop].
  - left. apply Z.ltb_ge. lia.
  - destruct (Z.ltb_spec s e) as [Hlt | Hge]; [| left; apply Z.ltb_ge; lia].
    destruct (isspace (byte_at str s)) eqn:Hs; [apply IH; lia |].
    destruct (isspace (byte_at str e)) eqn:He; [apply IH; lia |].
    right. split; assumption.
Qed.

(** The loop of [strtrim] stops with one byte left on a string of
    whitespace only. *)
Lemma strtrim_loop_spaces (str : bytes) (rounds : nat) (s e : Z) :
  (forall i, s <= i <= e -> isspace (byte_at str i) = true) ->
  0 <= s <= e -> (Z.to_nat (e - s) <= rounds)%nat ->
  strtrim_loop rounds str s e = (e, e).
Proof.
  revert s. induction rounds as [| rounds IH]; intros s Hsp Hse Hr; cbn [strtrim_loop].
  - f_equal; lia.
  - destruct (Z.ltb_spec s e) as [Hlt | Hge]; [| f_equal; lia].
    rewrite Hsp by lia. apply IH; [intros; apply Hsp |..]; lia.
Qed.

Lemma strtrim_spaces (n : nat) (c : Z) :
  isspace c = true -> strtrim (replicate (S n) c) = [c].
Proof.
  intros Hc. unfold strtrim.
  rewrite (strtrim_loop_spaces _ _ 0 (Z.of_nat (length (replicate (S n) c)) - 1)).
  - rewrite length_replicate. rewrite Z.leb_refl.
    unfold sub. replace (Z.of_nat (S n) - 1) with (Z.of_nat n) by lia.
    rewrite Nat2Z.id. replace (Z.to_nat (Z.of_nat n - Z.of_nat n + 1)) with 1%nat by lia.
    rewrite drop_replicate. replace (S n - n)%nat with 1%nat by lia. reflexivity.
  - intros i Hi. unfold byte_at. rewrite length_replicate in Hi.
    rewrite nth_lookup, lookup_replicate_2 by lia. exact Hc.
  - rewrite length_replicate. lia.
  - rewrite length_replicate. lia.
Qed.

Lemma strtrim_loop_stop (str : bytes) (rounds : nat) (s e : Z) :
  (s <? e) = false \/
  (isspace (byte_at str s) = false /\ isspace (byte_at str e) = false) ->
  strtrim_loop rounds str s e = (s, e).
Proof.
  intros H. destruct rounds as [| rounds]; cbn [strtrim_loop]; [reflexivity |].
  destruct H as [-> | [-> ->]]; [reflexivity |]. destruct (s <? e); reflexivity.
Qed.

Lemma strtrim_loop_skip_left (str : bytes) (k : nat) :
  forall (rounds : nat) (s e : Z),
    (forall i, s <= i < s + Z.of_nat k -> isspace (byte_at str i) = true) ->
    s + Z.of_nat k <= e ->
    strtrim_loop (k + rounds) str s e = strtrim_loop rounds str (s + Z.of_nat k) e.
Proof.
  induction k as [| k IH]; intros rounds s e Hsp Hle.
  - cbn [Nat.add]. f_equal. lia.
  - cbn [Nat.add strtrim_loop].
    destruct (Z.ltb_spec s e); [| lia].
    rewrite Hsp by lia. rewrite IH; [f_equal; lia | intros; apply Hsp; lia | lia].
Qed.

Lemma strtrim_loop_skip_right (str : bytes) (k : nat) :
  forall (rounds : nat) (s e : Z),
    isspace (byte_at str s) = false ->
    (forall i, e - Z.of_nat k < i <= e -> isspace (byte_at str i) = true) ->
    s <= e - Z.of_nat k ->
    strtrim_loop (k + rounds) str s e = strtrim_loop rounds str s (e - Z.of_nat k).
Proof.
  induction k as [| k IH]; intros rounds s e Hs Hsp Hle.
  - cbn [Nat.add]. f_equal. lia.
  - cbn [Nat.add strtrim_loop].
    destruct (Z.ltb_spec s e); [| lia].
    rewrite Hs, Hsp by lia. rewrite IH; [f_equal; lia | exact Hs | intros; apply Hsp; lia | lia].
Qed.

Lemma byte_at_app_l (l1 l2 : bytes) (i : Z) :
  0 <= i < Z.of_nat (length l1) -> byte_at (l1 ++ l2) i = byte_at l1 i.
Proof. intros H. unfold byte_at. apply app_nth1. lia. Qed.

Lemma byte_at_app_r (l1 l2 : bytes) (i : Z) :
  Z.of_nat (length l1) <= i ->
  byte_at (l1 ++ l2) i = byte_at l2 (i - Z.of_nat (length l1)).
Proof.
  intros H. unfold byte_at. rewrite app_nth2 by lia. f_equal. lia.
Qed.

Lemma byte_at_spaces (ws : bytes) (i : Z) :
  Forall (fun c => isspace c = true) ws -> 0 <= i < Z.of_nat (length ws) ->
  isspace (byte_at ws i) = true.
Proof.
  intros Hws Hi. unfold byte_at.
  rewrite Forall_forall in Hws. apply Hws. apply list_elem_of_In, nth_In. lia.
Qed.

(** What [strtrim] does right: whitespace around a string that begins and
    ends with other bytes is taken off. *)
Lemma strtrim_core (ws1 core ws2 : bytes) :
  Forall (fun c => isspace c = true) ws1 ->
  Forall (fun c => isspace c = true) ws2 ->
  core <> [] ->
  isspace (byte_at core 0) = false ->
  isspace (byte_at core (Z.of_nat (length core) - 1)) = false ->
  strtrim (ws1 ++ core ++ ws2) = core.
Proof.
  intros H1 H2 Hne Hfirst Hlast.
  assert (Hc : (0 < length core)%nat) by (destruct core; [congruence | cbn; lia]).
  unfold strtrim. rewrite !length_app.
  set (str := ws1 ++ core ++ ws2).
  set (n1 := length ws1). set (nc := length core). set (n2 := length ws2).
  assert (Hat1 : forall i, 0 <= i < Z.of_nat n1 -> isspace (byte_at str i) = true).
  { intros i Hi. subst str. rewrite byte_at_app_l by (fold n1; lia).
    apply byte_at_spaces; [exact H1 | fold n1; lia]. }
  assert (Hatc : forall i, Z.of_nat n1 <= i < Z.of_nat (n1 + nc) ->
                           byte_at str i = byte_at core (i - Z.of_nat n1)).
  { intros i Hi. subst str. rewrite byte_at_app_r by (fold n1; lia).
    rewrite byte_at_app_l by (fold n1 nc; lia). reflexivity. }
  assert (Hat2 : forall i, Z.of_nat (n1 + nc) <= i < Z.of_nat (n1 + nc + n2) ->
                           isspace (byte_at str i) = true).
  { intros i Hi. subst str. rewrite byte_at_app_r by (fold n1; lia).
    rewrite byte_at_app_r by (fold n1 nc; lia).
    apply byte_at_spaces; [exact H2 | fold n1 nc n2; lia]. }
  replace (n1 + (nc + n2))%nat with (n1 + (n2 + nc))%nat by lia.
  rewrite strtrim_loop_skip_left; [| intros; apply Hat1; lia | lia].
  rewrite strtrim_loop_skip_right.
  - rewrite strtrim_loop_stop.
    + replace (0 + Z.of_nat n1 <=? Z.of_nat (n1 + (n2 + nc)) - 1 - Z.of_nat n2) with true
        by (symmetry; apply Z.leb_le; lia).
      replace (Z.of_nat (n1 + (n2 + nc)) - 1 - Z.of_nat n2 - (0 + Z.of_nat n1) + 1)
        with (Z.of_nat nc) by lia.
      rewrite Z.add_0_l. subst str n1 nc. apply sub_middle.
    + destruct (Z.ltb_spec (0 + Z.of_nat n1)
                  (Z.of_nat (n1 + (n2 + nc)) - 1 - Z.of_nat n2)); [right | left; reflexivity].
      rewrite !Hatc by lia. split.
      * replace (0 + Z.of_nat n1 - Z.of_nat n1) with 0 by lia. exact Hfirst.
      * replace (Z.of_nat (n1 + (n2 + nc)) - 1 - Z.of_nat n2 - Z.of_nat n1)
          with (Z.of_nat nc - 1) by lia. exact Hlast.
  - rewrite Hatc by lia. replace (0 + Z.of_nat n1 - Z.of_nat n1) with 0 by lia. exact Hfirst.
  - intros i Hi. apply Hat2. lia.
  - lia.
Qed.

(** C3, where the code departs from it: the Uri-Query bytes [" = x"] come
    out of the iterator and of the lookup as the parameter named [" "] with
    the value ["x"], since [strtrim] leaves the last byte of a string of
    whitespace in place. *)
Theorem qstr_blank_name_surfaces :
  let p := mk_pdu 0 1 7 [] [(COAP_OPTION_URI_QUERY, bytes_of_string " = x")] [] in
  parse_qstr (bytes_of_string " = x") = (bytes_of_string " ", bytes_of_string "x") /\
  (exists L st L' st',
      l_coap_pdu_qstr_params L0 p [] = Ok (L, st) /\
      _coap_qstr_param_iter L (Some st)
      = Some (Ok [LStr (bytes_of_string " "); LStr (bytes_of_string "x")],
              L', Some st')) /\
  l_coap_pdu_get_qstr_param p [LStr (bytes_of_string " ")]
  = Ok [LStr (bytes_of_string "x"); LBool true] /\
  (forall n, strtrim (replicate (S n) 32) = [32]).
Proof.
  split; [reflexivity |]. split.
  - do 4 eexists. split; reflexivity.
  - split; [reflexivity |]. intros n. apply strtrim_spaces. reflexivity.
Qed.

(** ** URI path *)

Lemma set_pdu_options_id (p : coap_pdu_t) : set_pdu_options p (pdu_options p) = p.
Proof. destruct p; reflexivity. Qed.

Lemma set_pdu_options_twice (p : coap_pdu_t) (a b : list (Z * bytes)) :
  set_pdu_options (set_pdu_options p a) b = set_pdu_options p b.
Proof. reflexivity. Qed.

Lemma set_uri_path_str_segments (rest : bytes) :
  forall (uri pre cur : bytes) (p : coap_pdu_t),
    uri = pre ++ cur ++ rest ->
    (cur <> [] -> rest <> []) ->
    pdu_max_delta p <= COAP_OPTION_URI_PATH ->
    set_uri_path_str uri (Z.of_nat (length uri))
      (map Z.of_nat (seq (length pre + length cur) (length rest)))
      (seg_start pre cur) p
    = (Ok tt,
       set_pdu_options p
         (pdu_options p
          ++ map (pair COAP_OPTION_URI_PATH) (path_segments_from cur rest))).
Proof.
  induction rest as [| c r IH]; intros uri pre cur p Huri Hcur Hmax.
  - destruct cur as [| c0 cur]; [| exfalso; exact (Hcur ltac:(discriminate) eq_refl)].
    cbn. rewrite app_nil_r, set_pdu_options_id. reflexivity.
  - cbn [length seq map set_uri_path_str path_segments_from].
    assert (Hc : byte_at uri (Z.of_nat (length pre + length cur)) = c).
    { subst uri. rewrite app_assoc, <- length_app. apply byte_at_middle. }
    rewrite Hc.
    assert (Hlen : Z.of_nat (length uri)
                   = Z.of_nat (length pre + length cur) + 1 + Z.of_nat (length r)).
    { subst uri. rewrite !length_app. cbn [length]. lia. }
    assert (Hadd : forall seg, pdu_max_delta
              (set_pdu_options p (pdu_options p ++ [(COAP_OPTION_URI_PATH, seg)]))
              <= COAP_OPTION_URI_PATH).
    { intros seg. rewrite pdu_max_delta_snoc. lia. }
    destruct (Z.eqb_spec c 47) as [-> | Hne]; cbn [negb andb].
    + (* a slash: the segment read so far, if any, is added *)
      rewrite andb_false_r.
      destruct cur as [| c0 cur]; cbn [seg_start].
      * change (0 <=? -1) with false. cbv iota.
        specialize (IH uri (pre ++ [47]) [] p).
        rewrite length_app in IH. cbn [length] in IH.
        rewrite Nat.add_0_r in *. replace (S (length pre)) with (length pre + 1)%nat by lia.
        apply IH; [subst uri; rewrite <- app_assoc; reflexivity | congruence | exact Hmax].
      * destruct (Z.leb_spec 0 (Z.of_nat (length pre))) as [_ | ?]; [| lia].
        replace (Z.of_nat (length pre + length (c0 :: cur)) - Z.of_nat (length pre))
          with (Z.of_nat (length (c0 :: cur))) by lia.
        assert (Hsub : sub (Z.of_nat (length pre)) (Z.of_nat (length (c0 :: cur))) uri
                       = c0 :: cur).
        { subst uri. apply sub_middle. }
        rewrite Hsub, coap_add_option_ok by exact Hmax.
        specialize (IH uri (pre ++ (c0 :: cur) ++ [47]) []
                      (set_pdu_options p (pdu_options p
                                          ++ [(COAP_OPTION_URI_PATH, c0 :: cur)]))).
        rewrite !length_app in IH. cbn [length] in IH.
        rewrite Nat.add_0_r in IH.
        replace (S (length pre + length (c0 :: cur)))
          with (length pre + (S (length cur) + 1))%nat by (cbn [length]; lia).
        cbn [seg_start] in IH. etransitivity.
        -- apply IH; [subst uri; rewrite <- !app_assoc; reflexivity | congruence |].
           apply Hadd.
        -- rewrite set_pdu_options_twice. cbn [pdu_options set_pdu_options map].
           rewrite <- app_assoc. reflexivity.
    + (* no slash: the byte belongs to a segment *)
      assert (Hb : (if (seg_start pre cur <? 0) && true
                    then Z.of_nat (length pre + length cur) else seg_start pre cur)
                   = Z.of_nat (length pre)).
      { destruct cur; cbn [seg_start length].
        - change (-1 <? 0) with true. cbn. f_equal. lia.
        - destruct (Z.ltb_spec (Z.of_nat (length pre)) 0); [lia | reflexivity]. }
      rewrite Hb.
      destruct (Z.leb_spec 0 (Z.of_nat (length pre))) as [_ | ?]; [| lia].
      destruct r as [| c' r'].
      * (* the last byte of the string *)
        destruct (Z.leb_spec (Z.of_nat (length uri))
                    (Z.of_nat (length pre + length cur) + 1)) as [_ | Hlt];
          [| cbn [length] in Hlen; lia].
        replace (Z.of_nat (length uri) - Z.of_nat (length pre))
          with (Z.of_nat (length (cur ++ [c])))
          by (rewrite length_app; cbn [length] in *; lia).
        assert (Hsub : sub (Z.of_nat (length pre)) (Z.of_nat (length (cur ++ [c]))) uri
                       = cur ++ [c]).
        { subst uri. rewrite <- (app_nil_r (pre ++ cur ++ [c])), <- !app_assoc.
          rewrite (app_assoc cur). apply sub_middle. }
        rewrite Hsub, coap_add_option_ok by exact Hmax.
        cbn [length seq map set_uri_path_str path_segments_from].
        destruct (cur ++ [c]) eqn:E; [destruct cur; discriminate | reflexivity].
      * destruct (Z.leb_spec (Z.of_nat (length uri))
                    (Z.of_nat (length pre + length cur) + 1)) as [Hle | _];
          [cbn [length] in Hlen; lia |].
        specialize (IH uri pre (cur ++ [c]) p).
        rewrite length_app in IH. cbn [length] in IH.
        replace (S (length pre + length cur)) with (length pre + (length cur + 1))%nat
          by lia.
        replace (seg_start pre (cur ++ [c])) with (Z.of_nat (length pre)) in IH
          by (destruct cur; reflexivity).
        apply IH; [subst uri; rewrite <- app_assoc; reflexivity | discriminate | exact Hmax].
Qed.

Lemma set_uri_path_string (p : coap_pdu_t) (uri : bytes) :
  pdu_max_delta p <= COAP_OPTION_URI_PATH ->
  l_coap_pdu_set_uri_path p [LStr uri]
  = (Ok tt,
     set_pdu_options p
       (pdu_options p ++ map (pair COAP_OPTION_URI_PATH) (path_segments uri))).
Proof.
  intros Hmax. unfold l_coap_pdu_set_uri_path. cbn [lua_arg Nat.sub nth_error].
  apply (set_uri_path_str_segments uri uri [] [] p); [reflexivity | congruence | exact Hmax].
Qed.

Lemma set_uri_path_array (segs : list bytes) :
  forall p : coap_pdu_t,
    pdu_max_delta p <= COAP_OPTION_URI_PATH ->
    l_coap_pdu_set_uri_path p [LTable (map LStr segs)]
    = (Ok tt,
       set_pdu_options p (pdu_options p ++ map (pair COAP_OPTION_URI_PATH) segs)).
Proof.
  unfold l_coap_pdu_set_uri_path. cbn [lua_arg Nat.sub nth_error].
  induction segs as [| seg segs IH]; intros p Hmax; cbn [map set_uri_path_arr].
  - rewrite app_nil_r, set_pdu_options_id. reflexivity.
  - rewrite coap_add_option_ok by exact Hmax.
    rewrite IH by (rewrite pdu_max_delta_snoc; lia).
    rewrite set_pdu_options_twice. cbn [pdu_options set_pdu_options].
    rewrite <- app_assoc. reflexivity.
Qed.

(** [coap_options_of] is what repeated calls of [coap_option_next] give. *)
Lemma oi_scan_drain (filtered : bool) (filter : list Z) (rest : list (Z * bytes)) :
  match oi_scan filtered filter rest with
  | Some (o, rest') =>
      oi_drain filtered filter rest = o :: oi_drain filtered filter rest'
  | None => oi_drain filtered filter rest = []
  end.
Proof.
  induction rest as [| o rest IH]; cbn [oi_scan oi_drain]; [reflexivity |].
  destruct (negb filtered || filter_has filter (fst o)); [reflexivity | exact IH].
Qed.

Lemma coap_option_next_drain (oi : coap_opt_iterator_t) :
  match coap_option_next oi with
  | (Some o, oi') => coap_options_of oi = o :: coap_options_of oi'
  | (None, oi') => coap_options_of oi = [] /\ coap_options_of oi' = []
  end.
Proof.
  unfold coap_option_next, coap_options_of.
  destruct (oi_bad oi) eqn:Hbad; [rewrite Hbad; split; reflexivity |].
  destruct (oi_rest oi) as [| o rest] eqn:Hrest.
  - rewrite Hbad, Hrest. split; reflexivity.
  - pose proof (oi_scan_drain (oi_filtered oi) (oi_filter oi) (o :: rest)) as H.
    destruct (oi_scan (oi_filtered oi) (oi_filter oi) (o :: rest)) as [[o' rest'] |].
    + exact H.
    + split; [exact H | reflexivity].
Qed.

Lemma oi_drain_filter (t : Z) (opts : list (Z * bytes)) :
  oi_drain true [t] opts = List.filter (fun o => fst o =? t) opts.
Proof.
  induction opts as [| o opts IH]; cbn [oi_drain List.filter negb orb]; [reflexivity |].
  rewrite filter_has_single, IH. reflexivity.
Qed.

Lemma uri_path_str_join (opts : list (Z * bytes)) :
  uri_path_str opts = join_path (List.filter non_empty (map snd opts)).
Proof.
  unfold join_path.
  induction opts as [| [t v] opts IH]; cbn [uri_path_str map snd List.filter]; [reflexivity |].
  destruct v; cbn [non_empty]; [exact IH |].
  cbn [map concat]. rewrite IH. reflexivity.
Qed.

Lemma get_uri_path_string (p : coap_pdu_t) :
  l_coap_pdu_get_uri_path p []
  = match join_path (List.filter non_empty (uri_path_values p)) with
    | [] => [LNil]
    | str => [LStr str]
    end.
Proof.
  unfold l_coap_pdu_get_uri_path, coap_option_iterator_init, uri_path_values.
  cbn [has_arg length Nat.leb].
  destruct (pdu_options p) as [| o opts] eqn:Hopts.
  - destruct (pdu_data p); reflexivity.
  - cbn [negb]. unfold coap_options_of. cbn [oi_bad oi_rest oi_filtered oi_filter].
    rewrite oi_drain_filter, uri_path_str_join. reflexivity.
Qed.

Lemma path_segments_from_non_empty (uri : bytes) :
  forall cur, List.filter non_empty (path_segments_from cur uri)
              = path_segments_from cur uri.
Proof.
  induction uri as [| c uri IH]; intros cur; cbn [path_segments_from].
  - destruct cur; reflexivity.
  - destruct (c =? 47); [| apply IH].
    destruct cur; [apply IH |]. cbn [List.filter non_empty]. rewrite IH. reflexivity.
Qed.

Lemma uri_path_values_added (p : coap_pdu_t) (vals : list bytes) :
  uri_path_values
    (set_pdu_options p (pdu_options p ++ map (pair COAP_OPTION_URI_PATH) vals))
  = uri_path_values p ++ vals.
Proof.
  unfold uri_path_values. cbn [pdu_options set_pdu_options].
  rewrite List.filter_app, map_app. f_equal.
  induction vals as [| v vals IH]; [reflexivity |].
  cbn [map List.filter fst]. change (COAP_OPTION_URI_PATH =? COAP_OPTION_URI_PATH) with true.
  cbn [map snd]. rewrite IH. reflexivity.
Qed.

Lemma filter_non_empty_all_empty (vals : list bytes) :
  Forall (fun v => v = []) vals -> List.filter non_empty vals = [].
Proof.
  induction 1 as [| v vals Hv _ IH]; [reflexivity |].
  subst v. cbn [List.filter non_empty]. exact IH.
Qed.

(** C4, as the code has it.  Reading, of any message, whatever other
    options it has: the string form of [get_uri_path] is ["/" + value] for
    every Uri-Path option with a value, in order, and [nil] when there is
    none, that is without Uri-Path options or with empty ones only.
    Composing, on a message that takes a Uri-Path option: a path string
    gives one Uri-Path option per non-empty segment, in order; an array
    gives one per element, in order, the empty ones too.  So ["/a/b/c"]
    comes back as set, and an array without empty strings gives the options
    of the path string with these segments. *)
Theorem uri_path_compose_parse (p : coap_pdu_t) (uri : bytes) (segs : list bytes) :
  let added vals :=
    set_pdu_options p (pdu_options p ++ map (pair COAP_OPTION_URI_PATH) vals) in
  l_coap_pdu_get_uri_path p []
  = match join_path (List.filter non_empty (uri_path_values p)) with
    | [] => [LNil]
    | str => [LStr str]
    end /\
  (Forall (fun v => v = []) (uri_path_values p) ->
   l_coap_pdu_get_uri_path p [] = [LNil]) /\
  (pdu_max_delta p <= COAP_OPTION_URI_PATH ->
   l_coap_pdu_set_uri_path p [LStr uri] = (Ok tt, added (path_segments uri)) /\
   l_coap_pdu_set_uri_path p [LTable (map LStr segs)] = (Ok tt, added segs)) /\
  l_coap_pdu_get_uri_path (added (path_segments uri)) []
  = match join_path (List.filter non_empty (uri_path_values p) ++ path_segments uri) with
    | [] => [LNil]
    | str => [LStr str]
    end /\
  (uri_path_values p = [] ->
   l_coap_pdu_get_uri_path (added (path_segments uri)) []
   = match path_segments uri with
     | [] => [LNil]
     | _ => [LStr (join_path (path_segments uri))]
     end) /\
  path_segments (bytes_of_string "/a/b/c")
  = [bytes_of_string "a"; bytes_of_string "b"; bytes_of_string "c"] /\
  join_path [bytes_of_string "a"; bytes_of_string "b"; bytes_of_string "c"]
  = bytes_of_string "/a/b/c".
Proof.
  intros added.
  assert (Hread : l_coap_pdu_get_uri_path (added (path_segments uri)) []
    = match join_path (List.filter non_empty (uri_path_values p) ++ path_segments uri) with
      | [] => [LNil]
      | str => [LStr str]
      end).
  { rewrite get_uri_path_string. subst added. cbv beta.
    rewrite uri_path_values_added, List.filter_app.
    unfold path_segments. rewrite path_segments_from_non_empty. reflexivity. }
  split; [apply get_uri_path_string |].
  split.
  { intros Hall. rewrite get_uri_path_string.
    rewrite filter_non_empty_all_empty by exact Hall. reflexivity. }
  split.
  { intros Hmax.
    split; [apply set_uri_path_string; exact Hmax | apply set_uri_path_array; exact Hmax]. }
  split; [exact Hread |].
  split; [| split; reflexivity].
  intros Hnone. rewrite Hread, Hnone. cbn [List.filter app].
  destruct (path_segments uri) as [| s segs']; reflexivity.
Qed.

Lemma uri_path_compose_parse_witness :
  l_coap_pdu_set_uri_path p0 [LStr (bytes_of_string "/a/b/c")]
  = l_coap_pdu_set_uri_path p0
      [LTable (map LStr [bytes_of_string "a"; bytes_of_string "b"; bytes_of_string "c"])] /\
  l_coap_pdu_get_uri_path
    (mk_pdu 0 1 7 []
       [(COAP_OPTION_URI_PATH, bytes_of_string "a");
        (COAP_OPTION_URI_PATH, bytes_of_string "b");
        (COAP_OPTION_URI_QUERY, bytes_of_string "x=1")] []) []
  = [LStr (bytes_of_string "/a/b")] /\
  l_coap_pdu_get_uri_path
    (mk_pdu 0 1 7 [] [(COAP_OPTION_URI_QUERY, bytes_of_string "x=1")] []) []
  = [LNil] /\
  (exists p',
     l_coap_pdu_set_uri_path p0 [LStr (bytes_of_string "/a/b/c")] = (Ok tt, p') /\
     l_coap_pdu_get_uri_path p' [] = [LStr (bytes_of_string "/a/b/c")]).
Proof.
  split; [| split; [| split]].
  4: { destruct (uri_path_compose_parse p0 (bytes_of_string "/a/b/c") [])
         as (_ & _ & Hset & _ & Hget & _).
       eexists. split.
       - apply Hset. cbn. unfold COAP_OPTION_URI_PATH. lia.
       - apply Hget. reflexivity. }
  - destruct (uri_path_compose_parse p0 (bytes_of_string "/a/b/c")
                [bytes_of_string "a"; bytes_of_string "b"; bytes_of_string "c"])
      as (_ & _ & Hset & _).
    destruct Hset as [Hs Ha].
    + cbn. unfold COAP_OPTION_URI_PATH. lia.
    + rewrite Hs, Ha. reflexivity.
  - exact (proj1 (uri_path_compose_parse
                    (mk_pdu 0 1 7 []
                       [(COAP_OPTION_URI_PATH, bytes_of_string "a");
                        (COAP_OPTION_URI_PATH, bytes_of_string "b");
                        (COAP_OPTION_URI_QUERY, bytes_of_string "x=1")] []) [] [])).
  - refine (proj1 (proj2 (uri_path_compose_parse
                            (mk_pdu 0 1 7 [] [(COAP_OPTION_URI_QUERY, bytes_of_string "x=1")] [])
                            [] [])) _).
    constructor.
Defined.

(** C4 fails for an array with an empty string: it gets a Uri-Path option
    of its own, which the string form of [get_uri_path] then passes over. *)
Lemma uri_path_array_keeps_empty_segment :
  let segs := [bytes_of_string "a"; []] in
  exists p',
    l_coap_pdu_set_uri_path p0 [LTable (map LStr segs)] = (Ok tt, p') /\
    pdu_options p' = [(COAP_OPTION_URI_PATH, bytes_of_string "a");
                      (COAP_OPTION_URI_PATH, [])] /\
    pdu_options p'
    <> map (pair COAP_OPTION_URI_PATH) (List.filter non_empty segs) /\
    l_coap_pdu_get_uri_path p' [] = [LStr (bytes_of_string "/a")] /\
    l_coap_pdu_get_uri_path p' [] <> [LStr (join_path (uri_path_values p'))].
Proof.
  eexists. split; [reflexivity |].
  split; [reflexivity |]. split; [discriminate |].
  split; [reflexivity | discriminate].
Qed.

(** ** The access state of PDU objects *)

Lemma dispatcher_locked (ud : ud_coap_pdu_t) (fname : bytes) :
  access_lck ud = true -> _pdu_obj_dispacher ud (LStr fname) = Raise ObjectLocked.
Proof. intros H. unfold _pdu_obj_dispacher. cbn. rewrite H. reflexivity. Qed.

Lemma dispatcher_not_locked (ud : ud_coap_pdu_t) (key : lua_value) (m : pdu_method) :
  _pdu_obj_dispacher ud key = Ok m -> access_lck ud = false.
Proof.
  unfold _pdu_obj_dispacher. destruct key; cbn; try discriminate.
  all: destruct (access_lck ud); [discriminate | reflexivity].
Qed.

Lemma send_reqh_lck (ud : ud_coap_pdu_t) (args : list lua_value) :
  access_ro (snd (l_coap_pdu_send_reqh ud args)) = access_ro ud /\
  access_hndlr (snd (l_coap_pdu_send_reqh ud args)) = access_hndlr ud /\
  (fst (l_coap_pdu_send_reqh ud args) = Ok tt ->
   access_lck (snd (l_coap_pdu_send_reqh ud args)) = true) /\
  (fst (l_coap_pdu_send_reqh ud args) <> Ok tt ->
   access_lck (snd (l_coap_pdu_send_reqh ud args)) = access_lck ud).
Proof.
  unfold l_coap_pdu_send_reqh.
  destruct (match lua_arg args 1 with
            | Some (LInt n) =>
                (set_pdu_code (ud_pdu ud) (COAP_RESPONSE_CODE (to_int n)), 2%nat)
            | _ => (ud_pdu ud, 1%nat)
            end) as [pdu arg].
  destruct (_set_payload _ args arg) as [pdu' | e |]; cbn;
    repeat split; try reflexivity; try congruence.
Qed.

(** Only [send] touches the access bits, and it only sets the lock. *)
Lemma pdu_call_access (m : pdu_method) (L : lua_State) (ud : ud_coap_pdu_t)
    (args : list lua_value) :
  let '(r, _, ud') := pdu_call m L ud args in
  access_ro ud' = access_ro ud /\
  access_hndlr ud' = access_hndlr ud /\
  (access_lck ud' = true <->
   access_lck ud = true \/ (m = M_send /\ r = Ok (RetVals []))).
Proof.
  destruct m; unfold pdu_call; cbv zeta beta.
  all: try match goal with
           | |- context [l_coap_pdu_send_reqh] => idtac
           | |- context [l_coap_pdu_set_uri_path ?p ?a] =>
               destruct (l_coap_pdu_set_uri_path p a) as [[[] | |] ?]
           | |- context [fmap _ ?r] => destruct r
           | |- context [match ?r with Ok _ => _ | Raise _ => _ | Abort => _ end] =>
               destruct r as [[] | |]
           | |- context [match ?r with Ok _ => _ | Raise _ => _ | Abort => _ end] =>
               destruct r
           | |- context [let '(_, _) := ?r in _] => destruct r as [[] ?]
           | _ => idtac
           end.
  all: try (cbn; repeat split; try tauto; intros [? | [? ?]];
            (assumption || discriminate)).
  - pose proof (send_reqh_lck ud args) as (Hro & Hh & Hok & Hko).
    destruct (l_coap_pdu_send_reqh ud args) as [r ud']. cbn [fst snd] in *.
    split; [exact Hro |]. split; [exact Hh |].
    destruct r as [[] | e |]; cbn.
    + split; [intros _; right; split; reflexivity | intros _; apply Hok; reflexivity].
    + rewrite Hko by discriminate. split; [tauto | intros [? | [_ ?]]; [assumption | discriminate]].
    + rewrite Hko by discriminate. split; [tauto | intros [? | [_ ?]]; [assumption | discriminate]].
Qed.




(** ** Sending over a connection *)



(** ** The response handler *)

(** C8. When the response handler returns, its first value decides
    [handle_ack]: a boolean is taken, nothing or [nil] gives true, anything
    else gives true and a warning; an empty ACK with the id of the received
    message is asked of the engine exactly when [handle_ack] holds and the
    message is confirmable, and is sent whenever the engine has made it.
    Without a handler [handle_ack] is true. *)
Theorem resp_hndlr_auto_ack
    (lua_call : lua_value -> list ud_coap_pdu_t -> result (list lua_value))
    (L : lua_State) (lib_ctx : lib_ctx_t) (session : Z)
    (sent received : coap_pdu_t) (ack_ok : bool) (send_tid : Z) :
  let ack := coap_pdu_init COAP_MESSAGE_ACK 0 (pdu_tid received) in
  let '(r, log) :=
    _coap_resp_hndlr lua_call L lib_ctx session sent received ack_ok send_tid in
  (forall h rets,
     resolve_resp_hndlr L lib_ctx = Some h ->
     lua_call h [mk_ud sent (Some session) 0 true false ACS_RESP_HNDLR;
                 mk_ud received (Some session) 0 true false ACS_RESP_HNDLR]
     = Ok rets ->
     r = Ok tt /\
     (In EvLogWarn log <-> invalid_ret rets = true) /\
     (In (EvPduInit COAP_MESSAGE_ACK 0 (pdu_tid received) ack_ok) log <->
      handle_ack_of rets = true /\ pdu_type received = COAP_MESSAGE_CON) /\
     (In (EvSend ack send_tid) log <->
      handle_ack_of rets = true /\ pdu_type received = COAP_MESSAGE_CON /\
      ack_ok = true)) /\
  (resolve_resp_hndlr L lib_ctx = None ->
   r = Ok tt /\
   (In (EvSend ack send_tid) log <->
    pdu_type received = COAP_MESSAGE_CON /\ ack_ok = true)).
Proof.
  intros ack. unfold _coap_resp_hndlr.
  destruct (resolve_resp_hndlr L lib_ctx) as [h |] eqn:Hres.
  - cbn [mbind result_bind].
    destruct (lua_call h _) as [rets | e |] eqn:Hcall.
    2, 3: cbn; split; [intros ? ? [= <-] ?; congruence | intros ?; discriminate].
    unfold mbind, result_bind. cbv beta iota.
    destruct (hd LNil rets) as [| [] | | | | |] eqn:Hhd;
      destruct (Z.eqb_spec (pdu_type received) COAP_MESSAGE_CON) as [Hcon | Hcon];
      destruct ack_ok; destruct (Z.eqb_spec send_tid COAP_INVALID_TID);
      cbn; fold ack;
      (split; [| intros ?; discriminate]);
      intros h' rets' [= <-] Hc; rewrite Hcall in Hc; injection Hc as <-;
      unfold handle_ack_of, invalid_ret; rewrite Hhd;
      (split; [reflexivity |]);
      cbn [In]; intuition (discriminate || congruence).
  - destruct (Z.eqb_spec (pdu_type received) COAP_MESSAGE_CON) as [Hcon | Hcon];
      destruct ack_ok; destruct (Z.eqb_spec send_tid COAP_INVALID_TID);
      cbn; fold ack;
      (split; [intros ? ? ?; discriminate |]); intros _;
      (split; [reflexivity |]);
      cbn [In]; intuition (discriminate || congruence).
Qed.

Lemma resp_hndlr_auto_ack_witness :
  ~ In (EvSend (coap_pdu_init COAP_MESSAGE_ACK 0 (pdu_tid p0)) 9)
       (snd (_coap_resp_hndlr call_false L_resp ctx0 1 p0 p0 true 9)).
Proof.
  pose proof (resp_hndlr_auto_ack call_false L_resp ctx0 1 p0 p0 true 9) as H.
  cbv zeta in H.
  destruct (_coap_resp_hndlr call_false L_resp ctx0 1 p0 p0 true 9) as [r log].
  destruct (proj1 H (LFunc 1) [LBool false] eq_refl eq_refl) as (_ & _ & _ & Hs).
  intros Hin. apply Hs in Hin. destruct Hin as [Hf _]. discriminate Hf.
Defined.

(** ** Connection settings *)

(** C9, where the code departs from it: a negative count or timeout is
    accepted, since the value is compared after its conversion to
    [unsigned]. *)
Theorem conn_setters_accept_negative :
  l_coap_conn_set_max_retransmit session0 [LInt (-1)]
  = Ok (mk_session 4294967295 2 0) /\
  l_coap_conn_get_max_retransmit (mk_session 4294967295 2 0) = [LInt 4294967295] /\
  l_coap_conn_set_ack_timeout session0 [LInt (-1)]
  = Ok (mk_session 4 35127 295) /\
  l_coap_conn_get_ack_timeout (mk_session 4 35127 295) = [LInt 35127295] /\
  l_coap_conn_set_max_retransmit session0 [LInt 0] = Abort /\
  l_coap_conn_set_ack_timeout session0 [LInt 0] = Abort.
Proof. repeat split; reflexivity. Qed.

(** What holds of the setters: values in the range of [unsigned] are
    stored, and the timeout is read back when its seconds fit 16 bits. *)
Lemma conn_setters_store (s : coap_session_t) (v : Z) :
  0 < v < 2 ^ 32 ->
  (exists s', l_coap_conn_set_max_retransmit s [LInt v] = Ok s' /\
              l_coap_conn_get_max_retransmit s' = [LInt v]) /\
  (v < 65536000 ->
   exists s', l_coap_conn_set_ack_timeout s [LInt v] = Ok s' /\
              l_coap_conn_get_ack_timeout s' = [LInt v]).
Proof.
  intros Hv. split.
  - unfold l_coap_conn_set_max_retransmit. cbn [luaL_checkinteger lua_arg nth_error Nat.sub mbind result_bind].
    rewrite to_uint32_small by lia.
    destruct (Z.ltb_spec 0 v); [| lia]. eexists. split; reflexivity.
  - intros Hs. unfold l_coap_conn_set_ack_timeout.
    cbn [luaL_checkinteger lua_arg nth_error Nat.sub mbind result_bind].
    rewrite to_uint32_small by lia.
    destruct (Z.ltb_spec 0 v); [| lia]. eexists. split; [reflexivity |].
    unfold l_coap_conn_get_ack_timeout. cbn [ack_timeout_integer_part ack_timeout_fractional_part].
    unfold to_uint16.
    rewrite (Z.mod_small (v / 1000)), (Z.mod_small (v mod 1000)).
    + rewrite <- Z.div_mod by lia. reflexivity.
    + pose proof (Z.mod_pos_bound v 1000). lia.
    + split; [apply Z.div_pos; lia | apply Z.div_lt_upper_bound; lia].
Qed.

(** ** Iterators *)

Lemma oi_scan_shorter (filtered : bool) (filter : list Z)
    (rest rest' : list (Z * bytes)) (o : Z * bytes) :
  oi_scan filtered filter rest = Some (o, rest') ->
  (length rest' < length rest)%nat.
Proof.
  revert rest'. induction rest as [| o' rest IH]; intros rest'; cbn [oi_scan].
  - discriminate.
  - destruct (negb filtered || filter_has filter (fst o')).
    + intros [= _ <-]. cbn. lia.
    + intros H. apply IH in H. cbn. lia.
Qed.

Lemma coap_option_next_finished (oi : coap_opt_iterator_t) :
  oi_finished oi -> coap_option_next oi = (None, oi).
Proof.
  intros [H | H]; unfold coap_option_next.
  - rewrite H. reflexivity.
  - rewrite H. destruct (oi_bad oi); reflexivity.
Qed.

Lemma coap_option_next_some (oi oi' : coap_opt_iterator_t) (o : Z * bytes) :
  coap_option_next oi = (Some o, oi') ->
  (length (oi_rest oi') < length (oi_rest oi))%nat.
Proof.
  unfold coap_option_next. destruct (oi_bad oi); [discriminate |].
  destruct (oi_rest oi) as [| o0 rest] eqn:Hrest; [discriminate |].
  destruct (oi_scan _ _ (o0 :: rest)) as [[o1 rest'] |] eqn:Hscan; [| discriminate].
  intros [= _ <-]. cbn [oi_rest]. eapply oi_scan_shorter. exact Hscan.
Qed.

Lemma coap_option_next_none (oi oi' : coap_opt_iterator_t) :
  coap_option_next oi = (None, oi') -> oi_finished oi'.
Proof.
  unfold coap_option_next, oi_finished. destruct (oi_bad oi) eqn:Hbad.
  - intros [= <-]. left. exact Hbad.
  - destruct (oi_rest oi) as [| o0 rest] eqn:Hrest.
    + intros [= <-]. right. exact Hrest.
    + destruct (oi_scan _ _ (o0 :: rest)) as [[o1 rest'] |]; [discriminate |].
      intros [= <-]. left. reflexivity.
Qed.

Lemma unref_log_fold (refs : list Z) :
  forall L, unref_log (fold_left luaL_unref refs L) = unref_log L ++ refs.
Proof.
  induction refs as [| r refs IH]; intros L; cbn [fold_left].
  - rewrite app_nil_r. reflexivity.
  - rewrite IH. cbn [luaL_unref unref_log]. rewrite <- app_assoc. reflexivity.
Qed.

Lemma parse_next_some (oi oi' : coap_opt_iterator_t) (nv : bytes * bytes) :
  _parse_next_coap_qstr_param oi = (Some nv, oi') ->
  (length (oi_rest oi') < length (oi_rest oi))%nat.
Proof.
  unfold _parse_next_coap_qstr_param.
  destruct (coap_option_next oi) as [[o |] oi1] eqn:Hn; [| discriminate].
  intros [= _ <-]. eapply coap_option_next_some. exact Hn.
Qed.

Lemma parse_next_none (oi oi' : coap_opt_iterator_t) :
  _parse_next_coap_qstr_param oi = (None, oi') -> oi_finished oi'.
Proof.
  unfold _parse_next_coap_qstr_param.
  destruct (coap_option_next oi) as [[o |] oi1] eqn:Hn; [discriminate |].
  intros [= <-]. eapply coap_option_next_none. exact Hn.
Qed.

Lemma parse_next_finished (oi : coap_opt_iterator_t) :
  oi_finished oi -> _parse_next_coap_qstr_param oi = (None, oi).
Proof.
  intros H. unfold _parse_next_coap_qstr_param.
  rewrite coap_option_next_finished by exact H. reflexivity.
Qed.

(** The loop returns: it has a round for every option left, and one more. *)
Lemma qstr_param_iter_loop_returns (rounds : nat) :
  forall (L : lua_State) (st : coap_qstr_param_iter_state_t),
    (length (oi_rest (qs_iter st)) < rounds)%nat ->
    is_Some (_coap_qstr_param_iter_loop rounds L st).
Proof.
  induction rounds as [| rounds IH]; intros L st Hlen; [lia |].
  cbn [_coap_qstr_param_iter_loop].
  destruct (oi_bad (qs_iter st)); [eexists; reflexivity |].
  destruct (_parse_next_coap_qstr_param (qs_iter st)) as [[[name val] |] iter'] eqn:Hp;
    [| eexists; reflexivity].
  apply parse_next_some in Hp.
  destruct name as [| c name].
  - apply IH. cbn [qs_iter]. lia.
  - destruct ((n_refs st =? 0)%nat || name_in_filter L st (c :: name));
      [eexists; reflexivity |].
    apply IH. cbn [qs_iter]. lia.
Qed.

(** When the loop ends the iteration it has released the references the
    state held, in order, and left a finished cursor. *)
Lemma qstr_param_iter_loop_nil (rounds : nat) :
  forall (L L' : lua_State) (st st' : coap_qstr_param_iter_state_t),
    _coap_qstr_param_iter_loop rounds L st = Some ([LNil], L', st') ->
    L' = fold_left luaL_unref (take (n_refs st) (qs_refs st)) L /\
    n_refs st' = O /\ qs_refs st' = qs_refs st /\ oi_finished (qs_iter st').
Proof.
  induction rounds as [| rounds IH]; intros L L' st st'; [discriminate |].
  cbn [_coap_qstr_param_iter_loop].
  destruct (oi_bad (qs_iter st)) eqn:Hbad.
  { intros [= <- <-]. repeat split. left. exact Hbad. }
  destruct (_parse_next_coap_qstr_param (qs_iter st)) as [[[name val] |] iter'] eqn:Hp.
  2: { intros [= <- <-]. repeat split. eapply parse_next_none. exact Hp. }
  destruct name as [| c name].
  - intros H. apply IH in H. exact H.
  - destruct ((n_refs st =? 0)%nat || name_in_filter L st (c :: name)).
    + intros [= ]. 
    + intros H. apply IH in H. exact H.
Qed.

(** A call that yields a parameter releases nothing. *)
Lemma qstr_param_iter_loop_found (rounds : nat) :
  forall (L L' : lua_State) (st st' : coap_qstr_param_iter_state_t)
         (vals : list lua_value),
    _coap_qstr_param_iter_loop rounds L st = Some (vals, L', st') ->
    vals <> [LNil] ->
    L' = L /\ n_refs st' = n_refs st /\ qs_refs st' = qs_refs st /\
    exists name val, vals = [LStr name; val] /\ name <> [].
Proof.
  induction rounds as [| rounds IH]; intros L L' st st' vals; [discriminate |].
  cbn [_coap_qstr_param_iter_loop].
  destruct (oi_bad (qs_iter st)).
  { intros [= <- <- <-] H. congruence. }
  destruct (_parse_next_coap_qstr_param (qs_iter st)) as [[[name val] |] iter'].
  2: { intros [= <- <- <-] H. congruence. }
  destruct name as [| c name].
  - intros H Hv. apply IH in H; [exact H | exact Hv].
  - destruct ((n_refs st =? 0)%nat || name_in_filter L st (c :: name)).
    + intros [= <- <- <-] _. repeat split. eexists _, _. split; [reflexivity | discriminate].
    + intros H Hv. apply IH in H; [exact H | exact Hv].
Qed.

Lemma qstr_param_iter_finished (L : lua_State) (st : coap_qstr_param_iter_state_t) :
  n_refs st = O -> oi_finished (qs_iter st) ->
  _coap_qstr_param_iter L (Some st) = Some (Ok [LNil], L, Some st).
Proof.
  intros Hn Hfin. unfold _coap_qstr_param_iter. cbn [_coap_qstr_param_iter_loop].
  destruct st as [n refs iter]. cbn [n_refs qs_refs qs_iter] in *. subst n.
  destruct (oi_bad iter) eqn:Hbad; [reflexivity |].
  rewrite parse_next_finished by exact Hfin. reflexivity.
Qed.

(** The references [l_coap_pdu_qstr_params] takes are new, one per name,
    and stand for the names. *)
Lemma ref_args_refs (names : list lua_value) :
  forall (i : nat) (L : lua_State) (st : coap_qstr_param_iter_state_t),
    n_refs st = i ->
    (i + length names <= length (qs_refs st))%nat ->
    let '(L', st') := ref_args i names L st in
    n_refs st' = (i + length names)%nat /\
    take (n_refs st') (qs_refs st')
    = take i (qs_refs st)
      ++ map (fun k => next_ref L + Z.of_nat k) (seq 0 (length names)) /\
    unref_log L' = unref_log L.
Proof.
  induction names as [| v names IH]; intros i L st Hn Hlen; cbn [ref_args].
  - cbn [length seq map]. rewrite Nat.add_0_r, app_nil_r, Hn. repeat split.
  - cbn [luaL_ref length] in *.
    specialize (IH (S i)
                  (mk_L (globals L) (<[next_ref L:=v]> (registry L)) (next_ref L + 1)
                        (unref_log L))
                  (mk_qs (S (n_refs st)) (<[i:=next_ref L]> (qs_refs st)) (qs_iter st))).
    cbn [n_refs qs_refs next_ref unref_log] in IH.
    rewrite length_insert in IH.
    destruct (ref_args (S i) names _ _) as [L' st'].
    destruct IH as (Hn' & Htake & Hlog); [lia | lia |].
    split; [lia |]. split; [| exact Hlog].
    rewrite Htake. rewrite (take_S_r _ i (next_ref L)).
    2: { apply list_lookup_insert_eq. lia. }
    rewrite take_insert_ge by lia. rewrite <- app_assoc. f_equal.
    cbn [seq map app]. rewrite Z.add_0_r. f_equal.
    rewrite <- seq_shift, map_map. apply map_ext. intros k. lia.
Qed.

Lemma check_strings_ok (names : list bytes) (pre : list lua_value) :
  check_strings (S (length pre)) (pre ++ map LStr names) (length names)
  = Ok (map LStr names).
Proof.
  revert pre. induction names as [| s names IH]; intros pre; cbn [check_strings length map].
  - reflexivity.
  - unfold luaL_checkstring, lua_arg. cbn [Nat.sub]. rewrite Nat.sub_0_r.
    rewrite nth_error_app2, Nat.sub_diag by lia. cbn [nth_error mbind result_bind].
    specialize (IH (pre ++ [LStr s])). rewrite length_app, <- app_assoc in IH.
    cbn [length app] in IH. rewrite Nat.add_1_r in IH. rewrite IH. reflexivity.
Qed.

Lemma option_iter_finished (oi : coap_opt_iterator_t) :
  oi_finished oi -> _coap_option_iter (Some oi) = (Ok [LNil], Some oi).
Proof.
  intros H. unfold _coap_option_iter.
  destruct (oi_bad oi); [reflexivity |].
  rewrite coap_option_next_finished by exact H. reflexivity.
Qed.

Lemma option_iter_nil (oi oi' : coap_opt_iterator_t) :
  _coap_option_iter (Some oi) = (Ok [LNil], Some oi') -> oi_finished oi'.
Proof.
  unfold _coap_option_iter. destruct (oi_bad oi) eqn:Hbad.
  - intros [= <-]. left. exact Hbad.
  - destruct (coap_option_next oi) as [[o |] oi1] eqn:Hn; [discriminate |].
    intros [= <-]. eapply coap_option_next_none. exact Hn.
Qed.

(** C7. Once the option iterator or the query parameter iterator has
    returned [nil], it returns [nil] at every later call; the query
    parameter iterator always returns; when it ends, the references it
    held are released, each once and in order, and a later call releases
    nothing, as does a call that yields a parameter; more than 10 filter names are refused with
    [TooManyFilterArgs], and up to 10 names get one new reference each. *)
Theorem iterators_exhaust (L : lua_State) (st : coap_qstr_param_iter_state_t)
    (oi : coap_opt_iterator_t) (p : coap_pdu_t) :
  (forall oi',
     _coap_option_iter (Some oi) = (Ok [LNil], Some oi') ->
     _coap_option_iter (Some oi') = (Ok [LNil], Some oi')) /\
  is_Some (_coap_qstr_param_iter L (Some st)) /\
  (forall L' st',
     _coap_qstr_param_iter L (Some st) = Some (Ok [LNil], L', Some st') ->
     unref_log L' = unref_log L ++ take (n_refs st) (qs_refs st) /\
     n_refs st' = O /\
     _coap_qstr_param_iter L' (Some st') = Some (Ok [LNil], L', Some st')) /\
  (forall vals L' st',
     _coap_qstr_param_iter L (Some st) = Some (Ok vals, L', Some st') ->
     vals <> [LNil] ->
     unref_log L' = unref_log L /\ n_refs st' = n_refs st /\
     qs_refs st' = qs_refs st) /\
  (forall args : list lua_value,
     (MAX_QSTR_PARAMS_ARGS < length args)%nat ->
     l_coap_pdu_qstr_params L p args = Raise TooManyFilterArgs) /\
  (forall names : list bytes,
     (length names <= MAX_QSTR_PARAMS_ARGS)%nat ->
     exists L1 st1,
       l_coap_pdu_qstr_params L p (map LStr names) = Ok (L1, st1) /\
       n_refs st1 = length names /\
       take (n_refs st1) (qs_refs st1)
       = map (fun k => next_ref L + Z.of_nat k) (seq 0 (length names)) /\
       NoDup (take (n_refs st1) (qs_refs st1)) /\
       unref_log L1 = unref_log L).
Proof.
  split; [| split; [| split; [| split; [| split]]]].
  - intros oi' H. apply option_iter_finished. eapply option_iter_nil. exact H.
  - unfold _coap_qstr_param_iter.
    destruct (qstr_param_iter_loop_returns
                (S (length (oi_rest (qs_iter st)))) L st) as [[[vals L'] st'] ->]; [lia |].
    eexists. reflexivity.
  - intros L' st' H. unfold _coap_qstr_param_iter in H.
    destruct (_coap_qstr_param_iter_loop _ L st) as [[[vals L1] st1] |] eqn:Hloop;
      [| discriminate].
    injection H as -> -> ->.
    apply qstr_param_iter_loop_nil in Hloop. destruct Hloop as (-> & Hn & _ & Hfin).
    split; [apply unref_log_fold |]. split; [exact Hn |].
    apply qstr_param_iter_finished; assumption.
  - intros vals L' st' H Hv. unfold _coap_qstr_param_iter in H.
    destruct (_coap_qstr_param_iter_loop _ L st) as [[[vals1 L1] st1] |] eqn:Hloop;
      [| discriminate].
    injection H as -> -> ->.
    apply qstr_param_iter_loop_found in Hloop; [| exact Hv].
    destruct Hloop as (-> & Hn & Hrefs & _). repeat split; assumption.
  - intros args Hlen. unfold l_coap_pdu_qstr_params.
    destruct (Nat.ltb_spec MAX_QSTR_PARAMS_ARGS (length args)); [reflexivity | lia].
  - intros names Hlen. unfold l_coap_pdu_qstr_params. rewrite length_map.
    destruct (Nat.ltb_spec MAX_QSTR_PARAMS_ARGS (length names)); [lia |].
    pose proof (check_strings_ok names []) as Hchk. cbn [length app] in Hchk.
    rewrite Hchk. cbn [mbind result_bind].
    pose proof (ref_args_refs (map LStr names) O L
                  (mk_qs O (replicate MAX_QSTR_PARAMS_ARGS 0) (mk_oi [] false false [] 0))
                  eq_refl) as Href.
    cbn [qs_refs] in Href. rewrite length_replicate, length_map in Href.
    specialize (Href ltac:(lia)).
    destruct (ref_args O (map LStr names) L _) as [L1 st1].
    destruct Href as (Hn & Htake & Hlog). rewrite take_0 in Htake.
    cbn [app Nat.add] in Htake, Hn.
    destruct (coap_option_iterator_init p _) as [ok iter].
    eexists _, _. split; [reflexivity |]. cbn [n_refs qs_refs].
    split; [exact Hn |]. split; [exact Htake |]. split; [| exact Hlog].
    rewrite Htake.
    change (NoDup ((fun k => next_ref L + Z.of_nat k) <$> seq 0 (length names))).
    apply NoDup_fmap_2; [| apply NoDup_seq].
    intros a b Hab. lia.
Qed.

Lemma iterators_exhaust_witness :
  l_coap_pdu_qstr_params L0 p0 (replicate 11 (LStr [])) = Raise TooManyFilterArgs.
Proof.
  refine (proj1 (proj2 (proj2 (proj2 (proj2
            (iterators_exhaust L0 (mk_qs O [] (mk_oi [] false false [] 0))
               (mk_oi [] false false [] 0) p0))))) (replicate 11 (LStr [])) _).
  unfold MAX_QSTR_PARAMS_ARGS. cbn. lia.
Defined.

(** * More properties *)

(** ** Trimming *)

Lemma drop_ws_split (s : bytes) :
  exists ws, s = ws ++ drop_ws s /\ Forall (fun c => isspace c = true) ws.
Proof.
  induction s as [| c s (ws & Hs & Hws)]; cbn [drop_ws].
  - exists []. split; [reflexivity | constructor].
  - destruct (isspace c) eqn:Hc.
    + exists (c :: ws). split; [cbn; f_equal; exact Hs | constructor; assumption].
    + exists []. split; [reflexivity | constructor].
Qed.

Lemma drop_ws_head (s : bytes) :
  drop_ws s <> [] -> isspace (byte_at (drop_ws s) 0) = false.
Proof.
  induction s as [| c s IH]; cbn [drop_ws]; [congruence |].
  destruct (isspace c) eqn:Hc; [exact IH | intros _; exact Hc].
Qed.

Lemma drop_ws_nil (s : bytes) :
  drop_ws s = [] <-> Forall (fun c => isspace c = true) s.
Proof.
  induction s as [| c s IH]; cbn [drop_ws].
  - split; [constructor | reflexivity].
  - destruct (isspace c) eqn:Hc.
    + rewrite IH. split; [constructor; assumption | intros H; inversion H; assumption].
    + split; [discriminate | intros H; inversion H; congruence].
Qed.

Lemma byte_at_last (s : bytes) (c : Z) :
  byte_at (s ++ [c]) (Z.of_nat (length (s ++ [c])) - 1) = c.
Proof.
  rewrite length_app. cbn [length].
  replace (Z.of_nat (length s + 1) - 1) with (Z.of_nat (length s)) by lia.
  apply byte_at_middle.
Qed.

(** A string with a byte that is no white space is white space, then a
    core that begins and ends with other bytes, then white space; the core
    is what [trim_ref] keeps. *)
Lemma trim_ref_split (s : bytes) :
  ~ Forall (fun c => isspace c = true) s ->
  exists ws1 ws2,
    s = ws1 ++ trim_ref s ++ ws2 /\
    Forall (fun c => isspace c = true) ws1 /\
    Forall (fun c => isspace c = true) ws2 /\
    trim_ref s <> [] /\
    isspace (byte_at (trim_ref s) 0) = false /\
    isspace (byte_at (trim_ref s) (Z.of_nat (length (trim_ref s)) - 1)) = false.
Proof.
  intros Hns. unfold trim_ref.
  destruct (drop_ws_split s) as (ws1 & Hs & Hws1).
  assert (Ht : drop_ws s <> []) by (rewrite drop_ws_nil; exact Hns).
  pose proof (drop_ws_head s Ht) as Hth.
  remember (drop_ws s) as t eqn:Et. clear Et.
  destruct (drop_ws_split (rev t)) as (ws2 & Hr & Hws2).
  assert (Hrne : drop_ws (rev t) <> []).
  { intros Hr0. apply drop_ws_nil, Forall_rev in Hr0. rewrite rev_involutive in Hr0.
    destruct t as [| c t']; [congruence |].
    inversion Hr0 as [| ? ? Hc _]. unfold byte_at in Hth.
    change (Z.to_nat 0) with O in Hth. cbn in Hth, Hc. congruence. }
  pose proof (drop_ws_head (rev t) Hrne) as Hrh.
  remember (drop_ws (rev t)) as r eqn:Er. clear Er.
  assert (Hrt : t = rev r ++ rev ws2).
  { rewrite <- rev_app_distr, <- Hr, rev_involutive. reflexivity. }
  exists ws1, (rev ws2). split; [| split; [| split; [| split; [| split]]]].
  - rewrite <- Hrt. exact Hs.
  - exact Hws1.
  - apply Forall_rev. exact Hws2.
  - intros H0. apply Hrne. rewrite <- (rev_involutive r), H0. reflexivity.
  - rewrite Hrt in Hth. rewrite byte_at_app_l in Hth; [exact Hth |].
    rewrite length_rev. destruct r; [congruence | cbn; lia].
  - destruct r as [| c r']; [congruence |]. cbn [rev].
    rewrite byte_at_last. exact Hrh.
Qed.

Lemma strtrim_all_space (s : bytes) (c : Z) :
  Forall (fun c => isspace c = true) (s ++ [c]) -> strtrim (s ++ [c]) = [c].
Proof.
  intros Hsp. unfold strtrim.
  rewrite (strtrim_loop_spaces _ _ 0 (Z.of_nat (length (s ++ [c])) - 1)).
  - rewrite Z.leb_refl. rewrite length_app. cbn [length].
    replace (Z.of_nat (length s + 1) - 1) with (Z.of_nat (length s)) by lia.
    replace (Z.of_nat (length s) - Z.of_nat (length s) + 1) with (Z.of_nat (length [c]))
      by (cbn; lia).
    rewrite <- (app_nil_r (s ++ [c])), <- app_assoc. apply sub_middle.
  - intros i Hi. apply byte_at_spaces; [exact Hsp | lia].
  - rewrite length_app. cbn. lia.
  - lia.
Qed.

Lemma strtrim_trim_ref (s : bytes) :
  ~ Forall (fun c => isspace c = true) s -> strtrim s = trim_ref s.
Proof.
  intros Hns. destruct (trim_ref_split s Hns) as (ws1 & ws2 & Hs & H1 & H2 & Hne & Hf & Hl).
  rewrite Hs at 1. apply strtrim_core; assumption.
Qed.

(** X1. [strtrim] takes the white space off both ends of every string that
    has another byte in it, as its header says; of a string of white space
    only it keeps the last byte; the empty string stays empty. *)
Theorem strtrim_characterised (s : bytes) :
  (~ Forall (fun c => isspace c = true) s -> strtrim s = trim_ref s) /\
  (forall c, Forall (fun c => isspace c = true) (s ++ [c]) ->
             strtrim (s ++ [c]) = [c] /\ trim_ref (s ++ [c]) = []) /\
  strtrim [] = [].
Proof.
  split; [| split; [| reflexivity]].
  - apply strtrim_trim_ref.
  - intros c Hsp. split; [apply strtrim_all_space; exact Hsp |].
    unfold trim_ref. apply drop_ws_nil in Hsp. rewrite Hsp. reflexivity.
Qed.

Lemma strtrim_characterised_witness :
  strtrim (bytes_of_string "  a b  ") = trim_ref (bytes_of_string "  a b  ").
Proof.
  apply (proj1 (strtrim_characterised (bytes_of_string "  a b  "))).
  intros H. inversion H as [| ? ? _ Ha]. inversion Ha as [| ? ? _ Hb].
  inversion Hb as [| ? ? Hc _]. discriminate Hc.
Defined.

Lemma strtrim_trimmed (s : bytes) : trimmed s -> strtrim s = s.
Proof.
  intros [-> | [Hf Hl]]; [reflexivity |].
  destruct s as [| c s]; [reflexivity |].
  pose proof (strtrim_core [] (c :: s) []) as H. cbn [app] in H.
  rewrite app_nil_r in H. apply H; [constructor | constructor | discriminate | assumption ..].
Qed.

(** X2. Trimming twice is trimming once, and the result is never longer
    than the string. *)
Theorem strtrim_idempotent (s : bytes) :
  strtrim (strtrim s) = strtrim s /\ (length (strtrim s) <= length s)%nat.
Proof.
  destruct (decide (Forall (fun c => isspace c = true) s)) as [Hsp | Hns].
  - destruct s as [| c s] using rev_ind; [split; reflexivity |].
    rewrite strtrim_all_space by exact Hsp. split; [reflexivity |].
    rewrite length_app. cbn. lia.
  - destruct (trim_ref_split s Hns) as (ws1 & ws2 & Hs & H1 & H2 & Hne & Hf & Hl).
    rewrite (strtrim_trim_ref s Hns). split.
    + apply strtrim_trimmed. right. split; assumption.
    + rewrite Hs at 2. rewrite !length_app. lia.
Qed.

(** ** Parsing query parameters *)

Lemma find_eq_app (name val : bytes) :
  Forall (fun c => c <> 61) name -> find_eq (name ++ 61 :: val) = length name.
Proof.
  induction 1 as [| c name Hc _ IH]; cbn [app find_eq length].
  - reflexivity.
  - destruct (Z.eqb_spec c 61); [contradiction | rewrite IH; reflexivity].
Qed.

Lemma find_eq_none (name : bytes) :
  Forall (fun c => c <> 61) name -> find_eq name = length name.
Proof.
  induction 1 as [| c name Hc _ IH]; cbn [find_eq length]; [reflexivity |].
  destruct (Z.eqb_spec c 61); [contradiction | rewrite IH; reflexivity].
Qed.

Lemma strtrim_or_nil (s : bytes) :
  trimmed s -> match s with [] => s | _ => strtrim s end = s.
Proof. intros H. destruct s; [reflexivity | apply strtrim_trimmed; exact H]. Qed.

Lemma drop_past_middle (name val : bytes) (c : Z) :
  drop (S (length name)) (name ++ c :: val) = val.
Proof. induction name as [| a name IH]; [reflexivity | exact IH]. Qed.

Lemma parse_qstr_pair (name val : bytes) :
  Forall (fun c => c <> 61) name -> trimmed name -> trimmed val ->
  parse_qstr (name ++ 61 :: val) = (name, val).
Proof.
  intros Hne Hn Hv. unfold parse_qstr. rewrite find_eq_app by exact Hne.
  rewrite take_app_length, drop_past_middle.
  rewrite !strtrim_or_nil by assumption. reflexivity.
Qed.

Lemma parse_qstr_flag_only (name : bytes) :
  Forall (fun c => c <> 61) name -> trimmed name -> parse_qstr name = (name, []).
Proof.
  intros Hne Hn. unfold parse_qstr. rewrite find_eq_none by exact Hne.
  rewrite firstn_all, drop_ge by lia. rewrite strtrim_or_nil by exact Hn. reflexivity.
Qed.

(** ** Looking options and parameters up *)

Lemma coap_options_of_type (p : coap_pdu_t) (t : Z) :
  coap_options_of (snd (coap_option_iterator_init p (Some [t])))
  = List.filter (fun o => fst o =? t) (pdu_options p).
Proof.
  unfold coap_option_iterator_init, coap_options_of. cbn [snd oi_bad oi_rest oi_filtered oi_filter].
  destruct (pdu_options p) as [| o opts]; [destruct (pdu_data p); reflexivity |].
  apply oi_drain_filter.
Qed.

Lemma init_not_ok (p : coap_pdu_t) (f : option (list Z)) :
  fst (coap_option_iterator_init p f) = false -> pdu_options p = [].
Proof.
  unfold coap_option_iterator_init. cbn [fst].
  destruct (pdu_options p); [reflexivity | discriminate].
Qed.

Lemma get_qstr_param_loop_find (n : bytes) (opts : list (Z * bytes)) :
  get_qstr_param_loop n opts
  = match List.find (fun nv => bool_decide (fst nv = n))
            (List.filter (fun nv => non_empty (fst nv)) (map parse_qstr (map snd opts))) with
    | Some nv => [qstr_val (snd nv); LBool true]
    | None => [LNil; LBool false]
    end.
Proof.
  induction opts as [| o opts IH]; cbn [get_qstr_param_loop map List.filter List.find];
    [reflexivity |].
  destruct (parse_qstr (snd o)) as [name val]. cbn [fst].
  destruct name as [| c name]; cbn [non_empty]; [exact IH |].
  cbn [List.find fst snd].
  destruct (decide (n = c :: name)) as [-> | Hne].
  - rewrite !bool_decide_eq_true_2 by reflexivity. reflexivity.
  - rewrite !bool_decide_eq_false_2 by congruence. exact IH.
Qed.

(** X3. [get_qstr_param(n)] gives the value of the first Uri-Query
    parameter whose trimmed name is [n], with [true], and [nil] for a
    parameter without value; it gives [nil, false] when no parameter has
    that name, and always for the empty name. *)
Theorem get_qstr_param_first_match (p : coap_pdu_t) (n : bytes) :
  l_coap_pdu_get_qstr_param p [LStr n]
  = Ok match List.find (fun nv => bool_decide (fst nv = n)) (qstr_params_of p) with
       | Some nv => [qstr_val (snd nv); LBool true]
       | None => [LNil; LBool false]
       end /\
  l_coap_pdu_get_qstr_param p [LStr []] = Ok [LNil; LBool false].
Proof.
  assert (H : forall n, l_coap_pdu_get_qstr_param p [LStr n]
    = Ok match List.find (fun nv => bool_decide (fst nv = n)) (qstr_params_of p) with
         | Some nv => [qstr_val (snd nv); LBool true]
         | None => [LNil; LBool false]
         end).
  { clear n. intros n. unfold l_coap_pdu_get_qstr_param.
    cbn [luaL_checkstring lua_arg Nat.sub nth_error]. unfold mbind, result_bind.
    pose proof (coap_options_of_type p COAP_OPTION_URI_QUERY) as Hof.
    pose proof (init_not_ok p (Some [COAP_OPTION_URI_QUERY])) as Hno.
    destruct (coap_option_iterator_init p (Some [COAP_OPTION_URI_QUERY])) as [ok oi].
    cbn [fst snd] in *. unfold qstr_params_of, option_values.
    destruct ok.
    - rewrite get_qstr_param_loop_find, Hof. reflexivity.
    - rewrite Hno by reflexivity. reflexivity. }
  split; [apply H |]. rewrite H.
  assert (Hnone : forall (m : bytes) l, m = [] ->
            List.find (fun nv : bytes * bytes => bool_decide (fst nv = m))
              (List.filter (fun nv => non_empty (fst nv)) l) = None).
  { intros m l ->. induction l as [| [[| c nm] v] l IH]; cbn; [reflexivity | exact IH | exact IH]. }
  unfold qstr_params_of. rewrite (Hnone [] _ eq_refl). reflexivity.
Qed.

Lemma qstr_params_of_added (p : coap_pdu_t) (q : bytes) :
  qstr_params_of (set_pdu_options p (pdu_options p ++ [(COAP_OPTION_URI_QUERY, q)]))
  = qstr_params_of p
    ++ (if non_empty (fst (parse_qstr q)) then [parse_qstr q] else []).
Proof.
  unfold qstr_params_of, option_values. cbn [pdu_options set_pdu_options].
  rewrite List.filter_app, !map_app, List.filter_app. f_equal.
Qed.

Lemma find_app_none {A} (f : A -> bool) (l1 l2 : list A) :
  List.find f l1 = None -> List.find f (l1 ++ l2) = List.find f l2.
Proof.
  induction l1 as [| a l1 IH]; cbn [app List.find]; [reflexivity |].
  destruct (f a); [discriminate | exact IH].
Qed.

(** X4. A parameter set as the Uri-Query option [name=value] is found by
    [get_qstr_param(name)] with that value, when no earlier parameter has
    the name: the name is not empty and has no ['='], and neither name nor
    value has white space at its ends. *)
Theorem qstr_param_set_lookup (p : coap_pdu_t) (name val : bytes) :
  name <> [] -> Forall (fun c => c <> 61) name -> trimmed name -> trimmed val ->
  pdu_max_delta p <= COAP_OPTION_URI_QUERY ->
  List.find (fun nv => bool_decide (fst nv = name)) (qstr_params_of p) = None ->
  exists p',
    l_coap_pdu_set_option p [LInt COAP_OPTION_URI_QUERY; LStr (name ++ 61 :: val)]
    = Ok p' /\
    l_coap_pdu_get_qstr_param p' [LStr name] = Ok [qstr_val val; LBool true].
Proof.
  intros Hne H61 Hn Hv Hmax Hnew.
  eexists. split.
  - rewrite set_option_known by (cbn; congruence).
    change (_get_coap_optval_type COAP_OPTION_URI_QUERY) with OPTVAL_STRING.
    cbn [luaL_checkstring lua_arg Nat.sub nth_error]. unfold mbind, result_bind.
    rewrite coap_add_option_ok by exact Hmax. reflexivity.
  - unfold l_coap_pdu_get_qstr_param.
    cbn [luaL_checkstring lua_arg Nat.sub nth_error]. unfold mbind, result_bind.
    set (p' := set_pdu_options p _).
    pose proof (coap_options_of_type p' COAP_OPTION_URI_QUERY) as Hof.
    assert (Hok : fst (coap_option_iterator_init p' (Some [COAP_OPTION_URI_QUERY])) = true).
    { unfold coap_option_iterator_init, p'. cbn [fst pdu_options set_pdu_options].
      destruct (pdu_options p); reflexivity. }
    destruct (coap_option_iterator_init p' (Some [COAP_OPTION_URI_QUERY])) as [ok oi].
    cbn [fst snd] in *. subst ok.
    rewrite get_qstr_param_loop_find, Hof. fold (option_values COAP_OPTION_URI_QUERY p').
    fold (qstr_params_of p'). unfold p'. rewrite qstr_params_of_added.
    rewrite parse_qstr_pair by assumption. cbn [fst].
    destruct name as [| c name]; [congruence |]. cbn [non_empty].
    rewrite find_app_none by exact Hnew. cbn [List.find fst snd].
    rewrite bool_decide_eq_true_2 by reflexivity. reflexivity.
Qed.

Lemma qstr_param_set_lookup_witness :
  exists p',
    l_coap_pdu_set_option p0 [LInt COAP_OPTION_URI_QUERY; LStr (bytes_of_string "x=1")]
    = Ok p' /\
    l_coap_pdu_get_qstr_param p' [LStr (bytes_of_string "x")]
    = Ok [LStr (bytes_of_string "1"); LBool true].
Proof.
  apply (qstr_param_set_lookup p0 (bytes_of_string "x") (bytes_of_string "1")).
  - discriminate.
  - repeat constructor; discriminate.
  - right. split; reflexivity.
  - right. split; reflexivity.
  - cbn. unfold COAP_OPTION_URI_QUERY. lia.
  - reflexivity.
Defined.

(** ** Option values *)

Lemma oi_scan_find (t : Z) (opts : list (Z * bytes)) :
  fst <$> oi_scan true [t] opts = List.find (fun o => fst o =? t) opts.
Proof.
  induction opts as [| o opts IH]; cbn [oi_scan List.find negb orb]; [reflexivity |].
  rewrite filter_has_single. destruct (fst o =? t); [reflexivity | exact IH].
Qed.

(** X5. [get_option(t)] looks for the option type the engine is given,
    which is [t] narrowed to 16 bits ([t] itself for [0 <= t < 2^16]): it
    gives the value of the first option of that type, decoded by the class
    of [t] as the script gave it, and [true]; it gives [nil, false] exactly
    when the message has no option of that type; an option without value
    is [nil, true]. *)
Theorem get_option_first (p : coap_pdu_t) (t : Z) :
  l_coap_pdu_get_option p [LInt t]
  = Ok match List.find (fun o => fst o =? to_uint16 (to_int t)) (pdu_options p) with
       | Some o => [_push_coap_opt_val (snd o) (to_int t); LBool true]
       | None => [LNil; LBool false]
       end /\
  (l_coap_pdu_get_option p [LInt t] = Ok [LNil; LBool false] <->
   Forall (fun o => fst o <> to_uint16 (to_int t)) (pdu_options p)) /\
  (0 <= t < 2 ^ 16 -> to_uint16 (to_int t) = t /\ to_int t = t).
Proof.
  set (n := to_uint16 (to_int t)).
  assert (H : l_coap_pdu_get_option p [LInt t]
    = Ok match List.find (fun o => fst o =? n) (pdu_options p) with
         | Some o => [_push_coap_opt_val (snd o) (to_int t); LBool true]
         | None => [LNil; LBool false]
         end).
  { unfold l_coap_pdu_get_option.
    cbn [luaL_checkinteger lua_arg Nat.sub nth_error]. unfold mbind, result_bind.
    fold n.
    unfold coap_option_iterator_init, coap_option_next.
    cbn [oi_bad oi_rest oi_filtered oi_filter fst snd negb].
    destruct (pdu_options p) as [| o opts] eqn:E.
    - destruct (pdu_data p); reflexivity.
    - cbn [negb]. cbv iota.
      pose proof (oi_scan_find n (o :: opts)) as Hs.
      destruct (oi_scan true [n] (o :: opts)) as [[o' rest] |];
        cbn [fmap option_fmap option_map fst] in Hs; rewrite <- Hs; reflexivity. }
  split; [exact H |]. split.
  - rewrite H. split.
    + intros Hr. apply Forall_forall. intros o Ho Heq.
      destruct (List.find (fun o => fst o =? n) (pdu_options p)) eqn:Hf; [discriminate |].
      apply list_elem_of_In in Ho.
      apply (List.find_none _ _ Hf) in Ho. cbn in Ho. lia.
    + intros Hall.
      destruct (List.find (fun o => fst o =? n) (pdu_options p)) as [o |] eqn:Hf;
        [| reflexivity].
      apply List.find_some in Hf. destruct Hf as [Hin Heq].
      rewrite Forall_forall in Hall. apply list_elem_of_In in Hin.
      apply Hall in Hin. apply Z.eqb_eq in Heq. contradiction.
  - intros Ht. subst n. rewrite (to_int_small t) by lia.
    split; [apply to_uint16_small; exact Ht | reflexivity].
Qed.

Lemma get_option_first_witness :
  l_coap_pdu_get_option (mk_pdu 0 1 7 [] [(COAP_OPTION_MAXAGE, [5])] []) [LInt 65550]
  = Ok [LTable [LInt 5]; LBool true] /\
  l_coap_pdu_get_option (mk_pdu 0 1 7 [] [(COAP_OPTION_MAXAGE, [5])] [])
    [LInt COAP_OPTION_MAXAGE]
  = Ok [LInt 5; LBool true].
Proof.
  split.
  - exact (proj1 (get_option_first
                    (mk_pdu 0 1 7 [] [(COAP_OPTION_MAXAGE, [5])] []) 65550)).
  - exact (proj1 (get_option_first
                    (mk_pdu 0 1 7 [] [(COAP_OPTION_MAXAGE, [5])] []) COAP_OPTION_MAXAGE)).
Defined.

(** The accumulation keeps the low 32 bits of the number the bytes stand
    for. *)
Lemma decode_uint_step (v b : Z) :
  0 <= b < 256 ->
  Z.lor (to_uint32 (Z.shiftl v 8)) b = (v * 256 + b) mod 2 ^ 32 /\
  0 <= Z.lor (to_uint32 (Z.shiftl v 8)) b < 2 ^ 32.
Proof.
  intros Hb. unfold to_uint32. rewrite Z.shiftl_mul_pow2 by lia.
  change (2 ^ 8) with 256.
  assert (Hm : (v * 256) mod 2 ^ 32 = 256 * (v mod 2 ^ 24)).
  { change (2 ^ 32) with (256 * 2 ^ 24). rewrite (Z.mul_comm v 256).
    rewrite Z.mul_mod_distr_l by lia. reflexivity. }
  pose proof (Z.mod_pos_bound v (2 ^ 24) ltac:(lia)) as Hv.
  assert (Hlor : Z.lor ((v * 256) mod 2 ^ 32) b = (v * 256) mod 2 ^ 32 + b).
  { rewrite Hm. replace (256 * (v mod 2 ^ 24)) with ((v mod 2 ^ 24) * 256) by ring.
    pose proof (lor_shiftl_byte (v mod 2 ^ 24) b Hv Hb) as H.
    rewrite Z.shiftl_mul_pow2 in H by lia. change (2 ^ 8) with 256 in H.
    unfold to_uint32 in H. rewrite (Z.mod_small (v mod 2 ^ 24 * 256)) in H by lia.
    exact H. }
  rewrite Hlor. split.
  - rewrite (Zplus_mod (v * 256) b), (Z.mod_small b (2 ^ 32)) by lia.
    rewrite (Z.mod_small ((v * 256) mod 2 ^ 32 + b)); [reflexivity | rewrite Hm; lia].
  - rewrite Hm. lia.
Qed.

Lemma decode_uint_fold (bs : bytes) :
  Forall is_byte bs ->
  forall a a', a = a' mod 2 ^ 32 ->
    fold_left (fun v b => Z.lor (to_uint32 (Z.shiftl v 8)) b) bs a
    = fold_left (fun v b => v * 256 + b) bs a' mod 2 ^ 32.
Proof.
  induction 1 as [| b bs Hb _ IH]; intros a a' Ha; cbn [fold_left].
  - exact Ha.
  - apply IH. destruct (decode_uint_step a b Hb) as [-> _]. subst a.
    rewrite Zplus_mod, Zmult_mod, Z.mod_mod by lia.
    rewrite <- Zmult_mod, <- Zplus_mod. reflexivity.
Qed.

(** X6. An unsigned-integer option is decoded to the low 32 bits of the
    big-endian number its bytes stand for, however many bytes it has. *)
Theorem decode_uint_low_32_bits (t : Z) (bs : bytes) :
  _get_coap_optval_type t = OPTVAL_UINT ->
  Forall is_byte bs -> bs <> [] ->
  _push_coap_opt_val bs t = LInt (be_value bs mod 2 ^ 32).
Proof.
  intros Ht Hbs Hne. unfold _push_coap_opt_val. rewrite Ht.
  destruct bs as [| b bs]; [congruence |]. f_equal.
  unfold decode_uint, be_value.
  apply decode_uint_fold; [exact Hbs | reflexivity].
Qed.

Lemma decode_uint_low_32_bits_witness :
  _push_coap_opt_val [1; 0; 0; 0; 5] COAP_OPTION_MAXAGE = LInt 5.
Proof.
  refine (decode_uint_low_32_bits COAP_OPTION_MAXAGE [1; 0; 0; 0; 5] _ _ _).
  - reflexivity.
  - repeat constructor; unfold is_byte; lia.
  - discriminate.
Defined.

Lemma encode_uint_wraps (v : Z) : encode_uint v = encode_uint (v mod 2 ^ 32).
Proof.
  unfold encode_uint, to_uint32. rewrite Z.mod_mod by lia. reflexivity.
Qed.

(** X7. Any integer can be set as the value of a UInt-classified option;
    what is read back is the integer modulo 2^32, so a negative number
    comes back as a large positive one. *)
Theorem uint_option_wraps (p : coap_pdu_t) (t v : Z) :
  _get_coap_optval_type t = OPTVAL_UINT ->
  pdu_max_delta p <= t ->
  Forall (fun o => fst o <> t) (pdu_options p) ->
  exists p',
    l_coap_pdu_set_option p [LInt t; LInt v] = Ok p' /\
    l_coap_pdu_get_option p' [LInt t] = Ok [LInt (v mod 2 ^ 32); LBool true].
Proof.
  intros Ht Hmax Hno.
  assert (Hr : 1 <= t <= 258) by (apply optval_type_known_range; congruence).
  assert (Hv : 0 <= v mod 2 ^ 32 < 2 ^ 32) by (apply Z.mod_pos_bound; lia).
  eexists. split.
  - rewrite set_option_known, Ht by congruence.
    cbn [luaL_checkinteger lua_arg Nat.sub nth_error]. unfold mbind, result_bind.
    rewrite coap_add_option_ok by exact Hmax. reflexivity.
  - rewrite get_option_added by (try assumption; lia). f_equal. f_equal.
    unfold _push_coap_opt_val. rewrite Ht.
    rewrite encode_uint_wraps, decode_encode_uint by exact Hv.
    destruct (encode_uint_cases (v mod 2 ^ 32) Hv) as [[_ ->] | [[_ ->] | [[_ ->] | [_ ->]]]];
      reflexivity.
Qed.

Lemma uint_option_wraps_witness :
  exists p',
    l_coap_pdu_set_option p0 [LInt COAP_OPTION_MAXAGE; LInt (-1)] = Ok p' /\
    l_coap_pdu_get_option p' [LInt COAP_OPTION_MAXAGE]
    = Ok [LInt ((-1) mod 2 ^ 32); LBool true].
Proof.
  apply (uint_option_wraps p0 COAP_OPTION_MAXAGE (-1)).
  - reflexivity.
  - cbn. unfold COAP_OPTION_MAXAGE. lia.
  - constructor.
Defined.

Lemma encode_uint_non_empty (v : Z) : encode_uint v <> [].
Proof.
  rewrite encode_uint_wraps.
  destruct (encode_uint_cases (v mod 2 ^ 32)) as [[_ ->] | [[_ ->] | [[_ ->] | [_ ->]]]];
    [apply Z.mod_pos_bound; lia | discriminate ..].
Qed.

Lemma push_opaque (t : Z) (bs : bytes) :
  _get_coap_optval_type t = OPTVAL_UNKNWN \/ _get_coap_optval_type t = OPTVAL_OPAQUE ->
  bs <> [] -> _push_coap_opt_val bs t = LTable (map LInt bs).
Proof.
  intros Ht Hne. unfold _push_coap_opt_val.
  destruct bs; [congruence |]. destruct Ht as [-> | ->]; reflexivity.
Qed.

(** The shape of [l_coap_pdu_set_option] for an option type the table does
    not know. *)
Lemma set_option_unknown (p : coap_pdu_t) (t : Z) (val : lua_value) :
  _get_coap_optval_type (to_int t) = OPTVAL_UNKNWN ->
  l_coap_pdu_set_option p [LInt t; val] =
    (opt_val ←
       match val with
       | LInt v => Ok (encode_uint v)
       | LStr s => Ok s
       | LTable _ => encode_opaque [LInt t; val]
       | _ => Raise InvalidArgument
       end;
     match coap_add_option p (to_uint16 (to_int t)) opt_val with
     | Some p' => Ok p'
     | None => Raise OptionOrderViolation
     end).
Proof.
  intros Ht. unfold l_coap_pdu_set_option.
  change (luaL_checkinteger [LInt t; val] 1) with (Ok (A:=Z) t).
  change (has_arg [LInt t; val] 2) with true.
  unfold mbind, result_bind. rewrite Ht.
  destruct val; reflexivity.
Qed.

(** X8. For an option type [t] the table does not know, the option is
    added under [t] narrowed to 16 bits, as the engine takes it, and the
    shape of the value decides how it is written (a number as its minimal
    big-endian bytes, a string as its bytes); [get_option(t)] reads it
    back as a byte array whatever was set.  The order of the options is
    tested on the narrowed type; a boolean value is refused. *)
Theorem unknown_option_reads_as_bytes (p : coap_pdu_t) (t : Z) :
  _get_coap_optval_type (to_int t) = OPTVAL_UNKNWN ->
  (pdu_max_delta p <= to_uint16 (to_int t) ->
   Forall (fun o => fst o <> to_uint16 (to_int t)) (pdu_options p) ->
   (forall v : Z,
      exists p',
        l_coap_pdu_set_option p [LInt t; LInt v] = Ok p' /\
        pdu_options p' = pdu_options p ++ [(to_uint16 (to_int t), encode_uint v)] /\
        l_coap_pdu_get_option p' [LInt t]
        = Ok [LTable (map LInt (encode_uint v)); LBool true]) /\
   (forall s : bytes,
      s <> [] ->
      exists p',
        l_coap_pdu_set_option p [LInt t; LStr s] = Ok p' /\
        pdu_options p' = pdu_options p ++ [(to_uint16 (to_int t), s)] /\
        l_coap_pdu_get_option p' [LInt t] = Ok [LTable (map LInt s); LBool true])) /\
  (to_uint16 (to_int t) < pdu_max_delta p ->
   forall v : Z,
     l_coap_pdu_set_option p [LInt t; LInt v] = Raise OptionOrderViolation) /\
  (forall b : bool,
     l_coap_pdu_set_option p [LInt t; LBool b] = Raise InvalidArgument) /\
  (0 <= t < 2 ^ 16 -> to_uint16 (to_int t) = t).
Proof.
  intros Ht. split; [| split; [| split]].
  - intros Hmax Hno. split.
    + intros v. eexists. split; [| split].
      * rewrite set_option_unknown by assumption. unfold mbind, result_bind.
        rewrite coap_add_option_ok by exact Hmax. reflexivity.
      * reflexivity.
      * rewrite get_option_added_narrowed by assumption.
        rewrite push_opaque; [reflexivity | left; exact Ht | apply encode_uint_non_empty].
    + intros s Hs. eexists. split; [| split].
      * rewrite set_option_unknown by assumption. unfold mbind, result_bind.
        rewrite coap_add_option_ok by exact Hmax. reflexivity.
      * reflexivity.
      * rewrite get_option_added_narrowed by assumption.
        rewrite push_opaque; [reflexivity | left; exact Ht | exact Hs].
  - intros Hlt v. rewrite set_option_unknown by assumption. unfold mbind, result_bind.
    unfold coap_add_option.
    destruct (Z.ltb_spec (to_uint16 (to_int t)) (pdu_max_delta p)); [reflexivity | lia].
  - intros b. rewrite set_option_unknown by assumption. reflexivity.
  - intros Hr. rewrite (to_int_small t) by lia. apply to_uint16_small. exact Hr.
Qed.

Lemma unknown_option_reads_as_bytes_witness :
  (exists p',
     l_coap_pdu_set_option p0 [LInt 65550; LInt 258] = Ok p' /\
     pdu_options p' = pdu_options p0 ++ [(to_uint16 (to_int 65550), encode_uint 258)] /\
     l_coap_pdu_get_option p' [LInt 65550]
     = Ok [LTable (map LInt (encode_uint 258)); LBool true]) /\
  to_uint16 (to_int 65550) = COAP_OPTION_MAXAGE /\
  l_coap_pdu_set_option (mk_pdu 0 1 7 [] [(COAP_OPTION_LOCATION_QUERY, [97])] [])
    [LInt 65550; LInt 5] = Raise OptionOrderViolation.
Proof.
  split; [| split].
  - refine (proj1 (proj1 (unknown_option_reads_as_bytes p0 65550 _) _ _) 258).
    + reflexivity.
    + vm_compute. discriminate.
    + constructor.
  - reflexivity.
  - refine (proj1 (proj2 (unknown_option_reads_as_bytes
                            (mk_pdu 0 1 7 [] [(COAP_OPTION_LOCATION_QUERY, [97])] [])
                            65550 _)) _ 5).
    + reflexivity.
    + vm_compute. reflexivity.
Defined.

Lemma bytes_of_table_non_number (pre : bytes) (e : lua_value) (post : list lua_value) :
  lua_type_of e <> LUA_TNUMBER ->
  bytes_of_table (map LInt pre ++ e :: post) = Raise InvalidArgument.
Proof.
  intros He. induction pre as [| b pre IH]; cbn [map app bytes_of_table].
  - destruct e; cbn in *; congruence.
  - cbn [lua_type_of]. rewrite IH. reflexivity.
Qed.

(** X9. The elements of an array set as an opaque value are cut to their
    low 8 bits, so what is read back is the array modulo 256; an array
    with an element that is no number is refused and no option is
    added. *)
Theorem opaque_option_narrows (p : coap_pdu_t) (t : Z) :
  _get_coap_optval_type t = OPTVAL_OPAQUE ->
  pdu_max_delta p <= t ->
  Forall (fun o => fst o <> t) (pdu_options p) ->
  (forall ns : list Z,
     ns <> [] -> (length ns <= 255)%nat ->
     exists p',
       l_coap_pdu_set_option p [LInt t; LTable (map LInt ns)] = Ok p' /\
       l_coap_pdu_get_option p' [LInt t]
       = Ok [LTable (map LInt (map (fun n => n mod 256) ns)); LBool true]) /\
  (forall (pre : bytes) (e : lua_value) (post : list lua_value),
     lua_type_of e <> LUA_TNUMBER ->
     (length (map LInt pre ++ e :: post) <= 255)%nat ->
     l_coap_pdu_set_option p [LInt t; LTable (map LInt pre ++ e :: post)]
     = Raise InvalidArgument).
Proof.
  intros Ht Hmax Hno.
  assert (Hr : 1 <= t <= 258) by (apply optval_type_known_range; congruence).
  split.
  - intros ns Hne Hlen. eexists. split.
    + rewrite set_option_known, Ht by congruence.
      unfold encode_opaque, lua_arg. cbn [nth_error Nat.sub]. rewrite length_map.
      destruct (Nat.ltb_spec 255 (length ns)); [lia |].
      rewrite bytes_of_table_ints. unfold mbind, result_bind.
      rewrite coap_add_option_ok by exact Hmax. reflexivity.
    + rewrite get_option_added by (try assumption; lia).
      rewrite push_opaque; [reflexivity | right; exact Ht |].
      destruct ns; [congruence | discriminate].
  - intros pre e post He Hlen. rewrite set_option_known, Ht by congruence.
    unfold encode_opaque, lua_arg. cbn [nth_error Nat.sub].
    destruct (Nat.ltb_spec 255 (length (map LInt pre ++ e :: post))); [lia |].
    rewrite bytes_of_table_non_number by exact He. reflexivity.
Qed.

Lemma opaque_option_narrows_witness :
  exists p',
    l_coap_pdu_set_option p0 [LInt COAP_OPTION_ETAG; LTable (map LInt [257; -1])] = Ok p' /\
    l_coap_pdu_get_option p' [LInt COAP_OPTION_ETAG]
    = Ok [LTable (map LInt (map (fun n => n mod 256) [257; -1])); LBool true].
Proof.
  refine (proj1 (opaque_option_narrows p0 COAP_OPTION_ETAG _ _ _) [257; -1] _ _).
  - reflexivity.
  - cbn. unfold COAP_OPTION_ETAG. lia.
  - constructor.
  - discriminate.
  - cbn. lia.
Defined.

(** X10. A string set as the value of a String-classified option is read
    back as it was set; the empty string, like a missing value argument,
    gives an option that is there and reads as [nil]; an option whose type
    is below the one added last is refused with [OptionOrderViolation]. *)
Theorem string_option_roundtrip (p : coap_pdu_t) (t : Z) (s : bytes) :
  _get_coap_optval_type t = OPTVAL_STRING ->
  (pdu_max_delta p <= t ->
   Forall (fun o => fst o <> t) (pdu_options p) ->
   exists p',
     l_coap_pdu_set_option p [LInt t; LStr s] = Ok p' /\
     l_coap_pdu_get_option p' [LInt t]
     = Ok [if non_empty s then LStr s else LNil; LBool true] /\
     (s = [] -> l_coap_pdu_set_option p [LInt t] = Ok p')) /\
  (t < pdu_max_delta p ->
   l_coap_pdu_set_option p [LInt t; LStr s] = Raise OptionOrderViolation /\
   l_coap_pdu_set_option p [LInt t] = Raise OptionOrderViolation).
Proof.
  intros Ht.
  assert (Hr : 1 <= t <= 258) by (apply optval_type_known_range; congruence).
  split.
  - intros Hmax Hno. eexists. split; [| split].
    + rewrite set_option_known, Ht by congruence.
      cbn [luaL_checkstring lua_arg Nat.sub nth_error]. unfold mbind, result_bind.
      rewrite coap_add_option_ok by exact Hmax. reflexivity.
    + rewrite get_option_added by (try assumption; lia).
      unfold _push_coap_opt_val. rewrite Ht. destruct s; reflexivity.
    + intros ->. unfold l_coap_pdu_set_option.
      cbn [luaL_checkinteger lua_arg Nat.sub nth_error has_arg length Nat.leb].
      unfold mbind, result_bind. rewrite to_int_small by lia.
      rewrite to_uint16_small by lia.
      rewrite coap_add_option_ok by exact Hmax. reflexivity.
  - intros Hlt. split.
    + rewrite set_option_known, Ht by congruence.
      cbn [luaL_checkstring lua_arg Nat.sub nth_error]. unfold mbind, result_bind.
      unfold coap_add_option. destruct (Z.ltb_spec t (pdu_max_delta p)); [reflexivity | lia].
    + unfold l_coap_pdu_set_option.
      cbn [luaL_checkinteger lua_arg Nat.sub nth_error has_arg length Nat.leb].
      unfold mbind, result_bind. rewrite to_int_small by lia.
      rewrite to_uint16_small by lia.
      unfold coap_add_option. destruct (Z.ltb_spec t (pdu_max_delta p)); [reflexivity | lia].
Qed.

Lemma string_option_roundtrip_witness :
  exists p',
    l_coap_pdu_set_option p0 [LInt COAP_OPTION_URI_HOST; LStr (bytes_of_string "h")]
    = Ok p' /\
    l_coap_pdu_get_option p' [LInt COAP_OPTION_URI_HOST]
    = Ok [LStr (bytes_of_string "h"); LBool true].
Proof.
  destruct (proj1 (string_option_roundtrip p0 COAP_OPTION_URI_HOST (bytes_of_string "h")
                     eq_refl)) as (p' & Hs & Hg & _).
  - cbn. unfold COAP_OPTION_URI_HOST. lia.
  - constructor.
  - exists p'. split; [exact Hs | exact Hg].
Defined.

Lemma lor_shiftl_5 (q r : Z) :
  0 <= q -> 0 <= r < 32 -> Z.lor (Z.shiftl q 5) r = q * 32 + r.
Proof.
  intros Hq Hr.
  replace (q * 32) with (Z.shiftl q 5) by (rewrite Z.shiftl_mul_pow2 by lia; reflexivity).
  rewrite <- Z.lxor_lor, <- Z.add_nocarry_lxor; try reflexivity.
  all: apply Z.bits_inj'; intros n Hn; rewrite Z.land_spec, Z.bits_0.
  all: destruct (Z.lt_ge_cases n 5) as [Hlt | Hge].
  all: try (rewrite Z.shiftl_spec_low by lia; reflexivity).
  all: rewrite <- (Z.mod_small r (2 ^ 5)) by (change (2 ^ 5) with 32; lia).
  all: rewrite (Z.mod_pow2_bits_high r 5 n) by lia; apply andb_false_r.
Qed.

Lemma response_code_value (c : Z) :
  0 <= c -> c / 100 < 8 -> c mod 100 < 32 ->
  COAP_RESPONSE_CODE c = c / 100 * 32 + c mod 100.
Proof.
  intros H0 Hq Hr. unfold COAP_RESPONSE_CODE, to_uint8.
  rewrite Z.quot_div_nonneg, Z.rem_mod_nonneg by lia.
  assert (0 <= c / 100) by (apply Z.div_pos; lia).
  assert (0 <= c mod 100 < 100) by (apply Z.mod_pos_bound; lia).
  rewrite lor_shiftl_5 by lia. apply Z.mod_small. change (2 ^ 8) with 256. lia.
Qed.

(** X11. The message type is kept modulo 4: whatever integer is set, what
    is read back is its two low bits.  A code [c] whose class [c / 100] is
    below 8 and whose detail [c mod 100] is below 32 is read back as it was
    set, and neither setter touches anything else of the message. *)
Theorem type_code_roundtrip (p : coap_pdu_t) :
  (forall t : Z,
     exists p',
       l_coap_pdu_set_type p [LInt t] = Ok p' /\
       l_coap_pdu_get_type p' = [LInt (t mod 4)] /\
       p' = set_pdu_type p (t mod 4)) /\
  (forall c : Z,
     0 <= c -> c / 100 < 8 -> c mod 100 < 32 ->
     exists p',
       l_coap_pdu_set_code p [LInt c] = Ok p' /\
       l_coap_pdu_get_code p' = [LInt c] /\
       p' = set_pdu_code p (c / 100 * 32 + c mod 100)).
Proof.
  split.
  - intros t. eexists. split; [reflexivity |].
    assert (E : Z.land t 3 = t mod 4).
    { change 3 with (Z.ones 2). rewrite Z.land_ones by lia. reflexivity. }
    rewrite E. split; [| reflexivity].
    unfold l_coap_pdu_get_type, set_pdu_type, pdu_type.
    change 3 with (Z.ones 2). rewrite Z.land_ones by lia.
    change (2 ^ 2) with 4. rewrite Z.mod_mod by lia. reflexivity.
  - intros c H0 Hq Hr. eexists. split; [reflexivity |].
    assert (Hq0 : 0 <= c / 100) by (apply Z.div_pos; lia).
    assert (Hr0 : 0 <= c mod 100 < 100) by (apply Z.mod_pos_bound; lia).
    assert (Hc : c < 800).
    { pose proof (Z.div_mod c 100 ltac:(lia)). lia. }
    rewrite to_int_small by lia. rewrite response_code_value by assumption.
    split; [| reflexivity].
    unfold l_coap_pdu_get_code, set_pdu_code, pdu_code.
    rewrite Z.shiftr_div_pow2 by lia. change 31 with (Z.ones 5).
    rewrite Z.land_ones by lia. change (2 ^ 5) with 32.
    rewrite <- (Z.div_unique (c / 100 * 32 + c mod 100) 32 (c / 100) (c mod 100))
      by lia.
    rewrite <- (Z.mod_unique (c / 100 * 32 + c mod 100) 32 (c / 100) (c mod 100))
      by lia.
    f_equal. f_equal. pose proof (Z.div_mod c 100 ltac:(lia)). lia.
Qed.

Lemma type_code_roundtrip_witness :
  exists p',
    l_coap_pdu_set_code p0 [LInt 205] = Ok p' /\
    l_coap_pdu_get_code p' = [LInt 205] /\
    p' = set_pdu_code p0 (205 / 100 * 32 + 205 mod 100).
Proof.
  apply (proj2 (type_code_roundtrip p0) 205); vm_compute; congruence.
Defined.

(** X12. The token: on a message that has no token, option or payload yet,
    a string of 1 to 8 bytes is read back as it was set, as a string and as
    an array; one of more than 8 bytes, string or array, is refused with
    [InvalidToken]; once the message has an option, any token is refused
    with [TokenOrderViolation]. *)
Theorem token_roundtrip (p : coap_pdu_t) (s : bytes) :
  ((length s <= 8)%nat -> s <> [] ->
   pdu_token p = [] -> pdu_options p = [] -> pdu_data p = [] ->
   exists p',
     l_coap_pdu_set_token p [LStr s] = Ok p' /\
     l_coap_pdu_get_token p' [] = [LStr s] /\
     l_coap_pdu_get_token p' [LBool true] = [LTable (map LInt s)] /\
     p' = set_pdu_token p s) /\
  ((8 < length s)%nat ->
   l_coap_pdu_set_token p [LStr s] = Raise InvalidToken /\
   l_coap_pdu_set_token p [LTable (map LInt s)] = Raise InvalidToken) /\
  ((length s <= 8)%nat -> pdu_options p <> [] ->
   l_coap_pdu_set_token p [LStr s] = Raise TokenOrderViolation).
Proof.
  split; [| split].
  - intros Hlen Hne Ht Ho Hd. exists (set_pdu_token p s).
    unfold l_coap_pdu_set_token. cbn [lua_arg Nat.sub nth_error].
    unfold mbind, result_bind.
    destruct (Nat.ltb_spec 8 (length s)); [lia |].
    unfold coap_add_token. rewrite Ht, Ho, Hd.
    split; [reflexivity |].
    unfold l_coap_pdu_get_token, set_pdu_token, pdu_token.
    destruct s; [congruence |]. repeat split; reflexivity.
  - intros Hlen. split.
    + unfold l_coap_pdu_set_token. cbn [lua_arg Nat.sub nth_error].
      unfold mbind, result_bind.
      destruct (Nat.ltb_spec 8 (length s)); [reflexivity | lia].
    + unfold l_coap_pdu_set_token. cbn [lua_arg Nat.sub nth_error].
      rewrite length_map.
      destruct (Nat.leb_spec (length s) 8); [lia | reflexivity].
  - intros Hlen Ho. unfold l_coap_pdu_set_token. cbn [lua_arg Nat.sub nth_error].
    unfold mbind, result_bind.
    destruct (Nat.ltb_spec 8 (length s)); [lia |].
    unfold coap_add_token. destruct (pdu_token p); destruct (pdu_options p);
      try congruence; reflexivity.
Qed.

Lemma token_roundtrip_witness :
  exists p',
    l_coap_pdu_set_token p0 [LStr [1; 2; 3]] = Ok p' /\
    l_coap_pdu_get_token p' [] = [LStr [1; 2; 3]] /\
    l_coap_pdu_get_token p' [LBool true] = [LTable (map LInt [1; 2; 3])] /\
    p' = set_pdu_token p0 [1; 2; 3].
Proof.
  apply (proj1 (token_roundtrip p0 [1; 2; 3])).
  - cbn. lia.
  - discriminate.
  - reflexivity.
  - reflexivity.
  - reflexivity.
Defined.

(** X13. The payload a send function sets is what [get_payload] reads: a
    non-empty string as it is, an array of numbers modulo 256; an empty
    string or array, like no argument, leaves the message without payload,
    which reads as [nil]; a value of another type is refused. *)
Theorem payload_roundtrip (p : coap_pdu_t) :
  pdu_data p = [] ->
  (forall s : bytes,
     exists p',
       _set_payload p [LStr s] 1 = Ok p' /\
       l_coap_pdu_get_payload p' [] = [if non_empty s then LStr s else LNil]) /\
  (forall ns : list Z,
     exists p',
       _set_payload p [LTable (map LInt ns)] 1 = Ok p' /\
       l_coap_pdu_get_payload p' [LBool true]
       = [if non_empty ns then LTable (map LInt (map (fun n => n mod 256) ns))
          else LNil]) /\
  (exists p',
     _set_payload p [] 1 = Ok p' /\ l_coap_pdu_get_payload p' [] = [LNil]) /\
  (forall b : bool, _set_payload p [LBool b] 1 = Raise InvalidArgument) /\
  (forall n : Z, _set_payload p [LInt n] 1 = Raise InvalidArgument).
Proof.
  intros Hd. split; [| split; [| split; [| split]]].
  - intros s. eexists. split; [reflexivity |].
    unfold l_coap_pdu_get_payload. destruct s; cbn; [rewrite Hd |]; reflexivity.
  - intros ns. eexists. split.
    + unfold _set_payload. cbn [lua_arg Nat.sub nth_error].
      rewrite bytes_of_table_ints. reflexivity.
    + unfold l_coap_pdu_get_payload. destruct ns; cbn; [rewrite Hd |]; reflexivity.
  - eexists. split; [reflexivity |]. unfold l_coap_pdu_get_payload. cbn.
    rewrite Hd. reflexivity.
  - reflexivity.
  - reflexivity.
Qed.

Lemma payload_roundtrip_witness :
  exists p',
    _set_payload p0 [LTable (map LInt [300; -1])] 1 = Ok p' /\
    l_coap_pdu_get_payload p' [LBool true]
    = [if non_empty [300; -1] then LTable (map LInt (map (fun n => n mod 256) [300; -1]))
       else LNil].
Proof.
  apply (proj1 (proj2 (payload_roundtrip p0 eq_refl)) [300; -1]).
Defined.

(** What the dispatcher hands out is left to the object by its access
    bits, and it stands in the tables under the name that was asked for. *)
Lemma dispatcher_sound (ud : ud_coap_pdu_t) (key : lua_value) (m : pdu_method) :
  _pdu_obj_dispacher ud key = Ok m ->
  method_allowed ud m = true /\
  exists fname, luaL_checkstring [key] 1 = Ok fname /\
                bytes_of_string (method_name m) = c_str fname.
Proof.
  unfold _pdu_obj_dispacher.
  destruct (luaL_checkstring [key] 1) as [fname | e |]; cbn [mbind result_bind];
    unfold mbind, result_bind; try discriminate.
  destruct (access_lck ud); [discriminate |].
  assert (Hin : forall funcs m',
             _get_func fname funcs = Some m' ->
             Forall (fun nf => method_allowed ud (snd nf) = true /\
                               fst nf = method_name (snd nf)) funcs ->
             method_allowed ud m' = true /\
             bytes_of_string (method_name m') = c_str fname).
  { intros funcs m' Hg Hall. induction funcs as [| [n f] funcs IH]; [discriminate |].
    cbn [_get_func] in Hg. inversion Hall as [| ? ? [Ha Hn] Hall']; subst.
    cbn [fst snd] in *.
    destruct (bool_decide_reflect (bytes_of_string n = c_str fname)) as [E | _].
    - injection Hg as <-. split; [exact Ha |]. rewrite <- Hn. exact E.
    - apply IH; assumption. }
  intros H.
  enough (method_allowed ud m = true /\ bytes_of_string (method_name m) = c_str fname)
    as [Ha Hn] by (split; [exact Ha | exists fname; split; [reflexivity | exact Hn]]).
  destruct (_get_func fname r_funcs) as [m1 |] eqn:E1.
  { injection H as <-. apply (Hin _ _ E1). repeat constructor. }
  destruct (is_hndlr (access_hndlr ud)) eqn:Eh.
  - destruct (_get_func fname r_cmnh_funcs) as [m2 |] eqn:E2.
    { injection H as <-. apply (Hin _ _ E2). repeat constructor; cbn; exact Eh. }
    destruct (access_ro ud) eqn:Ero; [discriminate |].
    destruct (_get_func fname w_funcs) as [m3 |] eqn:E3.
    { injection H as <-. apply (Hin _ _ E3).
      repeat constructor; cbn; rewrite Ero; reflexivity. }
    destruct (access_hndlr ud =? ACS_REQ_HNDLR) eqn:Er.
    + destruct (_get_func fname w_reqh_funcs) as [m4 |] eqn:E4; [| discriminate].
      injection H as <-. apply (Hin _ _ E4).
      repeat constructor; cbn; rewrite Ero, Er; reflexivity.
    + destruct ((access_hndlr ud =? ACS_RESP_HNDLR) || (access_hndlr ud =? ACS_NACK_HNDLR));
        discriminate.
  - destruct (access_ro ud) eqn:Ero; [discriminate |].
    destruct (_get_func fname w_funcs) as [m3 |] eqn:E3.
    { injection H as <-. apply (Hin _ _ E3).
      repeat constructor; cbn; rewrite Ero; reflexivity. }
    destruct (access_hndlr ud =? ACS_REQ_HNDLR) eqn:Er.
    + unfold is_hndlr in Eh. rewrite Er in Eh. discriminate.
    + destruct ((access_hndlr ud =? ACS_RESP_HNDLR) || (access_hndlr ud =? ACS_NACK_HNDLR));
        discriminate.
Qed.

Lemma dispatcher_complete (ud : ud_coap_pdu_t) (m : pdu_method) :
  access_lck ud = false -> method_allowed ud m = true ->
  _pdu_obj_dispacher ud (LStr (bytes_of_string (method_name m))) = Ok m.
Proof.
  intros Hl Ha. unfold _pdu_obj_dispacher.
  change (luaL_checkstring [LStr (bytes_of_string (method_name m))] 1)
    with (Ok (A:=bytes) (bytes_of_string (method_name m))).
  unfold mbind, result_bind. rewrite Hl.
  destruct m; cbn [method_allowed] in Ha.
  1-10: vm_compute; reflexivity.
  1-6: apply negb_true_iff in Ha; rewrite Ha;
    match goal with
    | |- context [_get_func ?f r_funcs] =>
        change (_get_func f r_funcs) with (@None pdu_method);
        change (_get_func f r_cmnh_funcs) with (@None pdu_method)
    end;
    destruct (is_hndlr (access_hndlr ud)); reflexivity.
  - rewrite Ha. reflexivity.
  - apply andb_true_iff in Ha as [Hro Hh]. apply negb_true_iff in Hro.
    rewrite Hro, Hh.
    assert (Eh : is_hndlr (access_hndlr ud) = true)
      by (unfold is_hndlr; rewrite Hh; reflexivity).
    rewrite Eh. reflexivity.
Qed.

(** X14. The access matrix of PDU objects: the dispatcher hands out a
    method only if the access bits of the object allow it (reading for
    every object, [get_connection] for handler objects, writing for
    objects that are not read only, [send] for writable objects of the
    request handler), and only under the method's own name; on an unlocked
    object every allowed method is found under its name. *)
Theorem dispatcher_access_matrix (ud : ud_coap_pdu_t) :
  (forall (key : lua_value) (m : pdu_method),
     _pdu_obj_dispacher ud key = Ok m ->
     method_allowed ud m = true /\ access_lck ud = false /\
     exists fname, luaL_checkstring [key] 1 = Ok fname /\
                   bytes_of_string (method_name m) = c_str fname) /\
  (forall m : pdu_method,
     access_lck ud = false -> method_allowed ud m = true ->
     _pdu_obj_dispacher ud (LStr (bytes_of_string (method_name m))) = Ok m) /\
  (forall m : pdu_method,
     method_allowed ud m = false ->
     _pdu_obj_dispacher ud (LStr (bytes_of_string (method_name m)))
     = Raise (if access_lck ud then ObjectLocked else InvalidMethod)).
Proof.
  split; [| split].
  - intros key m H. destruct (dispatcher_sound ud key m H) as [Ha Hn].
    split; [exact Ha |]. split; [exact (dispatcher_not_locked ud key m H) | exact Hn].
  - intros m. apply dispatcher_complete.
  - intros m Hf. destruct (access_lck ud) eqn:Hl.
    { apply dispatcher_locked, Hl. }
    destruct (_pdu_obj_dispacher ud (LStr (bytes_of_string (method_name m))))
      as [m' | e |] eqn:E.
    + destruct (dispatcher_sound _ _ _ E) as [Ha (fname & Hc & Hn)].
      injection Hc as <-.
      assert (m' = m).
      { destruct m, m'; vm_compute in Hn; try discriminate Hn; reflexivity. }
      subst. congruence.
    + revert E. unfold _pdu_obj_dispacher.
      change (luaL_checkstring [LStr (bytes_of_string (method_name m))] 1)
        with (Ok (A:=bytes) (bytes_of_string (method_name m))).
      unfold mbind, result_bind. rewrite Hl.
      repeat match goal with
             | |- context [match ?x with _ => _ end] => destruct x
             end; congruence.
    + revert E. unfold _pdu_obj_dispacher.
      change (luaL_checkstring [LStr (bytes_of_string (method_name m))] 1)
        with (Ok (A:=bytes) (bytes_of_string (method_name m))).
      unfold mbind, result_bind. rewrite Hl.
      repeat match goal with
             | |- context [match ?x with _ => _ end] => destruct x
             end; congruence.
Qed.

Lemma dispatcher_access_matrix_witness :
  _pdu_obj_dispacher (req_hndlr_request 0 p0)
    (LStr (bytes_of_string (method_name M_set_option))) = Raise InvalidMethod.
Proof.
  apply (proj2 (proj2 (dispatcher_access_matrix (req_hndlr_request 0 p0))) M_set_option).
  reflexivity.
Defined.

(** X15. A read-only object is never changed by a script: whatever method
    is called on it with whatever arguments, the object is afterwards what
    it was, message included. *)
Theorem read_only_object_unchanged (L : lua_State) (ud : ud_coap_pdu_t)
    (key : lua_value) (args : list lua_value) :
  access_ro ud = true -> snd (pdu_invoke L ud key args) = ud.
Proof.
  intros Hro. unfold pdu_invoke.
  destruct (_pdu_obj_dispacher ud key) as [m | e |] eqn:E; [| reflexivity ..].
  destruct (dispatcher_sound ud key m E) as [Ha _].
  destruct m; cbn [method_allowed] in Ha; rewrite ?Hro in Ha; try discriminate Ha;
    unfold pdu_call; cbv zeta beta; try reflexivity.
  destruct (l_coap_pdu_qstr_params L (ud_pdu ud) args) as [[L' st] | e |]; reflexivity.
Qed.

Lemma read_only_object_unchanged_witness :
  snd (pdu_invoke L0 (req_hndlr_request 0 p0) (LStr (bytes_of_string "get_code")) [])
  = req_hndlr_request 0 p0.
Proof. apply read_only_object_unchanged. reflexivity. Defined.

Lemma pdu_invoke_access (L : lua_State) (ud : ud_coap_pdu_t) (key : lua_value)
    (args : list lua_value) :
  access_hndlr (snd (pdu_invoke L ud key args)) = access_hndlr ud /\
  (access_lck ud = true -> access_lck (snd (pdu_invoke L ud key args)) = true) /\
  (access_hndlr ud <> ACS_REQ_HNDLR ->
   access_lck (snd (pdu_invoke L ud key args)) = access_lck ud).
Proof.
  unfold pdu_invoke.
  destruct (_pdu_obj_dispacher ud key) as [m | e |] eqn:E;
    [| cbn [snd]; repeat split; congruence ..].
  pose proof (pdu_call_access m L ud args) as H.
  destruct (pdu_call m L ud args) as [[r L'] ud']. cbn [snd].
  destruct H as (_ & Hh & Hl). split; [exact Hh |]. split.
  - intros Ht. apply Hl. left. exact Ht.
  - intros Hne. destruct (dispatcher_sound ud key m E) as [Ha _].
    pose proof (dispatcher_not_locked ud key m E) as Hnl. rewrite Hnl.
    destruct (access_lck ud') eqn:El; [| reflexivity].
    destruct (proj1 Hl eq_refl) as [El' | [-> _]]; [congruence |].
    cbn [method_allowed] in Ha. apply andb_true_iff in Ha as [_ Ha].
    apply Z.eqb_eq in Ha. contradiction.
Qed.

(** X16. The collector frees the message of an object exactly when the
    object was made by [new_msg] and never sent: an object of [new_msg] is
    freed; no method call changes whether an object is freed; a send over
    a connection that succeeds hands the message to the engine, after which
    it is not freed, and a send that is refused leaves the object as it
    was; the objects a request handler gets are never freed. *)
Theorem pdu_freed_unless_sent (ud : ud_coap_pdu_t) :
  (forall args, l_coap_new_msg args = Ok ud -> _pdu_obj_gc ud = true) /\
  (forall L key args,
     _pdu_obj_gc (snd (pdu_invoke L ud key args)) = _pdu_obj_gc ud) /\
  (forall send_tid args,
     _pdu_obj_gc ud = true ->
     match l_coap_conn_send send_tid (Some ud) args with
     | (Ok _, _, Some ud') => _pdu_obj_gc ud' = false
     | (_, _, sent) => sent = Some ud
     end) /\
  (forall session request response,
     _pdu_obj_gc (req_hndlr_request session request) = false /\
     _pdu_obj_gc (req_hndlr_response session request response) = false).
Proof.
  split; [| split; [| split]].
  - intros args. unfold l_coap_new_msg, mbind, result_bind.
    destruct (luaL_checkinteger args 1); try discriminate.
    destruct (luaL_checkinteger args 2); try discriminate.
    destruct (luaL_checkinteger args 3); try discriminate.
    intros [= <-]. reflexivity.
  - intros L key args. unfold _pdu_obj_gc.
    destruct (pdu_invoke_access L ud key args) as (Hh & Hlt & Hl). rewrite Hh.
    destruct (Z.eqb_spec (access_hndlr ud) ACS_NO_HNDLR) as [E | _]; [| reflexivity].
    rewrite Hl by (rewrite E; discriminate). reflexivity.
  - intros send_tid args Hgc. unfold _pdu_obj_gc in Hgc.
    apply andb_true_iff in Hgc as [Hh Hl]. unfold l_coap_conn_send. rewrite Hh.
    cbn [negb]. destruct (_set_payload (ud_pdu ud) args 1); [| reflexivity ..].
    unfold _pdu_obj_gc. cbn. apply andb_false_r.
  - intros. split; reflexivity.
Qed.

Lemma pdu_freed_unless_sent_witness :
  match l_coap_conn_send 5 (Some (mk_ud p0 None 0 false false ACS_NO_HNDLR)) [] with
  | (Ok _, _, Some ud') => _pdu_obj_gc ud' = false
  | (_, _, sent) => sent = Some (mk_ud p0 None 0 false false ACS_NO_HNDLR)
  end.
Proof.
  apply (proj1 (proj2 (proj2 (pdu_freed_unless_sent
                                (mk_ud p0 None 0 false false ACS_NO_HNDLR))))).
  reflexivity.
Defined.

(** X17. The connection object a script gets from a message is the
    session of that message and is never released by the collector; only
    the method [get_connection] of a handler object gives one. *)
Theorem pdu_connection_not_released (L : lua_State) (ud : ud_coap_pdu_t)
    (key : lua_value) (args : list lua_value) (conn : ud_connection_t) :
  fst (fst (pdu_invoke L ud key args)) = Ok (RetConn conn) ->
  _conn_obj_gc conn = false /\ conn_session conn = ud_session ud /\
  is_hndlr (access_hndlr ud) = true /\
  _pdu_obj_dispacher ud key = Ok M_get_connection.
Proof.
  unfold pdu_invoke.
  destruct (_pdu_obj_dispacher ud key) as [m | e |] eqn:E; try discriminate.
  destruct (dispatcher_sound ud key m E) as [Ha _].
  destruct m; unfold pdu_call; cbv zeta beta; cbn [fst];
    try discriminate;
    try (destruct (l_coap_pdu_options (ud_pdu ud) args); discriminate);
    try (destruct (l_coap_pdu_get_option (ud_pdu ud) args); discriminate);
    try (destruct (l_coap_pdu_get_qstr_param (ud_pdu ud) args); discriminate);
    try (destruct (l_coap_pdu_qstr_params L (ud_pdu ud) args) as [[? ?] | |];
         discriminate);
    try match goal with
        | |- context [match ?r with Ok _ => _ | Raise _ => _ | Abort => _ end] =>
            destruct r; discriminate
        end.
  - destruct (l_coap_pdu_set_uri_path (ud_pdu ud) args) as [[[] | |] ?]; discriminate.
  - intros [= <-]. repeat split; try reflexivity. exact Ha.
  - destruct (l_coap_pdu_send_reqh ud args) as [[[] | |] ?]; discriminate.
Qed.

Lemma pdu_connection_not_released_witness :
  _conn_obj_gc (mk_conn (Some 3) false) = false /\
  conn_session (mk_conn (Some 3) false) = ud_session (req_hndlr_request 3 p0) /\
  is_hndlr (access_hndlr (req_hndlr_request 3 p0)) = true /\
  _pdu_obj_dispacher (req_hndlr_request 3 p0)
    (LStr (bytes_of_string "get_connection")) = Ok M_get_connection.
Proof.
  apply (pdu_connection_not_released L0 (req_hndlr_request 3 p0)
           (LStr (bytes_of_string "get_connection")) []).
  reflexivity.
Defined.

Lemma to_int_mod_divide (z k : Z) :
  0 < k -> (k | 2 ^ 32) -> to_int z mod k = z mod k.
Proof.
  intros Hk Hd. unfold to_int.
  rewrite Zminus_mod, Z.mod_mod_divide by exact Hd.
  rewrite <- Zminus_mod. f_equal. ring.
Qed.

(** X18. A message made by [new_msg(type, code, msg_id)] reads back with
    the type modulo 4 and the id modulo 2^16, with the code when its class
    is below 8 and its detail below 32, and with no token, option or
    payload; it can be written to, but [send] and [get_connection] are no
    methods of it.  A missing argument is refused, as is one that is
    neither a number nor a string; a string counts as the integer Lua
    converts it to and is refused when it converts to none. *)
Theorem new_msg_reads_back (type code msg_id : Z) :
  (exists ud,
     l_coap_new_msg [LInt type; LInt code; LInt msg_id] = Ok ud /\
     l_coap_pdu_get_type (ud_pdu ud) = [LInt (type mod 4)] /\
     l_coap_pdu_get_msg_id (ud_pdu ud) = [LInt (msg_id mod 2 ^ 16)] /\
     (0 <= code -> code / 100 < 8 -> code mod 100 < 32 ->
      l_coap_pdu_get_code (ud_pdu ud) = [LInt code]) /\
     l_coap_pdu_get_token (ud_pdu ud) [] = [LNil] /\
     l_coap_pdu_get_payload (ud_pdu ud) [] = [LNil] /\
     pdu_options (ud_pdu ud) = [] /\
     (forall m, method_allowed ud m = true <-> m <> M_send /\ m <> M_get_connection) /\
     _pdu_obj_dispacher ud send_key = Raise InvalidMethod) /\
  l_coap_new_msg [LInt type; LInt code] = Raise InvalidArgument /\
  (forall v : lua_value,
     lua_type_of v <> LUA_TNUMBER -> lua_type_of v <> LUA_TSTRING ->
     l_coap_new_msg [v; LInt code; LInt msg_id] = Raise InvalidArgument) /\
  (forall s1 s2 s3 : bytes,
     l_coap_new_msg [LStr s1; LStr s2; LStr s3]
     = match lua_str2integer s1, lua_str2integer s2, lua_str2integer s3 with
       | Some n1, Some n2, Some n3 => l_coap_new_msg [LInt n1; LInt n2; LInt n3]
       | _, _, _ => Raise InvalidArgument
       end).
Proof.
  split; [| split; [reflexivity | split]].
  2: { intros v Hn Hs. destruct v; cbn in Hn, Hs; try congruence; reflexivity. }
  2: { intros s1 s2 s3. unfold l_coap_new_msg, luaL_checkinteger, lua_arg.
       cbn [nth_error Nat.sub]. unfold mbind, result_bind.
       destruct (lua_str2integer s1), (lua_str2integer s2), (lua_str2integer s3);
         reflexivity. }
  eexists. split; [reflexivity |]. cbn [ud_pdu].
  split; [| split; [| split; [| split; [| split; [| split; [| split]]]]]].
  - unfold l_coap_pdu_get_type, coap_pdu_init, pdu_type, to_uint8.
    change 3 with (Z.ones 2). rewrite Z.land_ones by lia.
    rewrite Z.mod_mod_divide by (exists (2 ^ 6); reflexivity).
    rewrite to_int_mod_divide; [reflexivity | lia | exists (2 ^ 30); reflexivity].
  - unfold l_coap_pdu_get_msg_id, coap_pdu_init, pdu_tid.
    rewrite to_uint16_to_int. reflexivity.
  - intros H0 Hq Hr.
    assert (Hq0 : 0 <= code / 100) by (apply Z.div_pos; lia).
    assert (Hr0 : 0 <= code mod 100 < 100) by (apply Z.mod_pos_bound; lia).
    pose proof (Z.div_mod code 100 ltac:(lia)) as Hdm.
    assert (Hc : code < 800) by lia.
    rewrite (to_int_small code) by lia. rewrite response_code_value by assumption.
    unfold l_coap_pdu_get_code, coap_pdu_init, pdu_code.
    rewrite to_uint8_byte by (unfold is_byte; lia).
    rewrite Z.shiftr_div_pow2 by lia. change 31 with (Z.ones 5).
    rewrite Z.land_ones by lia. change (2 ^ 5) with 32.
    rewrite <- (Z.div_unique (code / 100 * 32 + code mod 100) 32 (code / 100)
                  (code mod 100)) by lia.
    rewrite <- (Z.mod_unique (code / 100 * 32 + code mod 100) 32 (code / 100)
                  (code mod 100)) by lia.
    f_equal. f_equal. lia.
  - reflexivity.
  - reflexivity.
  - reflexivity.
  - intros m. destruct m; cbn; split; try (intros _; split; discriminate);
      try discriminate; try reflexivity; intros [Ha Hb]; congruence.
  - reflexivity.
Qed.

Lemma new_msg_reads_back_witness :
  (exists ud,
     l_coap_new_msg [LInt 0; LInt 205; LInt 70000] = Ok ud /\
     l_coap_pdu_get_msg_id (ud_pdu ud) = [LInt (70000 mod 2 ^ 16)] /\
     l_coap_pdu_get_code (ud_pdu ud) = [LInt 205]) /\
  l_coap_new_msg [LStr (bytes_of_string "0"); LStr (bytes_of_string "1");
                  LStr (bytes_of_string "7")]
  = l_coap_new_msg [LInt 0; LInt 1; LInt 7] /\
  l_coap_new_msg [LStr (bytes_of_string "0"); LStr (bytes_of_string "1.5");
                  LStr (bytes_of_string "7")]
  = Raise InvalidArgument.
Proof.
  split; [| split].
  - destruct (proj1 (new_msg_reads_back 0 205 70000)) as (ud & H & _ & Hid & Hc & _).
    exists ud. split; [exact H |]. split; [exact Hid |].
    apply Hc; vm_compute; congruence.
  - exact (proj2 (proj2 (proj2 (new_msg_reads_back 0 1 7)))
             (bytes_of_string "0") (bytes_of_string "1") (bytes_of_string "7")).
  - exact (proj2 (proj2 (proj2 (new_msg_reads_back 0 1 7)))
             (bytes_of_string "0") (bytes_of_string "1.5") (bytes_of_string "7")).
Defined.

Lemma set_hndlr_ref_function (L : lua_State) (v : lua_value) (f def : Z) :
  hndlr_of_arg L v = Some f ->
  _set_hndlr_ref L [v] 1 def = (Ok (next_ref L), snd (luaL_ref L (LFunc f))).
Proof.
  unfold hndlr_of_arg, _set_hndlr_ref. cbn [has_arg length Nat.leb lua_arg Nat.sub nth_error].
  destruct v; try discriminate.
  - destruct (lua_getglobal L s); try discriminate. intros [= ->]. reflexivity.
  - intros [= ->]. reflexivity.
Qed.

Lemma set_hndlr_ref_refused (L : lua_State) (v : lua_value) (def : Z) :
  hndlr_of_arg L v = None -> v <> LNil ->
  _set_hndlr_ref L [v] 1 def = (Raise InvalidArgument, L).
Proof.
  unfold hndlr_of_arg, _set_hndlr_ref. cbn [has_arg length Nat.leb lua_arg Nat.sub nth_error].
  destruct v; try discriminate; try congruence; try reflexivity.
  destruct (lua_getglobal L s); try discriminate; reflexivity.
Qed.

(** What replacing a reference by a fresh one leaves in the state. *)
Lemma replace_hndlr_fresh (L : lua_State) (old f : Z) :
  old <> next_ref L ->
  let '(ref, L') := replace_hndlr (snd (luaL_ref L (LFunc f))) old (next_ref L) in
  ref = next_ref L /\
  registry L' !! ref = Some (LFunc f) /\
  (ref =? LUA_NOREF) = (next_ref L =? LUA_NOREF) /\
  globals L' = globals L /\
  unref_log L' = unref_log L ++ (if old =? LUA_NOREF then [] else [old]).
Proof.
  intros Hne. unfold replace_hndlr.
  destruct (Z.eqb_spec (next_ref L) old) as [E | _]; [congruence |]. cbn [negb].
  split; [reflexivity |]. destruct (Z.eqb_spec old LUA_NOREF) as [E | E]; cbn [negb luaL_ref snd].
  - cbn [registry globals unref_log]. rewrite lookup_insert_eq, app_nil_r.
    repeat split; reflexivity.
  - cbn [luaL_unref registry globals unref_log].
    rewrite lookup_delete_ne by congruence. rewrite lookup_insert_eq.
    repeat split; reflexivity.
Qed.

(** X19. Registering a handler, as a function or by the name of a global
    function, makes it the handler that is read back and that the engine's
    callback calls; the reference held before is released exactly once and
    the other two handlers are left alone.  (The reference in use is not
    the one the registry hands out next.) *)
Theorem set_handler_then_get (L : lua_State) (lib_ctx : lib_ctx_t)
    (v : lua_value) (f : Z) :
  hndlr_of_arg L v = Some f -> next_ref L <> LUA_NOREF ->
  (ref_reqh lib_ctx <> next_ref L ->
   let '(r, L', ctx') := l_coap_set_req_handler L lib_ctx [v] in
   r = Ok tt /\
   l_coap_get_req_handler L' ctx' = [LFunc f] /\
   resolve_req_hndlr L' ctx' = Some (LFunc f) /\
   unref_log L' = unref_log L ++ refs_in_use (mk_ctx 0 (ref_reqh lib_ctx) LUA_NOREF LUA_NOREF) /\
   ref_resph ctx' = ref_resph lib_ctx /\ ref_nackh ctx' = ref_nackh lib_ctx) /\
  (ref_resph lib_ctx <> next_ref L ->
   let '(r, L', ctx') := l_coap_set_resp_handler L lib_ctx [v] in
   r = Ok tt /\
   l_coap_get_resp_handler L' ctx' = [LFunc f] /\
   resolve_resp_hndlr L' ctx' = Some (LFunc f) /\
   unref_log L' = unref_log L ++ refs_in_use (mk_ctx 0 LUA_NOREF (ref_resph lib_ctx) LUA_NOREF) /\
   ref_reqh ctx' = ref_reqh lib_ctx /\ ref_nackh ctx' = ref_nackh lib_ctx) /\
  (ref_nackh lib_ctx <> next_ref L ->
   let '(r, L', ctx') := l_coap_set_nack_handler L lib_ctx [v] in
   r = Ok tt /\
   l_coap_get_nack_handler L' ctx' = [LFunc f] /\
   unref_log L' = unref_log L ++ refs_in_use (mk_ctx 0 LUA_NOREF LUA_NOREF (ref_nackh lib_ctx)) /\
   ref_reqh ctx' = ref_reqh lib_ctx /\ ref_resph ctx' = ref_resph lib_ctx).
Proof.
  intros Hf Hnr.
  assert (Hnrb : (next_ref L =? LUA_NOREF) = false) by (apply Z.eqb_neq, Hnr).
  split; [| split]; intros Hne.
  - unfold l_coap_set_req_handler. rewrite (set_hndlr_ref_function L v f _ Hf).
    pose proof (replace_hndlr_fresh L (ref_reqh lib_ctx) f Hne) as H.
    destruct (replace_hndlr _ (ref_reqh lib_ctx) (next_ref L)) as [ref L'].
    destruct H as (-> & Hreg & Hb & Hg & Hlog).
    unfold l_coap_get_req_handler, resolve_req_hndlr, push_hndlr, refs_in_use.
    cbn [ref_reqh ref_resph ref_nackh List.filter]. rewrite Hnrb, Hreg, Hlog.
    change (LUA_NOREF =? LUA_NOREF) with true. cbn [negb default].
    destruct (ref_reqh lib_ctx =? LUA_NOREF); repeat split; reflexivity.
  - unfold l_coap_set_resp_handler. rewrite (set_hndlr_ref_function L v f _ Hf).
    pose proof (replace_hndlr_fresh L (ref_resph lib_ctx) f Hne) as H.
    destruct (replace_hndlr _ (ref_resph lib_ctx) (next_ref L)) as [ref L'].
    destruct H as (-> & Hreg & Hb & Hg & Hlog).
    unfold l_coap_get_resp_handler, resolve_resp_hndlr, push_hndlr, refs_in_use.
    cbn [ref_reqh ref_resph ref_nackh List.filter]. rewrite Hnrb, Hreg, Hlog.
    change (LUA_NOREF =? LUA_NOREF) with true. cbn [negb default].
    destruct (ref_resph lib_ctx =? LUA_NOREF); repeat split; reflexivity.
  - unfold l_coap_set_nack_handler. rewrite (set_hndlr_ref_function L v f _ Hf).
    pose proof (replace_hndlr_fresh L (ref_nackh lib_ctx) f Hne) as H.
    destruct (replace_hndlr _ (ref_nackh lib_ctx) (next_ref L)) as [ref L'].
    destruct H as (-> & Hreg & Hb & Hg & Hlog).
    unfold l_coap_get_nack_handler, push_hndlr, refs_in_use.
    cbn [ref_reqh ref_resph ref_nackh List.filter]. rewrite Hnrb, Hreg, Hlog.
    change (LUA_NOREF =? LUA_NOREF) with true. cbn [negb default].
    destruct (ref_nackh lib_ctx =? LUA_NOREF); repeat split; reflexivity.
Qed.

Lemma set_handler_then_get_witness :
  let '(r, L', ctx') := l_coap_set_resp_handler L_resp ctx0
                          [LStr (bytes_of_string "coap_resp_handler")] in
  r = Ok tt /\
  l_coap_get_resp_handler L' ctx' = [LFunc 1] /\
  resolve_resp_hndlr L' ctx' = Some (LFunc 1) /\
  unref_log L' = unref_log L_resp ++ refs_in_use (mk_ctx 0 LUA_NOREF (ref_resph ctx0) LUA_NOREF) /\
  ref_reqh ctx' = ref_reqh ctx0 /\ ref_nackh ctx' = ref_nackh ctx0.
Proof.
  refine (proj1 (proj2 (set_handler_then_get L_resp ctx0
                          (LStr (bytes_of_string "coap_resp_handler")) 1 _ _)) _).
  - vm_compute. reflexivity.
  - vm_compute. discriminate.
  - vm_compute. discriminate.
Defined.

(** X20. An argument that is neither a function, nor the name of a global
    function, nor [nil] is refused by the three setters, and the state and
    the handlers are left as they were: nothing is registered and nothing
    released. *)
Theorem set_handler_refused (L : lua_State) (lib_ctx : lib_ctx_t) (v : lua_value) :
  hndlr_of_arg L v = None -> v <> LNil ->
  l_coap_set_req_handler L lib_ctx [v] = (Raise InvalidArgument, L, lib_ctx) /\
  l_coap_set_resp_handler L lib_ctx [v] = (Raise InvalidArgument, L, lib_ctx) /\
  l_coap_set_nack_handler L lib_ctx [v] = (Raise InvalidArgument, L, lib_ctx).
Proof.
  intros Hn Hv.
  unfold l_coap_set_req_handler, l_coap_set_resp_handler, l_coap_set_nack_handler.
  rewrite (set_hndlr_ref_refused L v _ Hn Hv). repeat split; reflexivity.
Qed.

Lemma set_handler_refused_witness :
  l_coap_set_req_handler L0 ctx0 [LStr (bytes_of_string "no_such")]
  = (Raise InvalidArgument, L0, ctx0).
Proof.
  refine (proj1 (set_handler_refused L0 ctx0 (LStr (bytes_of_string "no_such")) _ _)).
  - vm_compute. reflexivity.
  - discriminate.
Defined.

(** X21. [nil], like no argument at all, puts the default handler back:
    the reference held before is released, once, the getter reads [nil],
    and the request callback falls back to the global function
    [coap_req_handler], dropping the request when there is none. *)
Theorem set_handler_default (L : lua_State) (lib_ctx : lib_ctx_t)
    (args : list lua_value) :
  args = [] \/ args = [LNil] ->
  let '(r, L', ctx') := l_coap_set_req_handler L lib_ctx args in
  r = Ok tt /\
  ctx' = mk_ctx (cfg_max_pdu_sz lib_ctx) LUA_NOREF (ref_resph lib_ctx) (ref_nackh lib_ctx) /\
  l_coap_get_req_handler L' ctx' = [LNil] /\
  unref_log L' = unref_log L ++ refs_in_use (mk_ctx 0 (ref_reqh lib_ctx) LUA_NOREF LUA_NOREF) /\
  registry L' = (if ref_reqh lib_ctx =? LUA_NOREF then registry L
                 else delete (ref_reqh lib_ctx) (registry L)) /\
  resolve_req_hndlr L' ctx' =
    match globals L !! REQ_HANDLER with
    | Some (LFunc f) => Some (LFunc f)
    | _ => None
    end.
Proof.
  intros Ha.
  assert (E : _set_hndlr_ref L args 1 LUA_NOREF = (Ok LUA_NOREF, L))
    by (destruct Ha as [-> | ->]; reflexivity).
  unfold l_coap_set_req_handler. rewrite E. unfold replace_hndlr, refs_in_use.
  cbn [ref_reqh ref_resph ref_nackh List.filter].
  change (LUA_NOREF =? LUA_NOREF) with true. cbn [negb].
  rewrite (Z.eqb_sym LUA_NOREF).
  destruct (Z.eqb_spec (ref_reqh lib_ctx) LUA_NOREF) as [Eo | Eo]; cbn [negb].
  - rewrite app_nil_r. destruct lib_ctx as [sz a b c]. cbn in Eo. subst a.
    repeat split; reflexivity.
  - repeat split; reflexivity.
Qed.

Lemma set_handler_default_witness :
  let '(r, L', ctx') := l_coap_set_req_handler L0 (mk_ctx 1152 5 LUA_NOREF LUA_NOREF) [LNil] in
  r = Ok tt /\
  ctx' = mk_ctx 1152 LUA_NOREF LUA_NOREF LUA_NOREF /\
  l_coap_get_req_handler L' ctx' = [LNil] /\
  unref_log L' = unref_log L0 ++ refs_in_use (mk_ctx 0 5 LUA_NOREF LUA_NOREF) /\
  registry L' = (if 5 =? LUA_NOREF then registry L0 else delete 5 (registry L0)) /\
  resolve_req_hndlr L' ctx' =
    match globals L0 !! REQ_HANDLER with
    | Some (LFunc f) => Some (LFunc f)
    | _ => None
    end.
Proof.
  apply (set_handler_default L0 (mk_ctx 1152 5 LUA_NOREF LUA_NOREF) [LNil]).
  right. reflexivity.
Defined.

(** X22. Freeing the library context releases every handler reference it
    holds, each once, in the order request, response, no-response, and
    leaves none behind: a second call releases nothing, and the getters
    read [nil] afterwards. *)
Theorem free_lib_ctx_releases_once (L : lua_State) (lib_ctx : lib_ctx_t) :
  let '(L1, ctx1) := _free_lib_ctx L lib_ctx in
  unref_log L1 = unref_log L ++ refs_in_use lib_ctx /\
  refs_in_use ctx1 = [] /\
  _free_lib_ctx L1 ctx1 = (L1, ctx1) /\
  l_coap_get_req_handler L1 ctx1 = [LNil] /\
  l_coap_get_resp_handler L1 ctx1 = [LNil] /\
  l_coap_get_nack_handler L1 ctx1 = [LNil] /\
  cfg_max_pdu_sz ctx1 = cfg_max_pdu_sz lib_ctx.
Proof.
  unfold _free_lib_ctx, refs_in_use. cbn [List.filter].
  destruct (ref_reqh lib_ctx =? LUA_NOREF), (ref_resph lib_ctx =? LUA_NOREF),
    (ref_nackh lib_ctx =? LUA_NOREF); cbn [negb luaL_unref unref_log];
    rewrite <- ?app_assoc, ?app_nil_r; repeat split; reflexivity.
Qed.

Lemma coap_option_next_type (oi oi' : coap_opt_iterator_t) (o : Z * bytes) :
  coap_option_next oi = (Some o, oi') -> oi_type oi' = fst o /\ oi_bad oi' = false.
Proof.
  unfold coap_option_next. destruct (oi_bad oi); [discriminate |].
  destruct (oi_rest oi) as [| o0 rest]; [discriminate |].
  destruct (oi_scan _ _ (o0 :: rest)) as [[o1 rest'] |]; [| discriminate].
  intros [= <- <-]. split; reflexivity.
Qed.

(** The generic [for] over the option iterator gives the options the
    cursor has left, in order. *)
Lemma option_iter_all_options (rounds : nat) :
  forall oi : coap_opt_iterator_t,
    (length (oi_rest oi) < rounds)%nat ->
    option_iter_all rounds oi
    = map (fun o => [LInt (fst o); _push_coap_opt_val (snd o) (fst o)])
          (coap_options_of oi).
Proof.
  induction rounds as [| rounds IH]; intros oi Hlen; [lia |].
  cbn [option_iter_all]. unfold _coap_option_iter.
  destruct (oi_bad oi) eqn:Hbad.
  { unfold coap_options_of. rewrite Hbad. reflexivity. }
  pose proof (coap_option_next_drain oi) as Hd.
  destruct (coap_option_next oi) as [[o |] oi'] eqn:Hn.
  - destruct (coap_option_next_type _ _ _ Hn) as [Ht _].
    apply coap_option_next_some in Hn.
    rewrite Hd, Ht. cbn [map]. rewrite IH by lia. reflexivity.
  - destruct Hd as [-> _]. reflexivity.
Qed.

Lemma check_integers_ok (ts : list Z) (pre : list lua_value) :
  check_integers (S (length pre)) (pre ++ map LInt ts) (length ts)
  = Ok (map to_int ts).
Proof.
  revert pre. induction ts as [| t ts IH]; intros pre; cbn [check_integers length map].
  - reflexivity.
  - unfold luaL_checkinteger, lua_arg. cbn [Nat.sub]. rewrite Nat.sub_0_r.
    rewrite nth_error_app2, Nat.sub_diag by lia. cbn [nth_error mbind result_bind].
    unfold mbind, result_bind.
    specialize (IH (pre ++ [LInt t])). rewrite length_app, <- app_assoc in IH.
    cbn [length app] in IH. rewrite Nat.add_1_r in IH. rewrite IH. reflexivity.
Qed.

Lemma oi_drain_all (filter : list Z) (opts : list (Z * bytes)) :
  oi_drain false filter opts = opts.
Proof.
  induction opts as [| o opts IH]; cbn [oi_drain negb orb]; [reflexivity |].
  rewrite IH. reflexivity.
Qed.

Lemma oi_drain_filtered (filter : list Z) (opts : list (Z * bytes)) :
  oi_drain true filter opts = List.filter (fun o => filter_has filter (fst o)) opts.
Proof.
  induction opts as [| o opts IH]; cbn [oi_drain List.filter negb orb]; [reflexivity |].
  rewrite IH. reflexivity.
Qed.

(** X23. A [for] loop over [options(t1, ..., tn)] gets every option of the
    message whose type is one of the [ti] as the engine is given them
    (narrowed to 16 bits), once and in the order of the message, each with
    its type and its decoded value; with no argument it gets every option;
    a message without options ends the loop at once.  This is for the
    filters the engine's filter has room for. *)
Theorem options_iteration_lists (p : coap_pdu_t) (ts : list Z) (rounds : nat) :
  (length (pdu_options p) < rounds)%nat ->
  filter_fits (narrowed_types ts) ->
  exists oi,
    l_coap_pdu_options p (map LInt ts) = Ok oi /\
    option_iter_all rounds oi
    = map (fun o => [LInt (fst o); _push_coap_opt_val (snd o) (fst o)])
          (List.filter (fun o => match ts with
                                 | [] => true
                                 | _ => filter_has (narrowed_types ts) (fst o)
                                 end) (pdu_options p)).
Proof.
  intros Hlen _. unfold l_coap_pdu_options. rewrite length_map.
  pose proof (check_integers_ok ts []) as Hc. cbn [length app] in Hc. rewrite Hc.
  unfold mbind, result_bind. eexists. split; [reflexivity |].
  rewrite option_iter_all_options
    by (unfold coap_option_iterator_init; cbn [snd oi_rest]; exact Hlen).
  f_equal. unfold coap_option_iterator_init, coap_options_of.
  cbn [snd oi_bad oi_rest oi_filtered oi_filter].
  destruct (pdu_options p) as [| o opts] eqn:Ho.
  - destruct (pdu_data p); destruct ts; reflexivity.
  - destruct ts as [| t ts'].
    + cbn [length]. rewrite oi_drain_all. symmetry.
      apply forallb_filter_id. apply forallb_forall. reflexivity.
    + cbn [length]. rewrite map_map. apply oi_drain_filtered.
Qed.

Lemma options_iteration_lists_witness :
  exists oi,
    l_coap_pdu_options (mk_pdu 0 1 7 [] [(11, [97]); (11, [98]); (14, [5])] [])
      (map LInt [65550]) = Ok oi /\
    option_iter_all 4 oi
    = map (fun o => [LInt (fst o); _push_coap_opt_val (snd o) (fst o)])
          (List.filter (fun o => match [65550] with
                                 | [] => true
                                 | _ => filter_has (narrowed_types [65550]) (fst o)
                                 end) [(11, [97]); (11, [98]); (14, [5])]) /\
    option_iter_all 4 oi = [[LInt 14; LInt 5]].
Proof.
  destruct (options_iteration_lists
              (mk_pdu 0 1 7 [] [(11, [97]); (11, [98]); (14, [5])] []) [65550] 4)
    as (oi & Ho & Hall).
  - cbn. lia.
  - split; vm_compute; lia.
  - exists oi. split; [exact Ho |]. split; [exact Hall |].
    rewrite Hall. reflexivity.
Defined.

Lemma name_in_filter_refs (L : lua_State) (st st' : coap_qstr_param_iter_state_t)
    (name : bytes) :
  n_refs st' = n_refs st -> qs_refs st' = qs_refs st ->
  name_in_filter L st' name = name_in_filter L st name.
Proof. intros Hn Hr. unfold name_in_filter. rewrite Hn, Hr. reflexivity. Qed.

(** One call of the iteration function: the first parameter left that has
    a name and passes the filter, or the end. *)
Lemma qstr_param_iter_loop_first (rounds : nat) :
  forall (L : lua_State) (st : coap_qstr_param_iter_state_t),
    (length (oi_rest (qs_iter st)) < rounds)%nat ->
    exists vals L' st',
      _coap_qstr_param_iter_loop rounds L st = Some (vals, L', st') /\
      qs_refs st' = qs_refs st /\
      match List.filter
              (fun nv => (n_refs st =? 0)%nat || name_in_filter L st (fst nv))
              (List.filter (fun nv => non_empty (fst nv))
                 (map parse_qstr (map snd (coap_options_of (qs_iter st))))) with
      | [] =>
          vals = [LNil] /\ n_refs st' = O /\
          L' = fold_left luaL_unref (take (n_refs st) (qs_refs st)) L
      | nv :: rest =>
          vals = [LStr (fst nv); qstr_val (snd nv)] /\ L' = L /\
          n_refs st' = n_refs st /\
          (length (oi_rest (qs_iter st')) < length (oi_rest (qs_iter st)))%nat /\
          List.filter
            (fun nv => (n_refs st =? 0)%nat || name_in_filter L st (fst nv))
            (List.filter (fun nv => non_empty (fst nv))
               (map parse_qstr (map snd (coap_options_of (qs_iter st'))))) = rest
      end.
Proof.
  induction rounds as [| rounds IH]; intros L st Hlen; [lia |].
  cbn [_coap_qstr_param_iter_loop].
  destruct (oi_bad (qs_iter st)) eqn:Hbad.
  { unfold coap_options_of. rewrite Hbad. cbn [map List.filter].
    eexists _, _, _. split; [reflexivity |]. repeat split; reflexivity. }
  unfold _parse_next_coap_qstr_param.
  pose proof (coap_option_next_drain (qs_iter st)) as Hd.
  destruct (coap_option_next (qs_iter st)) as [[o |] iter'] eqn:Hn.
  2: { destruct Hd as [-> _]. cbn [map List.filter].
       eexists _, _, _. split; [reflexivity |]. repeat split; reflexivity. }
  apply coap_option_next_some in Hn. rewrite Hd. cbn [map List.filter].
  destruct (parse_qstr (snd o)) as [name val]. cbn [fst].
  destruct name as [| c name]; cbn [non_empty].
  - destruct (IH L (mk_qs (n_refs st) (qs_refs st) iter'))
      as (vals & L' & st' & Hl & Hr & Hm); [cbn [qs_iter]; lia |].
    exists vals, L', st'. split; [exact Hl |]. split; [exact Hr |].
    cbn [n_refs qs_refs qs_iter] in Hm.
    unfold name_in_filter in *. cbn [n_refs qs_refs qs_iter] in Hm.
    destruct (List.filter _ _) as [| nv rest]; [exact Hm |].
    destruct Hm as (Hv & HL & Hnr & Hlt & Hrest).
    repeat split; try assumption. lia.
  - cbn [List.filter fst].
    destruct ((n_refs st =? 0)%nat || name_in_filter L st (c :: name)) eqn:Hsel.
    + eexists _, _, _. split; [reflexivity |]. split; [reflexivity |].
      cbn [fst snd n_refs qs_refs qs_iter]. repeat split; try reflexivity. exact Hn.
    + destruct (IH L (mk_qs (n_refs st) (qs_refs st) iter'))
        as (vals & L' & st' & Hl & Hr & Hm); [cbn [qs_iter]; lia |].
      exists vals, L', st'. split; [exact Hl |]. split; [exact Hr |].
      unfold name_in_filter in *. cbn [n_refs qs_refs qs_iter] in Hm.
      destruct (List.filter _ _) as [| nv rest]; [exact Hm |].
      destruct Hm as (Hv & HL & Hnr & Hlt & Hrest).
      repeat split; try assumption. lia.
Qed.

(** The generic [for] over the query parameter iterator. *)
Lemma qstr_param_iter_all_params (rounds : nat) :
  forall (L : lua_State) (st : coap_qstr_param_iter_state_t),
    (length (oi_rest (qs_iter st)) < rounds)%nat ->
    let '(vals, L', st') := qstr_param_iter_all rounds L st in
    vals = map (fun nv => [LStr (fst nv); qstr_val (snd nv)])
             (List.filter
                (fun nv => (n_refs st =? 0)%nat || name_in_filter L st (fst nv))
                (List.filter (fun nv => non_empty (fst nv))
                   (map parse_qstr (map snd (coap_options_of (qs_iter st)))))) /\
    L' = fold_left luaL_unref (take (n_refs st) (qs_refs st)) L /\
    n_refs st' = O.
Proof.
  induction rounds as [| rounds IH]; intros L st Hlen; [lia |].
  cbn [qstr_param_iter_all]. unfold _coap_qstr_param_iter.
  destruct (qstr_param_iter_loop_first (S (length (oi_rest (qs_iter st)))) L st)
    as (vals & L1 & st1 & Hl & Hr & Hm); [lia |].
  rewrite Hl.
  destruct (List.filter _ (List.filter _ _)) as [| nv rest] eqn:Hf.
  - destruct Hm as (-> & Hn & ->). repeat split; [exact Hn].
  - destruct Hm as (-> & -> & Hn & Hlt & Hrest).
    specialize (IH L st1 ltac:(lia)).
    destruct (qstr_param_iter_all rounds L st1) as [[vals2 L2] st2].
    destruct IH as (Hv & HL & Hn2).
    rewrite Hn, Hr in HL. split; [| split; assumption].
    cbn [map]. f_equal. rewrite Hv. f_equal. rewrite <- Hrest.
    apply filter_ext. intros x. rewrite Hn.
    rewrite (name_in_filter_refs L st st1 _ Hn Hr). reflexivity.
Qed.

(** What [ref_args] leaves in the registry: the arguments under the new
    references, in order. *)
Lemma ref_args_registry (names : list lua_value) :
  forall (i : nat) (L : lua_State) (st : coap_qstr_param_iter_state_t),
    let '(L', st') := ref_args i names L st in
    (forall k, (k < length names)%nat ->
               registry L' !! (next_ref L + Z.of_nat k) = names !! k) /\
    (forall r, r < next_ref L -> registry L' !! r = registry L !! r) /\
    qs_iter st' = qs_iter st.
Proof.
  induction names as [| v names IH]; intros i L st; cbn [ref_args].
  - split; [cbn; lia |]. split; reflexivity.
  - cbn [luaL_ref].
    specialize (IH (S i)
                  (mk_L (globals L) (<[next_ref L := v]> (registry L)) (next_ref L + 1)
                        (unref_log L))
                  (mk_qs (S (n_refs st)) (<[i := next_ref L]> (qs_refs st)) (qs_iter st))).
    destruct (ref_args (S i) names _ _) as [L' st'].
    cbn [next_ref registry qs_iter] in IH. destruct IH as (Hk & Hr & Hi).
    split; [| split; [| exact Hi]].
    + intros [| k] Hlt.
      * rewrite Z.add_0_r, Hr by lia. rewrite lookup_insert_eq. reflexivity.
      * cbn [length] in Hlt. specialize (Hk k ltac:(lia)).
        replace (next_ref L + Z.of_nat (S k)) with (next_ref L + 1 + Z.of_nat k) by lia.
        exact Hk.
    + intros r Hlt. rewrite Hr by lia. apply lookup_insert_ne. lia.
Qed.

Lemma existsb_refs (reg : gmap Z lua_value) (base : Z) (names : list bytes)
    (name : bytes) :
  (forall k, (k < length names)%nat ->
             reg !! (base + Z.of_nat k) = map LStr names !! k) ->
  existsb (fun ref => match reg !! ref with
                      | Some (LStr name_f) => bool_decide (name_f = name)
                      | _ => false
                      end)
          (map (fun k => base + Z.of_nat k) (seq 0 (length names)))
  = bool_decide (name ∈ names).
Proof.
  revert base. induction names as [| n names IH]; intros base H.
  - cbn. symmetry. apply bool_decide_eq_false_2. apply not_elem_of_nil.
  - cbn [length seq map existsb].
    pose proof (H O ltac:(cbn; lia)) as H0. cbn in H0. rewrite Z.add_0_r in *.
    rewrite H0. rewrite <- seq_shift, map_map.
    specialize (IH (base + 1)).
    rewrite (map_ext (fun k => base + Z.of_nat (S k)) (fun k => base + 1 + Z.of_nat k))
      by (intros; lia).
    rewrite IH.
    + destruct (bool_decide_reflect (n = name)) as [-> | Hne].
      * symmetry. apply bool_decide_eq_true_2. left.
      * cbn [orb]. apply bool_decide_ext. rewrite elem_of_cons. intuition congruence.
    + intros k Hk. specialize (H (S k) ltac:(cbn; lia)). cbn in H.
      replace (base + 1 + Z.of_nat k) with (base + Z.pos (Pos.of_succ_nat k)) by lia.
      exact H.
Qed.

(** X24. A [for] loop over [qstr_params(n1, ..., nk)], with at most 10
    names, gets every Uri-Query parameter of the message that has a name,
    and whose name is one of the [ni] when names are given, once and in the
    order of the message, each with its name and its value ([nil] for
    none); when the loop ends the references taken for the names have been
    released, each once. *)
Theorem qstr_params_iteration_lists (L : lua_State) (p : coap_pdu_t)
    (names : list bytes) (rounds : nat) :
  (length names <= MAX_QSTR_PARAMS_ARGS)%nat ->
  (length (pdu_options p) < rounds)%nat ->
  exists L1 st,
    l_coap_pdu_qstr_params L p (map LStr names) = Ok (L1, st) /\
    let '(vals, L2, st2) := qstr_param_iter_all rounds L1 st in
    vals = map (fun nv => [LStr (fst nv); qstr_val (snd nv)])
             (List.filter (fun nv => match names with
                                     | [] => true
                                     | _ => bool_decide (fst nv ∈ names)
                                     end) (qstr_params_of p)) /\
    unref_log L2
    = unref_log L ++ map (fun k => next_ref L + Z.of_nat k) (seq 0 (length names)) /\
    n_refs st2 = O.
Proof.
  intros Hmax Hlen. unfold l_coap_pdu_qstr_params. rewrite length_map.
  destruct (Nat.ltb_spec MAX_QSTR_PARAMS_ARGS (length names)); [lia |].
  pose proof (check_strings_ok names []) as Hc. cbn [length app] in Hc. rewrite Hc.
  unfold mbind, result_bind.
  set (st0 := mk_qs O (replicate MAX_QSTR_PARAMS_ARGS 0) (mk_oi [] false false [] 0)).
  pose proof (ref_args_refs (map LStr names) O L st0 eq_refl) as Hrefs.
  pose proof (ref_args_registry (map LStr names) O L st0) as Hreg.
  destruct (ref_args O (map LStr names) L st0) as [L1 st1].
  rewrite length_map in Hrefs, Hreg.
  destruct Hrefs as (Hn & Htake & Hlog).
  { unfold st0. cbn [qs_refs]. rewrite length_replicate. cbn. exact Hmax. }
  destruct Hreg as (Hk & _ & _).
  destruct (coap_option_iterator_init p (Some [COAP_OPTION_URI_QUERY])) as [ok iter] eqn:Hi.
  eexists _, _. split; [reflexivity |].
  pose proof (qstr_param_iter_all_params rounds L1 (mk_qs (n_refs st1) (qs_refs st1) iter))
    as Hall.
  assert (Hiter : iter = snd (coap_option_iterator_init p (Some [COAP_OPTION_URI_QUERY])))
    by (rewrite Hi; reflexivity).
  destruct (qstr_param_iter_all rounds L1 _) as [[vals L2] st2].
  destruct Hall as (Hv & HL & Hn2).
  { cbn [qs_iter]. rewrite Hiter. unfold coap_option_iterator_init. cbn [snd oi_rest].
    exact Hlen. }
  cbn [n_refs qs_refs qs_iter] in Hv, HL.
  split; [| split; [| exact Hn2]].
  - rewrite Hv. f_equal. rewrite Hiter, coap_options_of_type.
    unfold qstr_params_of, option_values. apply filter_ext. intros nv.
    unfold name_in_filter. cbn [n_refs qs_refs]. rewrite Htake, Hn. cbn [take app Nat.add].
    destruct names as [| n names']; [reflexivity |].
    change (length (n :: names') =? 0)%nat with false. cbn [orb].
    apply existsb_refs. exact Hk.
  - rewrite HL, unref_log_fold, Htake, Hlog. reflexivity.
Qed.

Lemma qstr_params_iteration_lists_witness :
  exists L1 st,
    l_coap_pdu_qstr_params L0
      (mk_pdu 0 1 7 [] [(15, bytes_of_string "a=1"); (15, bytes_of_string "b")] [])
      (map LStr [bytes_of_string "b"]) = Ok (L1, st) /\
    let '(vals, L2, st2) := qstr_param_iter_all 3 L1 st in
    vals = map (fun nv => [LStr (fst nv); qstr_val (snd nv)])
             (List.filter (fun nv => match [bytes_of_string "b"] with
                                     | [] => true
                                     | _ => bool_decide (fst nv ∈ [bytes_of_string "b"])
                                     end)
                (qstr_params_of
                   (mk_pdu 0 1 7 []
                      [(15, bytes_of_string "a=1"); (15, bytes_of_string "b")] []))) /\
    unref_log L2
    = unref_log L0 ++ map (fun k => next_ref L0 + Z.of_nat k)
                          (seq 0 (length [bytes_of_string "b"])) /\
    n_refs st2 = O.
Proof.
  apply (qstr_params_iteration_lists L0
           (mk_pdu 0 1 7 [] [(15, bytes_of_string "a=1"); (15, bytes_of_string "b")] [])
           [bytes_of_string "b"] 3).
  - cbn. unfold MAX_QSTR_PARAMS_ARGS. lia.
  - cbn. lia.
Defined.

Lemma set_uri_path_arr_bad (segs : list bytes) (e : lua_value) (post : list lua_value) :
  lua_type_of e <> LUA_TSTRING ->
  forall p : coap_pdu_t,
    pdu_max_delta p <= COAP_OPTION_URI_PATH ->
    set_uri_path_arr (map LStr segs ++ e :: post) p
    = (Raise InvalidArgument,
       set_pdu_options p (pdu_options p ++ map (pair COAP_OPTION_URI_PATH) segs)).
Proof.
  intros He. induction segs as [| seg segs IH]; intros p Hmax; cbn [map app set_uri_path_arr].
  - rewrite app_nil_r, set_pdu_options_id. destruct e; cbn in He; congruence.
  - rewrite coap_add_option_ok by exact Hmax.
    rewrite IH by (rewrite pdu_max_delta_snoc; lia).
    rewrite set_pdu_options_twice. cbn [pdu_options set_pdu_options].
    rewrite <- app_assoc. reflexivity.
Qed.

(** X25. [set_uri_path] is not all or nothing: when an element of the
    array is no string the call fails, but the segments before that
    element have been added to the message and stay there; when the message
    already has an option above Uri-Path, a non-empty array is refused
    with [OptionOrderViolation] and nothing is added. *)
Theorem set_uri_path_failure_keeps_prefix (p : coap_pdu_t) (segs : list bytes) :
  (pdu_max_delta p <= COAP_OPTION_URI_PATH ->
   forall (e : lua_value) (post : list lua_value),
     lua_type_of e <> LUA_TSTRING ->
     l_coap_pdu_set_uri_path p [LTable (map LStr segs ++ e :: post)]
     = (Raise InvalidArgument,
        set_pdu_options p (pdu_options p ++ map (pair COAP_OPTION_URI_PATH) segs))) /\
  (COAP_OPTION_URI_PATH < pdu_max_delta p -> segs <> [] ->
   l_coap_pdu_set_uri_path p [LTable (map LStr segs)] = (Raise OptionOrderViolation, p)).
Proof.
  split.
  - intros Hmax e post He. unfold l_coap_pdu_set_uri_path. cbn [lua_arg Nat.sub nth_error].
    apply set_uri_path_arr_bad; assumption.
  - intros Hmax Hne. unfold l_coap_pdu_set_uri_path. cbn [lua_arg Nat.sub nth_error].
    destruct segs as [| seg segs]; [congruence |]. cbn [map set_uri_path_arr].
    unfold coap_add_option.
    destruct (Z.ltb_spec COAP_OPTION_URI_PATH (pdu_max_delta p)); [reflexivity | lia].
Qed.

Lemma set_uri_path_failure_keeps_prefix_witness :
  l_coap_pdu_set_uri_path p0 [LTable (map LStr [[97]] ++ LInt 5 :: [])]
  = (Raise InvalidArgument,
     set_pdu_options p0 (pdu_options p0 ++ map (pair COAP_OPTION_URI_PATH) [[97]])).
Proof.
  apply (proj1 (set_uri_path_failure_keeps_prefix p0 [[97]])).
  - cbn. unfold COAP_OPTION_URI_PATH. lia.
  - discriminate.
Defined.

Lemma resp_code_reads_back (c : Z) :
  l_coap_pdu_get_code
    (mk_pdu 0 (COAP_RESPONSE_CODE (_get_coap_resp_code c)) 0 [] [] [])
  = [LInt (_get_coap_resp_code c)].
Proof.
  unfold _get_coap_resp_code.
  repeat match goal with
         | |- context [if ?b then _ else _] => destruct b
         end; reflexivity.
Qed.

(** X26. Sending the response of a request handler without a code: when
    the response has no code yet, it goes out with the default code of the
    request's method (2.05 for GET and FETCH, 2.04 for POST, PATCH and
    iPATCH, 2.01 for PUT, 2.02 for DELETE, none otherwise), the payload is
    the one given, and the object is locked; a code given as first
    argument wins unless it encodes to 0.  A payload of a wrong type makes
    the call fail after the code has been written: the object is not
    locked, but its code is changed. *)
Theorem send_reqh_default_code (session : Z) (request response : coap_pdu_t) :
  pdu_code response = 0 ->
  (forall payload : bytes,
     let '(r, ud') := l_coap_pdu_send_reqh
                        (req_hndlr_response session request response) [LStr payload] in
     r = Ok tt /\ access_lck ud' = true /\
     l_coap_pdu_get_code (ud_pdu ud') = [LInt (_get_coap_resp_code (pdu_code request))] /\
     ud_pdu ud' = coap_add_data
                    (set_pdu_code response
                       (COAP_RESPONSE_CODE (_get_coap_resp_code (pdu_code request))))
                    payload) /\
  (forall (n : Z) (payload : bytes),
     COAP_RESPONSE_CODE (to_int n) <> 0 ->
     let '(r, ud') := l_coap_pdu_send_reqh
                        (req_hndlr_response session request response)
                        [LInt n; LStr payload] in
     r = Ok tt /\ access_lck ud' = true /\
     ud_pdu ud' = coap_add_data (set_pdu_code response (COAP_RESPONSE_CODE (to_int n)))
                    payload) /\
  (forall (n : Z) (b : bool),
     COAP_RESPONSE_CODE (to_int n) <> 0 ->
     l_coap_pdu_send_reqh (req_hndlr_response session request response) [LInt n; LBool b]
     = (Raise InvalidArgument,
        req_hndlr_response session request
          (set_pdu_code response (COAP_RESPONSE_CODE (to_int n))))).
Proof.
  intros Hc. split; [| split].
  - intros payload. unfold l_coap_pdu_send_reqh, req_hndlr_response.
    cbn [lua_arg Nat.sub nth_error ud_pdu ud_def_code]. rewrite Hc.
    change (0 =? 0) with true. cbv iota.
    unfold _set_payload. cbn [lua_arg Nat.sub nth_error]. unfold mbind, result_bind.
    split; [reflexivity |]. split; [reflexivity |]. split; [| reflexivity].
    cbn [set_access_lck set_ud_pdu ud_pdu].
    pose proof (resp_code_reads_back (pdu_code request)) as H.
    unfold l_coap_pdu_get_code in *. cbn [pdu_code] in H.
    destruct payload; cbn [coap_add_data set_pdu_data set_pdu_code pdu_code]; exact H.
  - intros n payload Hn. unfold l_coap_pdu_send_reqh, req_hndlr_response.
    cbn [lua_arg Nat.sub nth_error ud_pdu ud_def_code set_pdu_code pdu_code].
    destruct (Z.eqb_spec (COAP_RESPONSE_CODE (to_int n)) 0) as [E | _]; [contradiction |].
    unfold _set_payload. cbn [lua_arg Nat.sub nth_error]. unfold mbind, result_bind.
    repeat split; reflexivity.
  - intros n b Hn. unfold l_coap_pdu_send_reqh, req_hndlr_response.
    cbn [lua_arg Nat.sub nth_error ud_pdu ud_def_code set_pdu_code pdu_code].
    destruct (Z.eqb_spec (COAP_RESPONSE_CODE (to_int n)) 0) as [E | _]; [contradiction |].
    reflexivity.
Qed.

Lemma send_reqh_default_code_witness :
  let '(r, ud') := l_coap_pdu_send_reqh
                     (req_hndlr_response 0 p0 (mk_pdu 2 0 7 [] [] [])) [LStr [104; 105]] in
  r = Ok tt /\ access_lck ud' = true /\
  l_coap_pdu_get_code (ud_pdu ud') = [LInt (_get_coap_resp_code (pdu_code p0))] /\
  ud_pdu ud' = coap_add_data
                 (set_pdu_code (mk_pdu 2 0 7 [] [] [])
                    (COAP_RESPONSE_CODE (_get_coap_resp_code (pdu_code p0))))
                 [104; 105].
Proof.
  apply (proj1 (send_reqh_default_code 0 p0 (mk_pdu 2 0 7 [] [] []) eq_refl) [104; 105]).
Defined.


(** ** The array form of the path *)

Lemma uri_path_arr_values (t : Z) (vals : list bytes) (k : nat) :
  Forall (fun v => v <> []) vals ->
  uri_path_arr (map (pair t) (vals ++ replicate k [])) = map LStr vals.
Proof.
  induction 1 as [| v vals Hv _ IH]; cbn [app map uri_path_arr snd].
  - induction k as [| k IHk]; cbn [replicate map uri_path_arr snd]; [reflexivity |].
    rewrite IHk. reflexivity.
  - rewrite IH. destruct v; [congruence | reflexivity].
Qed.

Lemma filter_type_pairs (t : Z) (opts : list (Z * bytes)) :
  List.filter (fun o => fst o =? t) opts
  = map (pair t) (map snd (List.filter (fun o => fst o =? t) opts)).
Proof.
  induction opts as [| [u v] opts IH]; cbn [List.filter fst]; [reflexivity |].
  destruct (Z.eqb_spec u t) as [-> | _]; [| exact IH].
  cbn [map snd]. rewrite <- IH. reflexivity.
Qed.

(** X27. The array form of [get_uri_path]: for a message whose Uri-Path
    options are some with a value followed by any number of empty ones, it
    is the array of the values, the empty ones at the end left out; so with
    empty Uri-Path options only it is the empty array, where the string
    form is [nil]; without any Uri-Path option it is [nil].  An array of
    non-empty segments set on a message that has no Uri-Path option is
    read back as it was set. *)
Theorem get_uri_path_array_form (p : coap_pdu_t) (vals : list bytes) (k : nat) :
  Forall (fun v => v <> []) vals ->
  (uri_path_values p = [] -> l_coap_pdu_get_uri_path p [LBool true] = [LNil]) /\
  (uri_path_values p = vals ++ replicate k [] -> (0 < length vals + k)%nat ->
   l_coap_pdu_get_uri_path p [LBool true] = [LTable (map LStr vals)]) /\
  (uri_path_values p = [] -> vals <> [] -> pdu_max_delta p <= COAP_OPTION_URI_PATH ->
   exists p',
     l_coap_pdu_set_uri_path p [LTable (map LStr vals)] = (Ok tt, p') /\
     l_coap_pdu_get_uri_path p' [LBool true] = [LTable (map LStr vals)]).
Proof.
  intros Hvals.
  assert (Hget : forall q : coap_pdu_t,
             l_coap_pdu_get_uri_path q [LBool true]
             = match uri_path_values q with
               | [] => [LNil]
               | _ => [LTable (uri_path_arr
                                 (map (pair COAP_OPTION_URI_PATH) (uri_path_values q)))]
               end).
  { intros q. unfold l_coap_pdu_get_uri_path.
    pose proof (coap_options_of_type q COAP_OPTION_URI_PATH) as Hof.
    destruct (coap_option_iterator_init q (Some [COAP_OPTION_URI_PATH])) as [ok oi] eqn:Hi.
    cbn [snd] in Hof. unfold uri_path_values.
    destruct ok.
    - cbn [has_arg length Nat.leb lua_toboolean lua_arg Nat.sub nth_error].
      rewrite Hof. rewrite <- (filter_type_pairs COAP_OPTION_URI_PATH (pdu_options q)).
      destruct (List.filter _ (pdu_options q)); reflexivity.
    - assert (Hno : pdu_options q = [])
        by (apply (init_not_ok q (Some [COAP_OPTION_URI_PATH])); rewrite Hi; reflexivity).
      rewrite Hno. reflexivity. }
  split; [| split].
  - intros Hnone. rewrite Hget, Hnone. reflexivity.
  - intros Hv Hlen. rewrite Hget, Hv, uri_path_arr_values by exact Hvals.
    destruct (vals ++ replicate k []) eqn:E; [| reflexivity].
    apply (f_equal (@length bytes)) in E.
    rewrite length_app, length_replicate in E. cbn in E. lia.
  - intros Hnone Hne Hmax. eexists. split; [apply set_uri_path_array; exact Hmax |].
    rewrite Hget, uri_path_values_added, Hnone. cbn [app].
    pose proof (uri_path_arr_values COAP_OPTION_URI_PATH vals 0 Hvals) as Harr.
    cbn [replicate] in Harr. rewrite app_nil_r in Harr. rewrite Harr.
    destruct vals; [congruence | reflexivity].
Qed.

Lemma get_uri_path_array_form_witness :
  l_coap_pdu_get_uri_path
    (mk_pdu 0 1 7 [] [(COAP_OPTION_URI_PATH, bytes_of_string "a");
                      (COAP_OPTION_URI_PATH, [])] []) [LBool true]
  = [LTable (map LStr [bytes_of_string "a"])].
Proof.
  refine (proj1 (proj2 (get_uri_path_array_form
                          (mk_pdu 0 1 7 [] [(COAP_OPTION_URI_PATH, bytes_of_string "a");
                                            (COAP_OPTION_URI_PATH, [])] [])
                          [bytes_of_string "a"] 1 _)) _ _).
  - repeat constructor. discriminate.
  - reflexivity.
  - cbn. lia.
Defined.
